(** * skipmap: a shallow embedding of the skip-list map and its invariants

    The Go package [skipmap] (skipmap/skipmap.go) implements an ordered map
    as a skip list of heap-allocated nodes linked by per-level forward
    pointers.  This file embeds the package over an explicit store of nodes
    (a pointer is a store address, [nil] is [None]), with every slice index
    and pointer dereference checked, and proves the structural invariants
    and the functional behaviour of [Put], [Get], [Remove], [Range],
    [RangeFunc], [Min], [Max] and [Len].

    What the embedding leaves out: the reader/writer mutex (operations are
    run one after the other), and the random number generator, whose
    outcomes are an argument of [Put]. *)

From Stdlib Require Import ZArith Lia.
From stdpp Require Import base list sorting.

#[local] Set Warnings "-clear-no-such-hyp".

Local Open Scope Z_scope.
Local Open Scope nat_scope.

(** ** Results of running Go code

    [Panic] is a Go run-time panic (nil dereference, index out of range).
    [OutOfFuel] is an artefact of the embedding: pointer-chasing loops are
    bounded by a fuel argument, and the theorems show it is never hit. *)

Inductive result (A : Type) : Type :=
| Done (a : A)
| Panic
| OutOfFuel.
Arguments Done {A} a.
Arguments Panic {A}.
Arguments OutOfFuel {A}.

Definition bind {A B : Type} (m : result A) (k : A → result B) : result B :=
  match m with
  | Done a => k a
  | Panic => Panic
  | OutOfFuel => OutOfFuel
  end.

Notation "x <- m ;; k" := (bind m (λ x, k))
  (at level 100, m at next level, right associativity).

(** A pointer [*Node] is [nil] or the store address of a node. *)
Abbreviation ptr := (option nat) (only parsing).

(** [l[i]] and [l[i] = x] on a slice, panicking out of range. *)
Definition index {A : Type} (l : list A) (i : nat) : result A :=
  match l !! i with
  | Some x => Done x
  | None => Panic
  end.

Definition store {A : Type} (l : list A) (i : nat) (x : A) : result (list A) :=
  if decide (i < length l) then Done (<[i := x]> l) else Panic.

(** ** Data model *)

(** [type Node]: a key, a value and one forward pointer per level the node
    takes part in. *)
Module Node.
Record t (K V : Type) : Type := mk {
  key : K;
  value : V;
  forward : list ptr
}.
Arguments mk {K V} _ _ _.
Arguments key {K V} _.
Arguments value {K V} _.
Arguments forward {K V} _.
End Node.

(** [type SkipMap], without the mutex and the comparator (a variable of
    the section below) and with the promotion probability replaced by the
    outcomes of the coin flips (see [randomLevel]).  [heap] is the store
    holding the nodes the map points into: a node lives at its index, a new
    node is appended, and a node that is unlinked stays where it is,
    unreachable.  [length] is a Go [int]; it counts live nodes, each of
    which occupies memory, so it is modelled as an unbounded integer.
    [level] and [maxLevel] are slice indices and never negative. *)
Module SkipMap.
Record t (K V : Type) : Type := mk {
  heap : list (Node.t K V);
  header : nat;
  maxLevel : nat;
  level : nat;
  length : Z;
  updateCache : list ptr
}.
Arguments mk {K V} _ _ _ _ _ _.
Arguments heap {K V} _.
Arguments header {K V} _.
Arguments maxLevel {K V} _.
Arguments level {K V} _.
Arguments length {K V} _.
Arguments updateCache {K V} _.
End SkipMap.

Definition DefaultMaxLevel : nat := 32.

(** [defaultComparator] (lines 48-56) at integer keys. *)
Definition defaultComparator (a b : Z) : Z :=
  if (a <? b)%Z then (-1)%Z
  else if (a >? b)%Z then 1%Z
  else 0%Z.

(** A three-way comparator that is a strict total order on the keys:
    negative, zero or positive as the first key is below, equal to or above
    the second. *)
Record StrictTotal {K : Type} (cmp : K → K → Z) : Prop := {
  cmp_refl : ∀ a, cmp a a = 0%Z;
  cmp_antisym : ∀ a b, (cmp a b < 0)%Z ↔ (0 < cmp b a)%Z;
  cmp_trans : ∀ a b c, (cmp a b < 0)%Z → (cmp b c < 0)%Z → (cmp a c < 0)%Z;
  cmp_total : ∀ a b, cmp a b = 0%Z → a = b
}.

Section skipmap.
Context {K V : Type}.
Variable zeroK : K.
Variable zeroV : V.
Variable comparator : K → K → Z.

Abbreviation Node := (Node.t K V).
Abbreviation SkipMap := (SkipMap.t K V).
Abbreviation heap := (list (Node.t K V)).

(** Dereference of a pointer: [nil] panics. *)
Definition deref (h : heap) (p : ptr) : result Node :=
  match p with
  | None => Panic
  | Some a => index h a
  end.

(** [a.forward[i]], for a node address [a]. *)
Definition getForward (h : heap) (a i : nat) : result ptr :=
  n <- index h a;; index (Node.forward n) i.

(** [a.forward[i] = p] *)
Definition setForward (h : heap) (a i : nat) (p : ptr) : result heap :=
  n <- index h a;;
  f <- store (Node.forward n) i p;;
  Done (<[a := Node.mk (Node.key n) (Node.value n) f]> h).

(** [a.value = v] *)
Definition setValue (h : heap) (a : nat) (v : V) : result heap :=
  n <- index h a;;
  Done (<[a := Node.mk (Node.key n) v (Node.forward n)]> h).

(** [NewWithComparator] (lines 36-46): the header is the first node of the
    store; its key and value are the zero values. *)
Definition NewWithComparator : SkipMap :=
  SkipMap.mk
    [Node.mk zeroK zeroV (replicate DefaultMaxLevel None)]
    0
    DefaultMaxLevel
    0
    0%Z
    (replicate DefaultMaxLevel None).

(** [randomLevel] (lines 58-64): [coins n] is the outcome of the [n]-th
    test [rand.Float32() < s.probability] of the call.  The loop ends as
    soon as a flip fails or the level reaches [maxLevel - 1]. *)
Fixpoint randomLevelLoop (fuel : nat) (coins : nat → bool)
    (maxLevel flips level : nat) : result nat :=
  match fuel with
  | 0 => OutOfFuel
  | S fuel' =>
      if coins flips && (Z.of_nat level <? Z.of_nat maxLevel - 1)%Z
      then randomLevelLoop fuel' coins maxLevel (S flips) (S level)
      else Done level
  end.

Definition randomLevel (s : SkipMap) (coins : nat → bool) : result nat :=
  randomLevelLoop (S (SkipMap.maxLevel s)) coins (SkipMap.maxLevel s) 0 0.

(** The inner search loop of [Put], [Get], [Remove], [Range] and
    [RangeFunc] (lines 74-76, 117-119, 139-141, 174-176, 199-201):
    [for current.forward[i] != nil && cmp(current.forward[i].key, key) < 0]
    [{ current = current.forward[i] }]. *)
Fixpoint advance (fuel : nat) (h : heap) (key : K) (i current : nat)
    : result nat :=
  match fuel with
  | 0 => OutOfFuel
  | S fuel' =>
      next <- getForward h current i;;
      match next with
      | None => Done current
      | Some nx =>
          n <- index h nx;;
          if (comparator (Node.key n) key <? 0)%Z
          then advance fuel' h key i nx
          else Done current
      end
  end.

(** [for i := s.level; i >= 0; i--] around it, in [Get], [Range] and
    [RangeFunc] (lines 116-120, 173-177, 198-202). *)
Fixpoint search (fuel : nat) (h : heap) (key : K) (i current : nat)
    : result nat :=
  current <- advance fuel h key i current;;
  match i with
  | 0 => Done current
  | S i' => search fuel h key i' current
  end.

(** The same loop in [Put] and [Remove] (lines 73-78, 138-143), which
    records the frontier: [update[i] = current]. *)
Fixpoint searchUpdate (fuel : nat) (h : heap) (key : K) (i current : nat)
    (update : list ptr) : result (nat * list ptr) :=
  current <- advance fuel h key i current;;
  update <- store update i (Some current);;
  match i with
  | 0 => Done (current, update)
  | S i' => searchUpdate fuel h key i' current update
  end.

(** [for i := s.level + 1; i <= newLevel; i++ { update[i] = s.header }]
    (lines 90-92), [n] iterations left. *)
Fixpoint raiseFrontier (n : nat) (hd i : nat) (update : list ptr)
    : result (list ptr) :=
  match n with
  | 0 => Done update
  | S n' =>
      update <- store update i (Some hd);;
      raiseFrontier n' hd (S i) update
  end.

(** The splice loop of [Put] (lines 102-105), [n] iterations left:
    [newNode.forward[i] = update[i].forward[i]] and
    [update[i].forward[i] = newNode]. *)
Fixpoint splice (n : nat) (h : heap) (update : list ptr) (new i : nat)
    : result heap :=
  match n with
  | 0 => Done h
  | S n' =>
      u <- index update i;;
      un <- deref h u;;
      nx <- index (Node.forward un) i;;
      h <- setForward h new i nx;;
      u <- index update i;;
      match u with
      | None => Panic
      | Some ua =>
          h <- setForward h ua i (Some new);;
          splice n' h update new (S i)
      end
  end.

(** [Put] (lines 66-108).  [update] is the slice [s.updateCache] itself:
    what is written to it is in the map's buffer when the call returns, on
    the early return too. *)
Definition PutWith (fuel : nat) (key : K) (value : V) (coins : nat → bool)
    (s : SkipMap) : result SkipMap :=
  let h := SkipMap.heap s in
  found <-
    searchUpdate fuel h key (SkipMap.level s) (SkipMap.header s)
      (SkipMap.updateCache s);;
  let '(current, update) := found in
  current <- getForward h current 0;;
  found <- match current with
           | None => Done false
           | Some c => n <- index h c;;
                       Done (comparator (Node.key n) key =? 0)%Z
           end;;
  if found : bool then
    h <- match current with
         | None => Panic
         | Some c => setValue h c value
         end;;
    Done (SkipMap.mk h (SkipMap.header s) (SkipMap.maxLevel s)
            (SkipMap.level s) (SkipMap.length s) update)
  else
    newLevel <- randomLevel s coins;;
    raised <-
      (if decide (SkipMap.level s < newLevel) then
         update <- raiseFrontier (newLevel - SkipMap.level s)
                     (SkipMap.header s) (S (SkipMap.level s)) update;;
         Done (update, newLevel)
       else Done (update, SkipMap.level s));;
    let '(update, level) := raised in
    let newNode := length h in
    let h := h ++ [Node.mk key value (replicate (newLevel + 1) None)] in
    h <- splice (S newLevel) h update newNode 0;;
    Done (SkipMap.mk h (SkipMap.header s) (SkipMap.maxLevel s)
            level (SkipMap.length s + 1)%Z update).

(** [Get] (lines 110-129). *)
Definition GetWith (fuel : nat) (key : K) (s : SkipMap) : result (V * bool) :=
  let h := SkipMap.heap s in
  current <- search fuel h key (SkipMap.level s) (SkipMap.header s);;
  current <- getForward h current 0;;
  match current with
  | None => Done (zeroV, false)
  | Some c =>
      n <- index h c;;
      if (comparator (Node.key n) key =? 0)%Z
      then Done (Node.value n, true)
      else Done (zeroV, false)
  end.

(** The unlink loop of [Remove] (lines 148-153), [n] iterations left;
    [break] ends it. *)
Fixpoint unlink (n : nat) (h : heap) (update : list ptr) (current i : nat)
    : result heap :=
  match n with
  | 0 => Done h
  | S n' =>
      u <- index update i;;
      un <- deref h u;;
      nx <- index (Node.forward un) i;;
      if decide (nx = Some current) then
        cn <- index h current;;
        cf <- index (Node.forward cn) i;;
        match u with
        | None => Panic
        | Some ua =>
            h <- setForward h ua i cf;;
            unlink n' h update current (S i)
        end
      else Done h
  end.

(** [for s.level > 0 && s.header.forward[s.level] == nil { s.level-- }]
    (lines 155-157). *)
Fixpoint shrink (h : heap) (hd level : nat) : result nat :=
  match level with
  | 0 => Done 0
  | S level' =>
      f <- getForward h hd level;;
      match f with
      | None => shrink h hd level'
      | Some _ => Done level
      end
  end.

(** [Remove] (lines 131-164). *)
Definition RemoveWith (fuel : nat) (key : K) (s : SkipMap)
    : result (SkipMap * bool) :=
  let h := SkipMap.heap s in
  found <-
    searchUpdate fuel h key (SkipMap.level s) (SkipMap.header s)
      (SkipMap.updateCache s);;
  let '(current, update) := found in
  current <- getForward h current 0;;
  found <- match current with
           | None => Done false
           | Some c => n <- index h c;;
                       Done (comparator (Node.key n) key =? 0)%Z
           end;;
  if found : bool then
    match current with
    | None => Panic
    | Some c =>
        h <- unlink (S (SkipMap.level s)) h update c 0;;
        level <- shrink h (SkipMap.header s) (SkipMap.level s);;
        Done (SkipMap.mk h (SkipMap.header s) (SkipMap.maxLevel s)
                level (SkipMap.length s - 1)%Z update, true)
    end
  else
    Done (SkipMap.mk h (SkipMap.header s) (SkipMap.maxLevel s)
            (SkipMap.level s) (SkipMap.length s) update, false).

(** The collecting loop of [Range] (lines 181-184). *)
Fixpoint collect (fuel : nat) (h : heap) (last : K) (current : ptr)
    (acc : list V) : result (list V) :=
  match fuel with
  | 0 => OutOfFuel
  | S fuel' =>
      match current with
      | None => Done acc
      | Some c =>
          n <- index h c;;
          if (comparator (Node.key n) last <=? 0)%Z then
            nx <- index (Node.forward n) 0;;
            collect fuel' h last nx (acc ++ [Node.value n])
          else Done acc
      end
  end.

(** [Range] (lines 166-187); [first] and [last] are its [start] and
    [end]. *)
Definition RangeWith (fuel : nat) (first last : K) (s : SkipMap)
    : result (list V) :=
  let h := SkipMap.heap s in
  current <- search fuel h first (SkipMap.level s) (SkipMap.header s);;
  current <- getForward h current 0;;
  collect fuel h last current [].

(** The visiting loop of [RangeFunc] (lines 207-212).  The visitor is a
    Go closure: it is modelled with its captured state [St] passed through
    explicitly. *)
Fixpoint visit {St : Type} (fuel : nat) (h : heap) (last : K)
    (f : K → V → St → bool * St) (current : ptr) (st : St) : result St :=
  match fuel with
  | 0 => OutOfFuel
  | S fuel' =>
      match current with
      | None => Done st
      | Some c =>
          n <- index h c;;
          if (comparator (Node.key n) last <=? 0)%Z then
            let '(continue, st) := f (Node.key n) (Node.value n) st in
            if continue : bool then
              nx <- index (Node.forward n) 0;;
              visit fuel' h last f nx st
            else Done st
          else Done st
      end
  end.

(** [RangeFunc] (lines 191-213). *)
Definition RangeFuncWith {St : Type} (fuel : nat) (first last : K)
    (f : K → V → St → bool * St) (st : St) (s : SkipMap) : result St :=
  let h := SkipMap.heap s in
  current <- search fuel h first (SkipMap.level s) (SkipMap.header s);;
  current <- getForward h current 0;;
  visit fuel h last f current st.

(** [Min] (lines 215-228). *)
Definition Min (s : SkipMap) : result (K * V * bool) :=
  if (SkipMap.length s =? 0)%Z then Done (zeroK, zeroV, false)
  else
    minNode <- getForward (SkipMap.heap s) (SkipMap.header s) 0;;
    n <- deref (SkipMap.heap s) minNode;;
    Done (Node.key n, Node.value n, true).

(** [for current.forward[i] != nil { current = current.forward[i] }]
    (lines 243-245). *)
Fixpoint advanceEnd (fuel : nat) (h : heap) (i current : nat) : result nat :=
  match fuel with
  | 0 => OutOfFuel
  | S fuel' =>
      next <- getForward h current i;;
      match next with
      | None => Done current
      | Some nx => advanceEnd fuel' h i nx
      end
  end.

(** [for i := s.level; i >= 0; i--] around it (lines 242-246). *)
Fixpoint searchEnd (fuel : nat) (h : heap) (i current : nat) : result nat :=
  current <- advanceEnd fuel h i current;;
  match i with
  | 0 => Done current
  | S i' => searchEnd fuel h i' current
  end.

(** [Max] (lines 230-249). *)
Definition MaxWith (fuel : nat) (s : SkipMap) : result (K * V * bool) :=
  if (SkipMap.length s =? 0)%Z then Done (zeroK, zeroV, false)
  else
    current <- searchEnd fuel (SkipMap.heap s) (SkipMap.level s)
                 (SkipMap.header s);;
    n <- index (SkipMap.heap s) current;;
    Done (Node.key n, Node.value n, true).

Definition Len (s : SkipMap) : Z := SkipMap.length s.
Definition IsEmpty (s : SkipMap) : bool := (SkipMap.length s =? 0)%Z.

(** A walk along forward pointers that visits more nodes than the store
    holds has looped, so the size of the store is fuel enough; [fuel_enough]
    shows that more changes nothing. *)
Definition fuelOf (s : SkipMap) : nat := length (SkipMap.heap s).

Definition Put (key : K) (value : V) (coins : nat → bool) (s : SkipMap) :=
  PutWith (fuelOf s) key value coins s.
Definition Get (key : K) (s : SkipMap) := GetWith (fuelOf s) key s.
Definition Remove (key : K) (s : SkipMap) := RemoveWith (fuelOf s) key s.
Definition Range (first last : K) (s : SkipMap) :=
  RangeWith (fuelOf s) first last s.
Definition RangeFunc {St : Type} (first last : K)
    (f : K → V → St → bool * St) (st : St) (s : SkipMap) :=
  RangeFuncWith (fuelOf s) first last f st s.
Definition Max (s : SkipMap) := MaxWith (fuelOf s) s.

(** * Vocabulary of the specification *)

(** Histories of mutating operations. *)
Inductive Op : Type :=
| OpPut (key : K) (value : V) (coins : nat → bool)
| OpRemove (key : K).

Definition step (s : SkipMap) (op : Op) : result SkipMap :=
  match op with
  | OpPut key value coins => Put key value coins s
  | OpRemove key => r <- Remove key s;; Done r.1
  end.

Fixpoint run (ops : list Op) (s : SkipMap) : result SkipMap :=
  match ops with
  | [] => Done s
  | op :: ops' => s' <- step s op;; run ops' s'
  end.

(** ** The store as a table of forward pointers

    [fwd h a i] is the level-[i] forward pointer of the node at [a], when
    there is one; [info h a] is what never changes when pointers are
    rewired: key, value and number of levels; [setF] is what [setForward]
    does when it does not panic. *)

Definition fwd (h : heap) (a i : nat) : option ptr :=
  n ← h !! a; Node.forward n !! i.

Definition info (h : heap) (a : nat) : option (K * V * nat) :=
  n ← h !! a; Some (Node.key n, Node.value n, length (Node.forward n)).

Definition setF (h : heap) (a i : nat) (p : ptr) : heap :=
  match h !! a with
  | Some n =>
      <[a := Node.mk (Node.key n) (Node.value n) (<[i := p]> (Node.forward n))]> h
  | None => h
  end.

(** ** The abstract view: the ordered list of live entries

    An entry names a live node: its address, key, value and number of
    levels.  The level-[i] chain of the skip list is the sub-list of the
    entries with more than [i] levels ([tower]). *)

Record entry : Type := Entry {
  e_addr : nat;
  e_key : K;
  e_val : V;
  e_height : nat
}.

Definition hasEntry (h : heap) (x : entry) : Prop :=
  info h (e_addr x) = Some (e_key x, e_val x, e_height x).

Definition tower (i : nat) (L : list entry) : list nat :=
  e_addr <$> filter (λ x, i < e_height x) L.

Fixpoint lastOr (d : nat) (l : list nat) : nat :=
  match l with
  | [] => d
  | x :: l' => lastOr x l'
  end.

Definition hdp (l : list nat) (e : ptr) : ptr :=
  match l with
  | [] => e
  | b :: _ => Some b
  end.

(** [seg h i a l e]: from the node at [a], the level-[i] pointers run
    through exactly the nodes [l], the last one pointing to [e]. *)
Fixpoint seg (h : heap) (i a : nat) (l : list nat) (e : ptr) : Prop :=
  match l with
  | [] => fwd h a i = Some e
  | b :: l' => fwd h a i = Some (Some b) ∧ seg h i b l' e
  end.

(** The frontier of a search: the last node at level [i] among the
    entries [A] below the key, or the header. *)
Definition frontier (i : nat) (A : list entry) : nat := lastOr 0 (tower i A).

Definition keyLt (x y : entry) : Prop := (comparator (e_key x) (e_key y) < 0)%Z.
Definition below (k : K) (x : entry) : Prop := (comparator (e_key x) k < 0)%Z.

(** The representation invariant: the state [s] represents the sorted
    list of entries [L].  The header is node 0 with [maxLevel] slots; every
    entry is a node of the store, not the header, with 1 to [level + 1]
    levels; keys increase strictly; at every level the forward pointers run
    from the header through exactly the entries that have that level, to
    [nil]; [level] is 0 or the top level of some entry; [length] counts the
    entries; every node of the store has 1 to [maxLevel] levels. *)
Record Rep (s : SkipMap) (L : list entry) : Prop := {
  rep_header : SkipMap.header s = 0;
  rep_maxLevel : SkipMap.maxLevel s = DefaultMaxLevel;
  rep_sentinel : ∃ k v, info (SkipMap.heap s) 0 = Some (k, v, DefaultMaxLevel);
  rep_cache : length (SkipMap.updateCache s) = DefaultMaxLevel;
  rep_level : SkipMap.level s < DefaultMaxLevel;
  rep_entries :
    Forall (λ x, hasEntry (SkipMap.heap s) x ∧ e_addr x ≠ 0 ∧
                 1 ≤ e_height x ≤ S (SkipMap.level s)) L;
  rep_sorted : StronglySorted keyLt L;
  rep_links :
    ∀ i, i < DefaultMaxLevel → seg (SkipMap.heap s) i 0 (tower i L) None;
  rep_top : SkipMap.level s = 0 ∨ Exists (λ x, e_height x = S (SkipMap.level s)) L;
  rep_length : SkipMap.length s = Z.of_nat (length L);
  rep_nodes :
    ∀ a k v n, info (SkipMap.heap s) a = Some (k, v, n) → 1 ≤ n ≤ DefaultMaxLevel
}.

(** ** Keys among sorted entries *)

Fixpoint findKey (k : K) (L : list entry) : option entry :=
  match L with
  | [] => None
  | x :: L' =>
      if decide (comparator (e_key x) k = 0%Z) then Some x else findKey k L'
  end.

Definition above (k : K) (x : entry) : Prop := (0 < comparator (e_key x) k)%Z.

(** The shape of a sorted list around a key: entries below it, then
    either the entry holding it or nothing, then entries above it. *)
Inductive Around (k : K) (L : list entry) : Prop :=
| AroundHit A x B :
    L = A ++ x :: B → Forall (below k) A → e_key x = k → Forall (above k) B →
    findKey k L = Some x → Around k L
| AroundMiss A B :
    L = A ++ B → Forall (below k) A → Forall (above k) B →
    findKey k L = None → Around k L.

(** ** Ranges *)

Definition upTo (last : K) (x : entry) : Prop := (comparator (e_key x) last ≤ 0)%Z.
Definition inRange (first last : K) (x : entry) : Prop :=
  (0 ≤ comparator (e_key x) first)%Z ∧ (comparator (e_key x) last ≤ 0)%Z.

#[local] Instance upTo_dec last x : Decision (upTo last x).
Proof. unfold upTo. apply _. Defined.

#[local] Instance inRange_dec first last x : Decision (inRange first last x).
Proof. unfold inRange. apply _. Defined.

(** The visits of [RangeFunc] over a list of entries. *)
Fixpoint visitList {St : Type} (f : K → V → St → bool * St)
    (l : list entry) (st : St) : St :=
  match l with
  | [] => st
  | x :: l' =>
      let '(continue, st) := f (e_key x) (e_val x) st in
      if continue : bool then visitList f l' st else st
  end.

(** ** Reachable states and what can be observed of them *)

(** The states the package can be in. *)
Definition Reachable (s : SkipMap) : Prop :=
  ∃ ops, run ops NewWithComparator = Done s.

(** [levelEntries i s] follows the level-[i] forward pointers from the
    header to [nil] and returns address, key and value of every node on the
    way. *)
Fixpoint chain (fuel : nat) (h : heap) (i : nat) (current : ptr)
    : result (list (nat * K * V)) :=
  match fuel with
  | 0 => OutOfFuel
  | S fuel' =>
      match current with
      | None => Done []
      | Some c =>
          n <- index h c;;
          nx <- index (Node.forward n) i;;
          rest <- chain fuel' h i nx;;
          Done ((c, Node.key n, Node.value n) :: rest)
      end
  end.

Definition levelEntries (i : nat) (s : SkipMap) : result (list (nat * K * V)) :=
  first <- getForward (SkipMap.heap s) (SkipMap.header s) i;;
  chain (fuelOf s) (SkipMap.heap s) i first.

Definition triple (x : entry) : nat * K * V := (e_addr x, e_key x, e_val x).

Definition tripleLt (a b : nat * K * V) : Prop :=
  (comparator a.1.2 b.1.2 < 0)%Z.

Definition pairOf (x : entry) : K * V := (e_key x, e_val x).
Definition pairLt (a b : K * V) : Prop := (comparator a.1 b.1 < 0)%Z.

(** The spec's side of [RangeFunc]: visit the pairs in order, stop after
    the first visit that returns [false]. *)
Fixpoint visitPairs {St : Type} (f : K → V → St → bool * St)
    (l : list (K * V)) (st : St) : St :=
  match l with
  | [] => st
  | (k, v) :: l' =>
      let '(continue, st) := f k v st in
      if continue : bool then visitPairs f l' st else st
  end.

(** A visitor that decides by [p] and records its invocations. *)
Definition recording (p : K → V → bool)
    : K → V → list (K * V) → bool * list (K * V) :=
  λ k v calls, (p k v, calls ++ [(k, v)]).

(** The pairs up to and including the first one on which [p] is false. *)
Fixpoint callsUntil (p : K → V → bool) (l : list (K * V)) : list (K * V) :=
  match l with
  | [] => []
  | (k, v) :: l' => (k, v) :: (if p k v then callsUntil p l' else [])
  end.

Definition keyOf (t : nat * K * V) : K := t.1.2.

(** ** Counting *)


(** The count as the specification words it: distinct keys ever [Put]
    minus distinct keys successfully [Remove]d. *)
Fixpoint distinctKeys (ks : list K) : list K :=
  match ks with
  | [] => []
  | k :: ks' =>
      if existsb (λ k', (comparator k k' =? 0)%Z) ks'
      then distinctKeys ks'
      else k :: distinctKeys ks'
  end.

Fixpoint putKeys (ops : list Op) : list K :=
  match ops with
  | [] => []
  | OpPut key _ _ :: ops' => key :: putKeys ops'
  | OpRemove _ :: ops' => putKeys ops'
  end.



(** ** The level field *)

(** [s.header.forward[i]] *)
Definition headerForward (i : nat) (s : SkipMap) : result ptr :=
  getForward (SkipMap.heap s) (SkipMap.header s) i.

(** [level] is the highest index at which the header's forward reference
    is non-null, read literally. *)
Definition levelIsTop (s : SkipMap) : Prop :=
  (∃ b, headerForward (SkipMap.level s) s = Done (Some b)) ∧
  ∀ j, SkipMap.level s < j < SkipMap.maxLevel s → headerForward j s = Done None.

(** ** The scratch buffer *)

(** Two states that differ at most in the contents of the scratch buffer. *)
Definition sameButCache (s s' : SkipMap) : Prop :=
  SkipMap.heap s' = SkipMap.heap s ∧
  SkipMap.header s' = SkipMap.header s ∧
  SkipMap.maxLevel s' = SkipMap.maxLevel s ∧
  SkipMap.level s' = SkipMap.level s ∧
  SkipMap.length s' = SkipMap.length s ∧
  length (SkipMap.updateCache s') = length (SkipMap.updateCache s).

(** Every read-only operation, and a traversal of any level, gives the
    same result on both states. *)
Definition sameObservations (s s' : SkipMap) : Prop :=
  Len s' = Len s ∧ IsEmpty s' = IsEmpty s ∧
  (∀ k, Get k s' = Get k s) ∧
  (∀ first last, Range first last s' = Range first last s) ∧
  (∀ St first last (f : K → V → St → bool * St) st,
     RangeFunc first last f st s' = RangeFunc first last f st s) ∧
  Min s' = Min s ∧ Max s' = Max s ∧
  ∀ i, levelEntries i s' = levelEntries i s.

(** ** Histories as finite maps *)

(** The map a history denotes: the value last put under each key and not
    removed since. *)
Definition applyOp (m : K → option V) (op : Op) : K → option V :=
  λ k,
    match op with
    | OpPut key value _ =>
        if (comparator key k =? 0)%Z then Some value else m k
    | OpRemove key =>
        if (comparator key k =? 0)%Z then None else m k
    end.

Definition contents (ops : list Op) : K → option V :=
  fold_left applyOp ops (λ _, None).

(** A history of [Put]s only, on pairwise different keys. *)
Fixpoint distinctPuts (ops : list Op) : Prop :=
  match ops with
  | [] => True
  | OpPut key _ _ :: ops' =>
      Forall (λ k', comparator key k' ≠ 0%Z) (putKeys ops') ∧ distinctPuts ops'
  | OpRemove _ :: _ => False
  end.

(** ** Overwriting in place *)

(** A node of a chain with the value [v] in place of its own when its key
    is [k], and as it is otherwise. *)
Definition revalue (k : K) (v : V) (t : nat * K * V) : nat * K * V :=
  if (comparator (keyOf t) k =? 0)%Z then (t.1.1, t.1.2, v) else t.

(** [s'] is [s] with [v] written into the node that holds [k] and nothing
    else changed: the same count, level and nodes, every forward pointer
    as it was, every level chain made of the same nodes in the same order
    with only the value under [k] replaced, and [Get] answering [v] for
    [k] and as before for every other key. *)
Definition overwritten (k : K) (v : V) (s s' : SkipMap) : Prop :=
  Len s' = Len s ∧
  SkipMap.level s' = SkipMap.level s ∧
  length (SkipMap.heap s') = length (SkipMap.heap s) ∧
  (∀ a i, getForward (SkipMap.heap s') a i = getForward (SkipMap.heap s) a i) ∧
  (∀ i, i < SkipMap.maxLevel s →
     ∃ ci, levelEntries i s = Done ci ∧
           levelEntries i s' = Done (revalue k v <$> ci)) ∧
  Get k s' = Done (v, true) ∧
  ∀ k', comparator k' k ≠ 0%Z → Get k' s' = Get k' s.

(** ** What the queries answer *)

(** The public queries give the same answers on both states. *)
Definition sameAnswers (s s' : SkipMap) : Prop :=
  Len s' = Len s ∧ IsEmpty s' = IsEmpty s ∧
  (∀ k, Get k s' = Get k s) ∧
  (∀ first last, Range first last s' = Range first last s) ∧
  (∀ St first last (f : K → V → St → bool * St) st,
     RangeFunc first last f st s' = RangeFunc first last f st s) ∧
  Min s' = Min s ∧ Max s' = Max s.

(** The key an operation is about. *)
Definition opKey (op : Op) : K :=
  match op with
  | OpPut key _ _ => key
  | OpRemove key => key
  end.

(** The number of flips that succeed before the first one that fails,
    from flip [flips] on and counting [n] at most. *)
Fixpoint leadingFlips (coins : nat → bool) (flips n : nat) : nat :=
  match n with
  | 0 => 0
  | S n' => if coins flips then S (leadingFlips coins (S flips) n') else 0
  end.

(** * Proofs *)

Hypothesis Hcmp : StrictTotal comparator.

(** ** The store as a table of forward pointers *)

Lemma index_Done {A} (l : list A) i x : l !! i = Some x → index l i = Done x.
Proof. unfold index. by intros ->. Qed.

Lemma index_inv {A} (l : list A) i x : index l i = Done x → l !! i = Some x.
Proof. unfold index. destruct (l !! i); congruence. Qed.

Lemma store_Done {A} (l : list A) i x :
  i < length l → store l i x = Done (<[i := x]> l).
Proof. unfold store. intros. by rewrite decide_True. Qed.

Lemma getForward_fwd h a i p : fwd h a i = Some p → getForward h a i = Done p.
Proof.
  unfold fwd, getForward, index. destruct (h !! a) as [n|]; simpl; [|done].
  by intros ->.
Qed.

Lemma getForward_as_fwd h a i :
  getForward h a i = match fwd h a i with Some p => Done p | None => Panic end.
Proof.
  unfold getForward, fwd, index. destruct (h !! a) as [n|]; simpl; [|done].
  by destruct (Node.forward n !! i).
Qed.

Lemma fwd_info_lt h a i p : fwd h a i = Some p → ∃ k v n, info h a = Some (k, v, n) ∧ i < n.
Proof.
  unfold fwd, info. destruct (h !! a) as [n|]; simpl; [|done].
  intros Hf. eexists _, _, _. split; [done|]. by eapply lookup_lt_Some.
Qed.

Lemma info_fwd_lt h a i k v n : info h a = Some (k, v, n) → i < n → is_Some (fwd h a i).
Proof.
  unfold fwd, info. destruct (h !! a) as [m|]; simpl; [|done].
  intros [= <- <- <-] Hi. by apply lookup_lt_is_Some.
Qed.

Lemma info_index h a k v n :
  info h a = Some (k, v, n) →
  ∃ m, h !! a = Some m ∧ Node.key m = k ∧ Node.value m = v ∧ length (Node.forward m) = n.
Proof.
  unfold info. destruct (h !! a) as [m|]; simpl; [|done].
  intros [= <- <- <-]. by exists m.
Qed.

Lemma setForward_setF h a i p :
  is_Some (fwd h a i) → setForward h a i p = Done (setF h a i p).
Proof.
  unfold fwd, setForward, setF, index. destruct (h !! a) as [n|]; simpl.
  - intros Hi. apply lookup_lt_is_Some in Hi. by rewrite store_Done.
  - by intros [? ?].
Qed.

Lemma length_setF h a i p : length (setF h a i p) = length h.
Proof. unfold setF. destruct (h !! a); [apply length_insert|done]. Qed.

Lemma info_setF h a i p b : info (setF h a i p) b = info h b.
Proof.
  unfold info, setF. destruct (h !! a) as [n|] eqn:Ha; [|done].
  destruct (decide (a = b)) as [->|Hne].
  - rewrite list_lookup_insert_eq by (by eapply lookup_lt_Some).
    rewrite Ha. simpl. by rewrite length_insert.
  - by rewrite list_lookup_insert_ne.
Qed.

Lemma fwd_setF_eq h a i p : is_Some (fwd h a i) → fwd (setF h a i p) a i = Some p.
Proof.
  unfold fwd, setF. destruct (h !! a) as [n|] eqn:Ha; simpl; [|by intros [? ?]].
  intros Hi. apply lookup_lt_is_Some in Hi.
  rewrite list_lookup_insert_eq by (by eapply lookup_lt_Some). simpl.
  by rewrite list_lookup_insert_eq.
Qed.

Lemma fwd_setF_ne h a i p b j : a ≠ b ∨ i ≠ j → fwd (setF h a i p) b j = fwd h b j.
Proof.
  unfold fwd, setF. destruct (h !! a) as [n|] eqn:Ha; [|done].
  intros Hne. destruct (decide (a = b)) as [->|Hab].
  - rewrite list_lookup_insert_eq by (by eapply lookup_lt_Some).
    rewrite Ha. simpl. destruct Hne as [?|?]; [done|].
    by rewrite list_lookup_insert_ne.
  - by rewrite list_lookup_insert_ne.
Qed.

Lemma fwd_setF h a i p b j :
  is_Some (fwd h a i) →
  fwd (setF h a i p) b j = if decide (a = b ∧ i = j) then Some p else fwd h b j.
Proof.
  intros Hs. case_decide as Hd.
  - destruct Hd as [<- <-]. by apply fwd_setF_eq.
  - apply fwd_setF_ne. destruct (decide (a = b)); [right|left]; naive_solver.
Qed.

(** ** Towers and frontiers *)

Lemma lastOr_app d X Y : lastOr d (X ++ Y) = lastOr (lastOr d X) Y.
Proof. revert d. induction X as [|x X IH]; intros d; simpl; [done|apply IH]. Qed.

Lemma lastOr_elem d X : lastOr d X = d ∨ lastOr d X ∈ X.
Proof.
  revert d. induction X as [|x X IH]; intros d; simpl; [by left|].
  right. destruct (IH x) as [->|?]; [left|by right].
Qed.

Lemma tower_nil i : tower i [] = [].
Proof. done. Qed.

Lemma tower_app i A B : tower i (A ++ B) = tower i A ++ tower i B.
Proof. unfold tower. by rewrite filter_app, fmap_app. Qed.

Lemma tower_cons i x A :
  tower i (x :: A) = if decide (i < e_height x) then e_addr x :: tower i A else tower i A.
Proof. unfold tower. rewrite filter_cons. by case_decide. Qed.

Lemma tower_cons_in i x A : i < e_height x → tower i (x :: A) = e_addr x :: tower i A.
Proof. intros. rewrite tower_cons. by rewrite decide_True. Qed.

Lemma tower_cons_out i x A : ¬ i < e_height x → tower i (x :: A) = tower i A.
Proof. intros. rewrite tower_cons. by rewrite decide_False. Qed.

Lemma tower_empty i A : Forall (λ x, e_height x ≤ i) A → tower i A = [].
Proof.
  induction 1 as [|x A Hx _ IH]; [done|].
  rewrite tower_cons_out by lia. done.
Qed.

Lemma tower_empty_inv i A : tower i A = [] → Forall (λ x, e_height x ≤ i) A.
Proof.
  induction A as [|x A IH]; [constructor|].
  rewrite tower_cons. case_decide; [done|].
  intros. constructor; [lia|auto].
Qed.

Lemma tower_full A : Forall (λ x, 1 ≤ e_height x) A → tower 0 A = e_addr <$> A.
Proof.
  induction 1 as [|x A Hx _ IH]; [done|].
  rewrite tower_cons_in by lia. simpl. by rewrite IH.
Qed.

Lemma tower_elem i A a : a ∈ tower i A → ∃ x, x ∈ A ∧ e_addr x = a ∧ i < e_height x.
Proof.
  unfold tower. intros (x & -> & Hx)%list_elem_of_fmap.
  apply list_elem_of_filter in Hx as [? ?]. by exists x.
Qed.

Lemma tower_sublist i A : tower i A `sublist_of` e_addr <$> A.
Proof. unfold tower. apply fmap_sublist, sublist_filter. Qed.

Lemma frontier_elem i A : frontier i A = 0 ∨ ∃ x, x ∈ A ∧ e_addr x = frontier i A ∧ i < e_height x.
Proof.
  unfold frontier. destruct (lastOr_elem 0 (tower i A)) as [?|Hin]; [by left|].
  right. by apply tower_elem.
Qed.

Lemma frontier_app_out i A x : ¬ i < e_height x → frontier i (A ++ [x]) = frontier i A.
Proof.
  intros. unfold frontier. rewrite tower_app, tower_cons_out by done.
  by rewrite app_nil_r.
Qed.

Lemma frontier_app_in i A x : i < e_height x → frontier i (A ++ [x]) = e_addr x.
Proof.
  intros. unfold frontier. rewrite tower_app, tower_cons_in by done.
  by rewrite lastOr_app.
Qed.

(** The frontier one level up is the frontier of a prefix: the search
    resumes one level down from where it stopped. *)
Lemma frontier_split i A : ∃ A1 A2, A = A1 ++ A2 ∧ frontier (S i) A = frontier i A1.
Proof.
  induction A as [|x A IH] using rev_ind.
  - by exists [], [].
  - destruct (decide (S i < e_height x)) as [Hx|Hx].
    + exists (A ++ [x]), []. rewrite app_nil_r. split; [done|].
      rewrite !frontier_app_in by lia. done.
    + destruct IH as (A1 & A2 & -> & Hp). exists A1, (A2 ++ [x]).
      rewrite app_assoc. split; [done|]. by rewrite frontier_app_out.
Qed.

Lemma frontier_top i A : Forall (λ x, e_height x ≤ i) A → frontier i A = 0.
Proof. intros HA. unfold frontier. by rewrite tower_empty. Qed.

(** *** Segments *)

Lemma seg_app h i a X Y e :
  seg h i a (X ++ Y) e ↔ seg h i a X (hdp Y e) ∧ seg h i (lastOr a X) Y e.
Proof.
  revert a. induction X as [|x X IH]; intros a; simpl.
  - destruct Y; simpl; naive_solver.
  - rewrite IH. naive_solver.
Qed.

Lemma seg_frame h h' i a l e :
  (∀ c, c ∈ a :: l → fwd h' c i = fwd h c i) →
  seg h i a l e → seg h' i a l e.
Proof.
  revert a. induction l as [|b l IH]; intros a Hf; simpl.
  - rewrite Hf by left. done.
  - rewrite Hf by left. intros [? ?]. split; [done|].
    apply IH; [|done]. intros c Hc. apply Hf. by right.
Qed.

Lemma seg_last h i a l e : seg h i a l e → fwd h (lastOr a l) i = Some e.
Proof. revert a. induction l as [|b l IH]; intros a; simpl; [done|]. intros [_ ?]. auto. Qed.

Lemma seg_head h i a l e : seg h i a l e → fwd h a i = Some (hdp l e).
Proof. destruct l; simpl; naive_solver. Qed.

(** Redirecting the last pointer of a segment. *)
Lemma seg_redirect h h' i a l e e' :
  NoDup (a :: l) →
  (∀ c, c ∈ a :: l → c ≠ lastOr a l → fwd h' c i = fwd h c i) →
  fwd h' (lastOr a l) i = Some e' →
  seg h i a l e → seg h' i a l e'.
Proof.
  revert a. induction l as [|b l IH]; intros a Hnd Hf Hl; simpl in *; [done|].
  intros [Ha Hs]. apply NoDup_cons in Hnd as [Hna Hnd]. split.
  - rewrite Hf; [done|by left|]. intros ->.
    destruct (lastOr_elem b l) as [Hb|Hb].
    + rewrite Hb in Hna. apply Hna. by left.
    + apply Hna. by right.
  - apply IH; [done| |done|done]. intros c Hc Hne. apply Hf; [by right|done].
Qed.

(** ** The search *)

Lemma hasEntry_index h x :
  hasEntry h x →
  ∃ m, h !! e_addr x = Some m ∧ Node.key m = e_key x ∧ Node.value m = e_val x ∧
       length (Node.forward m) = e_height x.
Proof. apply info_index. Qed.

Lemma hdp_tower i B :
  hdp (tower i B) None = None ∨
  ∃ y, y ∈ B ∧ i < e_height y ∧ hdp (tower i B) None = Some (e_addr y).
Proof.
  destruct (tower i B) as [|b l] eqn:Ht; [by left|]. right.
  destruct (tower_elem i B b) as (y & ? & <- & ?); [rewrite Ht; by left|].
  by exists y.
Qed.

Lemma advance_seg h k i e M : ∀ fuel a,
  length M < fuel →
  Forall (hasEntry h) M → Forall (below k) M →
  seg h i a (e_addr <$> M) e →
  (e = None ∨ ∃ y, e = Some (e_addr y) ∧ hasEntry h y ∧ ¬ below k y) →
  advance fuel h k i a = Done (lastOr a (e_addr <$> M)).
Proof.
  induction M as [|x M IH]; intros [|fuel] a Hfuel Hent Hlt Hseg He;
    simpl in *; try lia.
  - rewrite (getForward_fwd _ _ _ _ Hseg). simpl.
    destruct He as [->|(y & -> & Hy & Hge)]; [done|].
    apply hasEntry_index in Hy as (m & Hm & Hk & _).
    rewrite (index_Done _ _ _ Hm). simpl. rewrite Hk.
    destruct (Z.ltb_spec (comparator (e_key y) k) 0) as [Hlt'|_]; [|done].
    by destruct Hge.
  - destruct Hseg as [Ha Hseg].
    apply Forall_cons in Hent as [Hx Hent]. apply Forall_cons in Hlt as [Hxk Hlt].
    rewrite (getForward_fwd _ _ _ _ Ha). simpl.
    apply hasEntry_index in Hx as (m & Hm & Hk & _).
    rewrite (index_Done _ _ _ Hm). simpl. rewrite Hk.
    destruct (Z.ltb_spec (comparator (e_key x) k) 0) as [_|Hge].
    + apply IH; [lia|done..].
    + unfold below in Hxk. lia.
Qed.

Lemma Forall_filter_in {A} (P Q : A → Prop) `{∀ x, Decision (Q x)} (l : list A) :
  Forall P l → Forall P (filter Q l).
Proof.
  rewrite !Forall_forall. intros HP x [_ ?]%list_elem_of_filter. auto.
Qed.

(** A sorted list splits at any key. *)
Lemma split_at_key k L :
  StronglySorted keyLt L →
  ∃ A B, L = A ++ B ∧ Forall (below k) A ∧ Forall (λ y, ¬ below k y) B.
Proof.
  induction 1 as [|x L HL IH Hx].
  - exists [], []. by repeat constructor.
  - destruct (decide (comparator (e_key x) k < 0)%Z) as [Hlt|Hge].
    + destruct IH as (A & B & -> & HA & HB). exists (x :: A), B.
      split; [done|]. split; [by constructor|done].
    + exists [], (x :: L). split; [done|]. split; [constructor|].
      constructor; [done|]. rewrite Forall_forall in Hx |- *.
      intros y Hy Hyk. apply Hge.
      eapply (cmp_trans _ Hcmp); [apply (Hx y Hy)|done].
Qed.

Lemma advance_level s L A B k fuel i :
  Rep s L → L = A ++ B → Forall (below k) A → Forall (λ y, ¬ below k y) B →
  length L < fuel → i < DefaultMaxLevel →
  advance fuel (SkipMap.heap s) k i (frontier (S i) A) = Done (frontier i A).
Proof.
  intros HR HL HA HB Hfuel Hi.
  destruct (frontier_split i A) as (A1 & A2 & HA12 & Hp).
  rewrite Hp. pose proof (rep_links _ _ HR i Hi) as Hseg.
  rewrite HL, HA12, !tower_app in Hseg.
  rewrite <- app_assoc in Hseg.
  apply seg_app in Hseg as [_ Hseg]. apply seg_app in Hseg as [Hseg _].
  pose proof (rep_entries _ _ HR) as Hent. rewrite HL, HA12 in Hent.
  apply Forall_app in Hent as [Hent HentB].
  apply Forall_app in Hent as [_ Hent2].
  assert (Forall (below k) A2) as HA2.
  { rewrite HA12 in HA. by apply Forall_app in HA as [_ ?]. }
  unfold tower at 2 in Hseg. unfold frontier at 1.
  rewrite (advance_seg _ k i (hdp (tower i B) None)
             (filter (λ x, i < e_height x) A2) fuel (lastOr 0 (tower i A1))).
  - rewrite HA12. unfold frontier. by rewrite tower_app, lastOr_app.
  - assert (length (filter (λ x, i < e_height x) A2) ≤ length A2)
      by apply length_filter.
    rewrite HL, HA12, !length_app in Hfuel. lia.
  - apply Forall_filter_in. eapply Forall_impl; [exact Hent2|]. naive_solver.
  - by apply Forall_filter_in.
  - done.
  - destruct (hdp_tower i B) as [->|(y & Hy & _ & ->)]; [by left|].
    right. exists y. rewrite Forall_forall in HentB, HB.
    split; [done|]. split; [apply (HentB y Hy)|by apply HB].
Qed.

Lemma search_level s L A B k fuel i :
  Rep s L → L = A ++ B → Forall (below k) A → Forall (λ y, ¬ below k y) B →
  length L < fuel → i < DefaultMaxLevel →
  search fuel (SkipMap.heap s) k i (frontier (S i) A) = Done (frontier 0 A).
Proof.
  intros HR HL HA HB Hfuel.
  induction i as [|i IH]; intros Hi; simpl;
    rewrite (advance_level s L A B) by done; simpl.
  - done.
  - apply IH. lia.
Qed.

Lemma searchUpdate_level s L A B k fuel i :
  Rep s L → L = A ++ B → Forall (below k) A → Forall (λ y, ¬ below k y) B →
  length L < fuel →
  ∀ upd, i < DefaultMaxLevel → i < length upd →
  ∃ upd',
    searchUpdate fuel (SkipMap.heap s) k i (frontier (S i) A) upd
      = Done (frontier 0 A, upd') ∧
    length upd' = length upd ∧
    (∀ j, j ≤ i → upd' !! j = Some (Some (frontier j A))) ∧
    (∀ j, i < j → upd' !! j = upd !! j).
Proof.
  intros HR HL HA HB Hfuel.
  induction i as [|i IH]; intros upd Hi Hlen; simpl;
    rewrite (advance_level s L A B) by done; simpl;
    rewrite store_Done by done; simpl.
  - eexists. split; [done|]. split; [by rewrite length_insert|]. split.
    + intros j Hj. assert (j = 0) as -> by lia.
      by rewrite list_lookup_insert_eq.
    + intros j Hj. rewrite list_lookup_insert_ne by lia. done.
  - destruct (IH (<[S i := Some (frontier (S i) A)]> upd)) as (upd' & -> & Hl & Hle & Hgt).
    { lia. } { rewrite length_insert. lia. }
    exists upd'. split; [done|]. rewrite length_insert in Hl. split; [done|]. split.
    + intros j Hj. destruct (decide (j = S i)) as [->|Hne].
      * rewrite Hgt by lia. by rewrite list_lookup_insert_eq.
      * apply Hle. lia.
    + intros j Hj. rewrite Hgt by lia. rewrite list_lookup_insert_ne by lia. done.
Qed.

Lemma frontier_above_level s L A B :
  Rep s L → L = A ++ B → frontier (S (SkipMap.level s)) A = 0.
Proof.
  intros HR HL. apply frontier_top. pose proof (rep_entries _ _ HR) as Hent.
  rewrite HL in Hent. apply Forall_app in Hent as [Hent _].
  eapply Forall_impl; [exact Hent|]. simpl. intros x (_ & _ & ?). lia.
Qed.

(** At level 0 the frontier points at the first entry not below the key. *)
Lemma frontier_next s L A B :
  Rep s L → L = A ++ B →
  fwd (SkipMap.heap s) (frontier 0 A) 0 = Some (hdp (e_addr <$> B) None).
Proof.
  intros HR HL. pose proof (rep_links _ _ HR 0) as Hseg.
  rewrite HL, tower_app in Hseg.
  apply seg_app in Hseg as [Hseg _]; [|unfold DefaultMaxLevel; lia].
  apply seg_last in Hseg. fold (frontier 0 A) in Hseg. rewrite Hseg.
  rewrite tower_full; [done|].
  pose proof (rep_entries _ _ HR) as Hent.
  rewrite HL in Hent. apply Forall_app in Hent as [_ Hent].
  eapply Forall_impl; [exact Hent|]. simpl. intros x (_ & _ & ?). lia.
Qed.

(** ** Consequences of the representation invariant *)

Lemma keyLt_irrefl x y : keyLt x y → e_key x ≠ e_key y.
Proof.
  unfold keyLt. intros Hlt Heq. rewrite Heq, (cmp_refl _ Hcmp) in Hlt. lia.
Qed.

Lemma entries_NoDup h L :
  Forall (hasEntry h) L → StronglySorted keyLt L → NoDup (e_addr <$> L).
Proof.
  intros Hent. induction 1 as [|x L HL IH Hx]; simpl; [constructor|].
  apply Forall_cons in Hent as [Hhx Hent]. apply NoDup_cons. split; [|auto].
  intros (y & Hxy & Hy)%list_elem_of_fmap.
  rewrite Forall_forall in Hx, Hent.
  apply (keyLt_irrefl x y); [by apply Hx|].
  pose proof (Hent y Hy) as Hhy. unfold hasEntry in *.
  rewrite Hxy in Hhx. congruence.
Qed.

Lemma rep_hasEntry s L : Rep s L → Forall (hasEntry (SkipMap.heap s)) L.
Proof.
  intros HR. pose proof (rep_entries _ _ HR) as Hent.
  eapply Forall_impl; [exact Hent|]. naive_solver.
Qed.

Lemma rep_NoDup s L : Rep s L → NoDup (0 :: (e_addr <$> L)).
Proof.
  intros HR. apply NoDup_cons. split.
  - intros (y & Hy0 & Hy)%list_elem_of_fmap.
    pose proof (rep_entries _ _ HR) as Hent. rewrite Forall_forall in Hent.
    destruct (Hent y Hy) as (_ & ? & _). done.
  - eapply entries_NoDup; [by apply rep_hasEntry|apply (rep_sorted _ _ HR)].
Qed.

Lemma rep_fuel s L : Rep s L → length L < fuelOf s.
Proof.
  intros HR. unfold fuelOf.
  assert (length (0 :: (e_addr <$> L)) ≤ length (seq 0 (length (SkipMap.heap s)))) as Hle.
  { apply submseteq_length, NoDup_submseteq; [by apply (rep_NoDup s)|].
    intros a Ha. apply elem_of_seq. split; [lia|]. simpl.
    apply elem_of_cons in Ha as [->|(y & -> & Hy)%list_elem_of_fmap].
    - destruct (rep_sentinel _ _ HR) as (k & v & Hi).
      apply info_index in Hi as (m & Hm & _). by eapply lookup_lt_Some.
    - pose proof (rep_hasEntry _ _ HR) as Hent. rewrite Forall_forall in Hent.
      destruct (hasEntry_index _ _ (Hent y Hy)) as (m & Hm & _).
      by eapply lookup_lt_Some. }
  simpl in Hle. rewrite length_fmap, length_seq in Hle. lia.
Qed.

(** *** Finding a key among sorted entries *)

Lemma findKey_app_below k A B :
  Forall (below k) A → findKey k (A ++ B) = findKey k B.
Proof.
  induction 1 as [|x A Hx _ IH]; simpl; [done|].
  unfold below in Hx. rewrite decide_False by lia. done.
Qed.

Lemma findKey_above k B : Forall (above k) B → findKey k B = None.
Proof.
  induction 1 as [|x A Hx _ IH]; simpl; [done|].
  unfold above in Hx. rewrite decide_False by lia. done.
Qed.

Lemma findKey_Some k L x :
  findKey k L = Some x → x ∈ L ∧ comparator (e_key x) k = 0%Z.
Proof.
  induction L as [|y L IH]; simpl; [done|]. case_decide.
  - intros [= <-]. split; [by left|done].
  - intros [? ?]%IH. split; [by right|done].
Qed.

Lemma findKey_None k L x :
  findKey k L = None → x ∈ L → comparator (e_key x) k ≠ 0%Z.
Proof.
  induction L as [|y L IH]; simpl; [by intros _ ?%elem_of_nil|]. case_decide; [done|].
  intros Hn [->|?]%elem_of_cons; auto.
Qed.

Lemma keyLt_above k x y : keyLt x y → ¬ below k x → above k y.
Proof.
  unfold keyLt, below, above. intros Hxy Hx.
  apply (cmp_antisym _ Hcmp). apply (cmp_antisym _ Hcmp) in Hxy.
  destruct (decide (comparator k (e_key x) < 0)%Z) as [Hlt|Hge].
  - apply (cmp_antisym _ Hcmp). apply (cmp_antisym _ Hcmp) in Hxy.
    apply (cmp_antisym _ Hcmp). eapply (cmp_trans _ Hcmp); [exact Hlt|done].
  - assert (comparator (e_key x) k = 0%Z) as Heq.
    { destruct (Z.lt_trichotomy (comparator (e_key x) k) 0) as [?|[?|Hgt]];
        [done|done|]. apply (cmp_antisym _ Hcmp) in Hgt. lia. }
    apply (cmp_total _ Hcmp) in Heq. rewrite <- Heq.
    by apply (cmp_antisym _ Hcmp) in Hxy.
Qed.

Lemma around k L : StronglySorted keyLt L → Around k L.
Proof.
  intros HS. destruct (split_at_key k L HS) as (A & B & -> & HA & HB).
  apply StronglySorted_app_1_r in HS.
  destruct B as [|x B].
  - eapply AroundMiss; [done..|constructor|]. by rewrite findKey_app_below.
  - apply Forall_cons in HB as [Hx HB]. apply StronglySorted_cons in HS as [Hxs HS].
    assert (Forall (above k) B) as HBa.
    { rewrite Forall_forall in Hxs |- *. intros y Hy.
      eapply keyLt_above; [by apply Hxs|done]. }
    destruct (decide (comparator (e_key x) k = 0%Z)) as [Heq|Hne].
    + eapply AroundHit; [done|done|by apply (cmp_total _ Hcmp)|done|].
      rewrite findKey_app_below by done. simpl. by rewrite decide_True.
    + eapply (AroundMiss _ _ A (x :: B)); [done|done| |].
      * constructor; [|done]. unfold above, below in *. lia.
      * rewrite findKey_app_below by done. simpl. rewrite decide_False by done.
        by apply findKey_above.
Qed.

Lemma above_not_below k B : Forall (above k) B → Forall (λ y, ¬ below k y) B.
Proof. intros HB. eapply Forall_impl; [exact HB|]. unfold above, below. lia. Qed.

Lemma hit_not_below k x B :
  e_key x = k → Forall (above k) B → Forall (λ y, ¬ below k y) (x :: B).
Proof.
  intros Hx HB. constructor; [|by apply above_not_below].
  unfold below. rewrite Hx, (cmp_refl _ Hcmp). lia.
Qed.

(** ** What the read-only operations compute *)

Lemma fwd_index h a i p m :
  fwd h a i = Some p → h !! a = Some m → index (Node.forward m) i = Done p.
Proof. unfold fwd. intros Hf Hm. rewrite Hm in Hf. by apply index_Done. Qed.

Lemma filter_upTo_stop last x M :
  ¬ upTo last x → Forall (keyLt x) M → filter (upTo last) (x :: M) = [].
Proof.
  intros Hx HM. rewrite filter_cons, decide_False by done.
  induction HM as [|y M Hy _ IH]; [done|].
  rewrite filter_cons, decide_False; [done|].
  pose proof (keyLt_above last x y Hy) as Ha. unfold above, below, upTo in *. lia.
Qed.

Lemma collect_seg h last M : ∀ fuel a acc,
  length M < fuel →
  Forall (hasEntry h) M → StronglySorted keyLt M →
  seg h 0 a (e_addr <$> M) None →
  collect fuel h last (hdp (e_addr <$> M) None) acc
    = Done (acc ++ (e_val <$> filter (upTo last) M)).
Proof.
  induction M as [|x M IH]; intros [|fuel] a acc Hfuel Hent HS Hseg;
    simpl in *; try lia.
  - by rewrite app_nil_r.
  - destruct Hseg as [_ Hseg].
    apply Forall_cons in Hent as [Hx Hent]. apply StronglySorted_cons in HS as [HxM HS].
    apply hasEntry_index in Hx as (m & Hm & Hk & Hv & _).
    rewrite (index_Done _ _ _ Hm). simpl. rewrite Hk.
    destruct (Z.leb_spec (comparator (e_key x) last) 0) as [Hle|Hgt].
    + rewrite (fwd_index _ _ _ _ _ (seg_head _ _ _ _ _ Hseg) Hm). simpl.
      rewrite (IH fuel (e_addr x)); [|lia|done..].
      rewrite filter_cons, decide_True by done. simpl.
      by rewrite Hv, <- app_assoc.
    + rewrite filter_upTo_stop; [by rewrite app_nil_r| |done]. unfold upTo. lia.
Qed.

Lemma visit_seg {St} h last (f : K → V → St → bool * St) M : ∀ fuel a st,
  length M < fuel →
  Forall (hasEntry h) M → StronglySorted keyLt M →
  seg h 0 a (e_addr <$> M) None →
  visit fuel h last f (hdp (e_addr <$> M) None) st
    = Done (visitList f (filter (upTo last) M) st).
Proof.
  induction M as [|x M IH]; intros [|fuel] a st Hfuel Hent HS Hseg;
    simpl in *; try lia; [done|].
  destruct Hseg as [_ Hseg].
  apply Forall_cons in Hent as [Hx Hent]. apply StronglySorted_cons in HS as [HxM HS].
  apply hasEntry_index in Hx as (m & Hm & Hk & Hv & _).
  rewrite (index_Done _ _ _ Hm). simpl. rewrite Hk.
  destruct (Z.leb_spec (comparator (e_key x) last) 0) as [Hle|Hgt].
  - rewrite filter_cons, decide_True by done. simpl. rewrite Hv.
    destruct (f (e_key x) (e_val x) st) as [[] st']; [|done].
    rewrite (fwd_index _ _ _ _ _ (seg_head _ _ _ _ _ Hseg) Hm). simpl.
    apply (IH fuel (e_addr x)); [lia|done..].
  - rewrite filter_upTo_stop; [done| |done]. unfold upTo. lia.
Qed.

Lemma filter_inRange first last A B :
  Forall (below first) A → Forall (λ y, ¬ below first y) B →
  filter (inRange first last) (A ++ B) = filter (upTo last) B.
Proof.
  intros HA HB. rewrite filter_app.
  assert (filter (inRange first last) A = []) as ->.
  { induction HA as [|x A Hx _ IH]; [done|].
    rewrite filter_cons, decide_False; [done|]. unfold inRange, below in *. lia. }
  simpl. induction HB as [|x B Hx _ IH]; [done|].
  rewrite !filter_cons, IH. unfold inRange, upTo, below in *.
  repeat case_decide; try done; lia.
Qed.

Lemma search_from_header s L k A B fuel :
  Rep s L → L = A ++ B → Forall (below k) A → Forall (λ y, ¬ below k y) B →
  length L < fuel →
  search fuel (SkipMap.heap s) k (SkipMap.level s) (SkipMap.header s)
    = Done (frontier 0 A).
Proof.
  intros HR HL HA HB Hfuel. rewrite (rep_header _ _ HR).
  pose proof (search_level s L A B k fuel (SkipMap.level s) HR HL HA HB Hfuel
                (rep_level _ _ HR)) as Hs.
  by rewrite (frontier_above_level s L A B HR HL) in Hs.
Qed.

Lemma searchUpdate_from_header s L k A B fuel :
  Rep s L → L = A ++ B → Forall (below k) A → Forall (λ y, ¬ below k y) B →
  length L < fuel →
  ∃ upd',
    searchUpdate fuel (SkipMap.heap s) k (SkipMap.level s) (SkipMap.header s)
      (SkipMap.updateCache s) = Done (frontier 0 A, upd') ∧
    length upd' = DefaultMaxLevel ∧
    (∀ j, j ≤ SkipMap.level s → upd' !! j = Some (Some (frontier j A))) ∧
    (∀ j, SkipMap.level s < j → upd' !! j = SkipMap.updateCache s !! j).
Proof.
  intros HR HL HA HB Hfuel. rewrite (rep_header _ _ HR).
  pose proof (searchUpdate_level s L A B k fuel (SkipMap.level s) HR HL HA HB
                Hfuel (SkipMap.updateCache s) (rep_level _ _ HR)) as Hs.
  rewrite (frontier_above_level s L A B HR HL), (rep_cache _ _ HR) in Hs.
  apply Hs, (rep_level _ _ HR).
Qed.

Lemma seg_bottom s L A B :
  Rep s L → L = A ++ B →
  seg (SkipMap.heap s) 0 (frontier 0 A) (e_addr <$> B) None.
Proof.
  intros HR HL. pose proof (rep_links _ _ HR 0) as Hseg.
  rewrite HL, tower_app in Hseg.
  apply seg_app in Hseg as [_ Hseg]; [|unfold DefaultMaxLevel; lia].
  fold (frontier 0 A) in Hseg. rewrite tower_full in Hseg; [exact Hseg|].
  pose proof (rep_entries _ _ HR) as Hent.
  rewrite HL in Hent. apply Forall_app in Hent as [_ Hent].
  eapply Forall_impl; [exact Hent|]. simpl. intros x (_ & _ & ?). lia.
Qed.

Lemma GetWith_spec s L fuel k :
  Rep s L → length L < fuel →
  GetWith fuel k s =
    Done (match findKey k L with
          | Some x => (e_val x, true)
          | None => (zeroV, false)
          end).
Proof.
  intros HR Hfuel. unfold GetWith.
  pose proof (rep_hasEntry _ _ HR) as Hent.
  destruct (around k L (rep_sorted _ _ HR)) as [A x B HL HA Hx HB Hf|A B HL HA HB Hf];
    rewrite Hf.
  - rewrite (search_from_header s L k A (x :: B));
      [|done|done|done|by apply hit_not_below|done].
    simpl. rewrite (getForward_fwd _ _ _ _ (frontier_next s L A (x :: B) HR HL)).
    simpl. rewrite HL in Hent. apply Forall_app in Hent as [_ Hent].
    apply Forall_cons in Hent as [Hex _].
    apply hasEntry_index in Hex as (m & Hm & Hk & Hv & _).
    rewrite (index_Done _ _ _ Hm). simpl.
    rewrite Hk, Hx, (cmp_refl _ Hcmp). simpl. by rewrite Hv.
  - rewrite (search_from_header s L k A B);
      [|done|done|done|by apply above_not_below|done].
    simpl. rewrite (getForward_fwd _ _ _ _ (frontier_next s L A B HR HL)).
    simpl. destruct B as [|y B]; simpl; [done|].
    rewrite HL in Hent. apply Forall_app in Hent as [_ Hent].
    apply Forall_cons in Hent as [Hey _]. apply Forall_cons in HB as [Hy _].
    apply hasEntry_index in Hey as (m & Hm & Hk & Hv & _).
    rewrite (index_Done _ _ _ Hm). simpl. rewrite Hk.
    unfold above in Hy.
    destruct (Z.eqb_spec (comparator (e_key y) k) 0); [lia|done].
Qed.

Lemma RangeWith_spec s L fuel first last :
  Rep s L → length L < fuel →
  RangeWith fuel first last s = Done (e_val <$> filter (inRange first last) L).
Proof.
  intros HR Hfuel. unfold RangeWith.
  destruct (split_at_key first L (rep_sorted _ _ HR)) as (A & B & HL & HA & HB).
  rewrite (search_from_header s L first A B) by done. simpl.
  rewrite (getForward_fwd _ _ _ _ (frontier_next s L A B HR HL)). simpl.
  pose proof (rep_hasEntry _ _ HR) as Hent. pose proof (rep_sorted _ _ HR) as HS.
  pose proof (seg_bottom s L A B HR HL) as Hseg.
  rewrite HL in Hent, HS, Hfuel. apply Forall_app in Hent as [_ Hent].
  rewrite (collect_seg _ last B fuel (frontier 0 A)).
  - simpl. rewrite HL. by rewrite filter_inRange.
  - rewrite length_app in Hfuel. lia.
  - done.
  - by apply StronglySorted_app_1_r in HS.
  - done.
Qed.

Lemma RangeFuncWith_spec {St} s L fuel first last
    (f : K → V → St → bool * St) st :
  Rep s L → length L < fuel →
  RangeFuncWith fuel first last f st s
    = Done (visitList f (filter (inRange first last) L) st).
Proof.
  intros HR Hfuel. unfold RangeFuncWith.
  destruct (split_at_key first L (rep_sorted _ _ HR)) as (A & B & HL & HA & HB).
  rewrite (search_from_header s L first A B) by done. simpl.
  rewrite (getForward_fwd _ _ _ _ (frontier_next s L A B HR HL)). simpl.
  pose proof (rep_hasEntry _ _ HR) as Hent. pose proof (rep_sorted _ _ HR) as HS.
  pose proof (seg_bottom s L A B HR HL) as Hseg.
  rewrite HL in Hent, HS, Hfuel. apply Forall_app in Hent as [_ Hent].
  rewrite (visit_seg _ last f B fuel (frontier 0 A)).
  - rewrite HL. by rewrite filter_inRange.
  - rewrite length_app in Hfuel. lia.
  - done.
  - by apply StronglySorted_app_1_r in HS.
  - done.
Qed.

Lemma Min_spec s L :
  Rep s L →
  Min s = Done (match L with
                | [] => (zeroK, zeroV, false)
                | x :: _ => (e_key x, e_val x, true)
                end).
Proof.
  intros HR. unfold Min. rewrite (rep_length _ _ HR), (rep_header _ _ HR).
  destruct L as [|x L']; [done|].
  destruct (Z.eqb_spec (Z.of_nat (length (x :: L'))) 0) as [Hz|_];
    [simpl in Hz; lia|].
  pose proof (frontier_next s (x :: L') [] (x :: L') HR eq_refl) as Hf.
  change (frontier 0 []) with 0 in Hf. rewrite (getForward_fwd _ _ _ _ Hf).
  simpl. pose proof (rep_hasEntry _ _ HR) as Hent.
  apply Forall_cons in Hent as [Hx _].
  apply hasEntry_index in Hx as (m & Hm & Hk & Hv & _).
  rewrite (index_Done _ _ _ Hm). simpl. by rewrite Hk, Hv.
Qed.

Lemma advanceEnd_seg h i M : ∀ fuel a,
  length M < fuel → seg h i a M None →
  advanceEnd fuel h i a = Done (lastOr a M).
Proof.
  induction M as [|b M IH]; intros [|fuel] a Hfuel Hseg; simpl in *; try lia.
  - by rewrite (getForward_fwd _ _ _ _ Hseg).
  - destruct Hseg as [Ha Hseg]. rewrite (getForward_fwd _ _ _ _ Ha). simpl.
    apply IH; [lia|done].
Qed.

Lemma length_tower i A : length (tower i A) ≤ length A.
Proof. unfold tower. rewrite length_fmap. apply length_filter. Qed.

Lemma advanceEnd_level s L fuel i :
  Rep s L → length L < fuel → i < DefaultMaxLevel →
  advanceEnd fuel (SkipMap.heap s) i (frontier (S i) L) = Done (frontier i L).
Proof.
  intros HR Hfuel Hi. destruct (frontier_split i L) as (A1 & A2 & HL & Hp).
  rewrite Hp. pose proof (rep_links _ _ HR i Hi) as Hseg.
  rewrite HL, tower_app in Hseg. apply seg_app in Hseg as [_ Hseg].
  fold (frontier i A1) in Hseg.
  rewrite (advanceEnd_seg _ i (tower i A2) fuel (frontier i A1)).
  - rewrite HL. unfold frontier. by rewrite tower_app, lastOr_app.
  - pose proof (length_tower i A2). rewrite HL, length_app in Hfuel. lia.
  - done.
Qed.

Lemma searchEnd_level s L fuel i :
  Rep s L → length L < fuel → i < DefaultMaxLevel →
  searchEnd fuel (SkipMap.heap s) i (frontier (S i) L) = Done (frontier 0 L).
Proof.
  intros HR Hfuel.
  induction i as [|i IH]; intros Hi; simpl;
    rewrite (advanceEnd_level s L) by done; simpl.
  - done.
  - apply IH. lia.
Qed.

Lemma MaxWith_spec s L fuel :
  Rep s L → length L < fuel →
  MaxWith fuel s = Done (match last L with
                         | None => (zeroK, zeroV, false)
                         | Some x => (e_key x, e_val x, true)
                         end).
Proof.
  intros HR Hfuel. unfold MaxWith.
  rewrite (rep_length _ _ HR), (rep_header _ _ HR).
  destruct (last L) as [x|] eqn:Hlast.
  - apply last_Some in Hlast as [L' HL].
    destruct (Z.eqb_spec (Z.of_nat (length L)) 0) as [Hz|_].
    { rewrite HL, length_app in Hz. simpl in Hz. lia. }
    pose proof (searchEnd_level s L fuel (SkipMap.level s) HR Hfuel
                  (rep_level _ _ HR)) as Hs.
    rewrite (frontier_above_level s L L [] HR) in Hs by (by rewrite app_nil_r).
    rewrite Hs. simpl.
    pose proof (rep_entries _ _ HR) as Hent. rewrite HL in Hent.
    apply Forall_app in Hent as [_ Hent]. apply Forall_cons in Hent as [(Hx & _ & Hh) _].
    rewrite HL, frontier_app_in by lia.
    apply hasEntry_index in Hx as (m & Hm & Hk & Hv & _).
    rewrite (index_Done _ _ _ Hm). simpl. by rewrite Hk, Hv.
  - apply last_None in Hlast. by rewrite Hlast.
Qed.

(** ** The loops of the mutating operations *)

Lemma fwd_inv h a i p :
  fwd h a i = Some p → ∃ n, h !! a = Some n ∧ Node.forward n !! i = Some p.
Proof.
  unfold fwd. destruct (h !! a) as [n|]; simpl; [|done]. intros. by exists n.
Qed.

Lemma randomLevelLoop_spec coins m : ∀ fuel flips level,
  level < m → m - level ≤ fuel →
  ∃ rl, randomLevelLoop fuel coins m flips level = Done rl ∧ level ≤ rl < m.
Proof.
  induction fuel as [|fuel IH]; intros flips level Hlt Hfuel; simpl; [lia|].
  destruct (coins flips); simpl; [|exists level; split; [done|lia]].
  destruct (Z.ltb_spec (Z.of_nat level) (Z.of_nat m - 1)) as [Hl|Hl].
  - destruct (IH (S flips) (S level)) as (rl & -> & ?); [lia|lia|].
    exists rl. split; [done|lia].
  - exists level. split; [done|lia].
Qed.

Lemma raiseFrontier_spec hd : ∀ n i upd,
  i + n ≤ length upd →
  ∃ upd', raiseFrontier n hd i upd = Done upd' ∧
    length upd' = length upd ∧
    (∀ j, i ≤ j < i + n → upd' !! j = Some (Some hd)) ∧
    (∀ j, ¬ (i ≤ j < i + n) → upd' !! j = upd !! j).
Proof.
  induction n as [|n IH]; intros i upd Hlen; simpl.
  - exists upd. split; [done|]. split; [done|]. split; [lia|done].
  - rewrite store_Done by lia. simpl.
    destruct (IH (S i) (<[i := Some hd]> upd)) as (upd' & -> & Hl & Hin & Hout).
    { rewrite length_insert. lia. }
    exists upd'. split; [done|]. rewrite length_insert in Hl. split; [done|]. split.
    + intros j Hj. destruct (decide (j = i)) as [->|Hne].
      * rewrite Hout by lia. apply list_lookup_insert_eq. lia.
      * apply Hin. lia.
    + intros j Hj. rewrite Hout by lia. apply list_lookup_insert_ne. lia.
Qed.

Lemma splice_spec upd new (P : nat → nat) : ∀ n h i,
  (∀ j, i ≤ j < i + n →
        upd !! j = Some (Some (P j)) ∧ P j ≠ new ∧
        is_Some (fwd h (P j) j) ∧ is_Some (fwd h new j)) →
  ∃ h', splice n h upd new i = Done h' ∧
    length h' = length h ∧
    (∀ a, info h' a = info h a) ∧
    (∀ a j, fwd h' a j =
       if decide (i ≤ j < i + n) then
         if decide (a = new) then fwd h (P j) j
         else if decide (a = P j) then Some (Some new)
         else fwd h a j
       else fwd h a j).
Proof.
  induction n as [|n IH]; intros h i Hpre; simpl.
  - exists h. split; [done|]. split; [done|]. split; [done|].
    intros a j. rewrite decide_False by lia. done.
  - destruct (Hpre i) as (Hu & Hne & [nx Hnx] & Hnew); [lia|].
    rewrite (index_Done _ _ _ Hu). simpl.
    destruct (fwd_inv _ _ _ _ Hnx) as (un & Hun & Hf).
    rewrite (index_Done _ _ _ Hun). simpl.
    rewrite (index_Done _ _ _ Hf). simpl.
    rewrite (setForward_setF _ _ _ _ Hnew). simpl.
    rewrite setForward_setF by (rewrite fwd_setF_ne by auto; eauto). simpl.
    set (h1 := setF h new i nx). set (h2 := setF h1 (P i) i (Some new)).
    assert (∀ a j, fwd h2 a j =
              if decide (P i = a ∧ i = j) then Some (Some new)
              else if decide (new = a ∧ i = j) then Some nx
              else fwd h a j) as Hh2.
    { intros a j. unfold h2. rewrite fwd_setF.
      - case_decide; [done|]. unfold h1. by rewrite fwd_setF.
      - unfold h1. rewrite fwd_setF_ne by auto. eauto. }
    destruct (IH h2 (S i)) as (h' & -> & Hlen & Hinfo & Hfwd).
    { intros j Hj. destruct (Hpre j) as (? & ? & ? & ?); [lia|].
      rewrite !Hh2. rewrite !decide_False by lia. done. }
    exists h'. split; [done|]. split.
    { rewrite Hlen. unfold h2, h1. by rewrite !length_setF. }
    split.
    { intros a. rewrite Hinfo. unfold h2, h1. by rewrite !info_setF. }
    intros a j. rewrite Hfwd. rewrite !Hh2.
    destruct (decide (j = i)) as [->|Hji].
    + rewrite (decide_False (P:=S i ≤ i < S i + n)) by lia.
      rewrite (decide_True (P:=i ≤ i < i + S n)) by lia.
      destruct (decide (a = new)) as [->|Han].
      * rewrite decide_False by naive_solver. rewrite decide_True by done. done.
      * destruct (decide (a = P i)) as [->|Hap].
        -- by rewrite decide_True.
        -- rewrite !decide_False by naive_solver. done.
    + destruct (decide (S i ≤ j < S i + n)) as [Hin|Hout].
      * rewrite (decide_True (P:=i ≤ j < i + S n)) by lia.
        rewrite !(decide_False (P:=_ ∧ i = j)) by lia. done.
      * rewrite (decide_False (P:=i ≤ j < i + S n)) by lia.
        rewrite !(decide_False (P:=_ ∧ i = j)) by lia. done.
Qed.

Lemma unlink_spec upd c (P : nat → nat) ht : ∀ n h i,
  i ≤ ht ≤ i + n →
  (∀ j, i ≤ j < ht →
        upd !! j = Some (Some (P j)) ∧ P j ≠ c ∧
        fwd h (P j) j = Some (Some c) ∧ is_Some (fwd h c j)) →
  (ht < i + n →
        upd !! ht = Some (Some (P ht)) ∧
        ∃ q, fwd h (P ht) ht = Some q ∧ q ≠ Some c) →
  ∃ h', unlink n h upd c i = Done h' ∧
    length h' = length h ∧
    (∀ a, info h' a = info h a) ∧
    (∀ a j, fwd h' a j =
       if decide (i ≤ j < ht ∧ a = P j) then fwd h c j else fwd h a j).
Proof.
  induction n as [|n IH]; intros h i Hi Hin Hstop; simpl.
  - exists h. split; [done|]. split; [done|]. split; [done|].
    intros a j. rewrite decide_False by lia. done.
  - destruct (decide (i < ht)) as [Hlt|Hge].
    + destruct (Hin i) as (Hu & Hne & Hpc & [cf Hcf]); [lia|].
      rewrite (index_Done _ _ _ Hu). simpl.
      destruct (fwd_inv _ _ _ _ Hpc) as (un & Hun & Hf).
      rewrite (index_Done _ _ _ Hun). simpl.
      rewrite (index_Done _ _ _ Hf). simpl.
      rewrite decide_True by done.
      destruct (fwd_inv _ _ _ _ Hcf) as (cn & Hcn & Hcff).
      rewrite (index_Done _ _ _ Hcn). simpl.
      rewrite (index_Done _ _ _ Hcff). simpl.
      rewrite setForward_setF by eauto. simpl.
      set (h1 := setF h (P i) i cf).
      assert (∀ a j, fwd h1 a j =
                if decide (P i = a ∧ i = j) then Some cf else fwd h a j) as Hh1.
      { intros a j. unfold h1. rewrite fwd_setF by eauto. done. }
      destruct (IH h1 (S i)) as (h' & -> & Hlen & Hinfo & Hfwd).
      { lia. }
      { intros j Hj. destruct (Hin j) as (? & ? & ? & ?); [lia|].
        rewrite !Hh1. rewrite !decide_False by lia. done. }
      { intros Hht. destruct Hstop as (? & q & ? & ?); [lia|].
        split; [done|]. exists q. rewrite Hh1. rewrite decide_False by lia. done. }
      exists h'. split; [done|]. split.
      { rewrite Hlen. unfold h1. by rewrite length_setF. }
      split.
      { intros a. rewrite Hinfo. unfold h1. by rewrite info_setF. }
      intros a j. rewrite Hfwd. rewrite !Hh1.
      destruct (decide (j = i)) as [->|Hji].
      * rewrite (decide_False (P:=S i ≤ i < ht ∧ _)) by lia.
        destruct (decide (a = P i)) as [->|Hap].
        -- rewrite decide_True by done. rewrite decide_True by (split; [lia|done]).
           done.
        -- rewrite !decide_False by naive_solver. done.
      * rewrite !(decide_False (P:=_ ∧ i = j)) by lia.
        destruct (decide (S i ≤ j < ht ∧ a = P j)) as [Hin'|Hout].
        -- rewrite decide_True by (split; [lia|naive_solver]). done.
        -- rewrite decide_False; [done|]. intros [? ?]. apply Hout. split; [lia|done].
    + assert (i = ht) as -> by lia.
      destruct Hstop as (Hu & q & Hq & Hqc); [lia|].
      rewrite (index_Done _ _ _ Hu). simpl.
      destruct (fwd_inv _ _ _ _ Hq) as (un & Hun & Hf).
      rewrite (index_Done _ _ _ Hun). simpl.
      rewrite (index_Done _ _ _ Hf). simpl.
      rewrite decide_False by done.
      exists h. split; [done|]. split; [done|]. split; [done|].
      intros a j. rewrite decide_False by lia. done.
Qed.

Lemma shrink_spec h : ∀ level,
  (∀ j, j ≤ level → is_Some (fwd h 0 j)) →
  ∃ l', shrink h 0 level = Done l' ∧ l' ≤ level ∧
    (∀ j, l' < j ≤ level → fwd h 0 j = Some None) ∧
    (l' = 0 ∨ ∃ b, fwd h 0 l' = Some (Some b)).
Proof.
  induction level as [|level IH]; intros Hf; simpl.
  - exists 0. split; [done|]. split; [done|]. split; [lia|by left].
  - destruct (Hf (S level)) as [[b|] Hb]; [lia| |];
      rewrite (getForward_fwd _ _ _ _ Hb); simpl.
    + exists (S level). split; [done|]. split; [done|]. split; [lia|].
      right. by exists b.
    + destruct IH as (l' & -> & Hle & Hnil & Htop); [intros; apply Hf; lia|].
      exists l'. split; [done|]. split; [lia|]. split; [|done].
      intros j Hj. destruct (decide (j = S level)) as [->|?]; [done|].
      apply Hnil. lia.
Qed.

(** *** Splicing a node into, and out of, a segment *)

Lemma seg_transfer h h' i a a' l e :
  fwd h' a' i = fwd h a i →
  (∀ c, c ∈ l → fwd h' c i = fwd h c i) →
  seg h i a l e → seg h' i a' l e.
Proof.
  intros Ha Hf. destruct l as [|b l]; simpl; rewrite Ha; [done|].
  intros [? ?]. split; [done|]. by apply (seg_frame h).
Qed.

Lemma lastOr_ne a x X : a ∉ x :: X → a ≠ lastOr x X.
Proof.
  intros Hna ->. destruct (lastOr_elem x X) as [Hb|Hb].
  - rewrite Hb in Hna. apply Hna. by left.
  - apply Hna. by right.
Qed.

Lemma seg_insert h h' i new : ∀ X a Y,
  seg h i a (X ++ Y) None →
  NoDup (a :: X ++ Y) →
  fwd h' new i = fwd h (lastOr a X) i →
  fwd h' (lastOr a X) i = Some (Some new) →
  (∀ c, c ∈ a :: X ++ Y → c ≠ lastOr a X → fwd h' c i = fwd h c i) →
  seg h' i a (X ++ new :: Y) None.
Proof.
  induction X as [|x X IH]; intros a Y Hseg Hnd Hnew Hlast Hf; simpl in *.
  - split; [done|]. apply NoDup_cons in Hnd as [Hna _].
    eapply seg_transfer; [exact Hnew| |exact Hseg].
    intros c Hc. apply Hf; [by right|]. by intros ->.
  - destruct Hseg as [Ha Hseg]. apply NoDup_cons in Hnd as [Hna Hnd].
    assert (a ≠ lastOr x X) as Hne.
    { apply lastOr_ne. intros Hin. apply Hna.
      apply elem_of_cons in Hin as [->|Hin]; [by left|].
      right. apply elem_of_app. by left. }
    split; [rewrite Hf; [done|by left|done]|].
    apply IH; [done..|]. intros c Hc. apply Hf. by right.
Qed.

Lemma seg_delete h h' i c : ∀ X a Y,
  seg h i a (X ++ c :: Y) None →
  NoDup (a :: X ++ c :: Y) →
  fwd h' (lastOr a X) i = fwd h c i →
  (∀ d, d ∈ a :: X ++ Y → d ≠ lastOr a X → fwd h' d i = fwd h d i) →
  seg h' i a (X ++ Y) None.
Proof.
  induction X as [|x X IH]; intros a Y Hseg Hnd Hlast Hf; simpl in *.
  - destruct Hseg as [_ Hseg]. apply NoDup_cons in Hnd as [Hna _].
    eapply seg_transfer; [exact Hlast| |exact Hseg].
    intros d Hd. apply Hf; [by right|]. intros ->. apply Hna. by right.
  - destruct Hseg as [Ha Hseg]. apply NoDup_cons in Hnd as [Hna Hnd].
    assert (a ≠ lastOr x X) as Hne.
    { apply lastOr_ne. intros Hin. apply Hna.
      apply elem_of_cons in Hin as [->|Hin]; [by left|].
      right. apply elem_of_app. by left. }
    split; [rewrite Hf; [done|by left|done]|].
    apply IH; [done..|]. intros d Hd. apply Hf. by right.
Qed.

(** ** The empty map *)

Lemma Rep_New : Rep NewWithComparator [].
Proof.
  split; simpl; try done.
  - by exists zeroK, zeroV.
  - unfold DefaultMaxLevel. lia.
  - constructor.
  - intros i Hi. exact (lookup_replicate_2 DefaultMaxLevel None i Hi).
  - by left.
  - intros [|a] k v n; unfold info; simpl; [|done].
    intros [= _ _ <-]. unfold DefaultMaxLevel. lia.
Qed.

(** ** [Put] on a key that is present *)

Lemma tower_replace i A x x' B :
  e_addr x' = e_addr x → e_height x' = e_height x →
  tower i (A ++ x' :: B) = tower i (A ++ x :: B).
Proof. intros Ha Hh. by rewrite !tower_app, !tower_cons, Ha, Hh. Qed.

Lemma sorted_replace A x x' B :
  e_key x' = e_key x →
  StronglySorted keyLt (A ++ x :: B) → StronglySorted keyLt (A ++ x' :: B).
Proof.
  intros Hk. rewrite !StronglySorted_app, !StronglySorted_cons.
  intros (Hcross & HA & HxB & HB). split; [|split; [done|split; [|done]]].
  - intros x1 x2 Hx1 [->|Hx2]%elem_of_cons.
    + unfold keyLt. rewrite Hk. apply (Hcross x1 x); [done|by left].
    + apply Hcross; [done|by right].
  - eapply Forall_impl; [exact HxB|]. unfold keyLt. by rewrite Hk.
Qed.

Lemma fwd_insert_value h a m v b j :
  h !! a = Some m →
  fwd (<[a := Node.mk (Node.key m) v (Node.forward m)]> h) b j = fwd h b j.
Proof.
  intros Hm. unfold fwd. destruct (decide (a = b)) as [->|Hne].
  - rewrite list_lookup_insert_eq by (by eapply lookup_lt_Some). by rewrite Hm.
  - by rewrite list_lookup_insert_ne.
Qed.

Lemma info_insert_value h a m v b :
  h !! a = Some m →
  info (<[a := Node.mk (Node.key m) v (Node.forward m)]> h) b =
    if decide (a = b) then Some (Node.key m, v, length (Node.forward m))
    else info h b.
Proof.
  intros Hm. unfold info. case_decide as Hd.
  - subst b. by rewrite list_lookup_insert_eq by (by eapply lookup_lt_Some).
  - by rewrite list_lookup_insert_ne.
Qed.

Lemma PutWith_hit s L fuel k v coins A x B :
  Rep s L → length L < fuel →
  L = A ++ x :: B → Forall (below k) A → e_key x = k → Forall (above k) B →
  ∃ s', PutWith fuel k v coins s = Done s' ∧
    Rep s' (A ++ Entry (e_addr x) (e_key x) v (e_height x) :: B) ∧
    SkipMap.level s' = SkipMap.level s ∧
    SkipMap.length s' = SkipMap.length s ∧
    (∀ a j, fwd (SkipMap.heap s') a j = fwd (SkipMap.heap s) a j) ∧
    length (SkipMap.heap s') = length (SkipMap.heap s).
Proof.
  intros HR Hfuel HL HA Hx HB. unfold PutWith.
  destruct (searchUpdate_from_header s L k A (x :: B) fuel)
    as (upd & -> & Hupd & _ & _); [done|done|done|by apply hit_not_below|done|].
  simpl. rewrite (getForward_fwd _ _ _ _ (frontier_next s L A (x :: B) HR HL)).
  simpl. pose proof (rep_hasEntry _ _ HR) as Hent. rewrite HL in Hent.
  pose proof Hent as Hent'.
  apply Forall_app in Hent' as [_ Hent']. apply Forall_cons in Hent' as [Hex _].
  pose proof Hex as Hinfo.
  apply hasEntry_index in Hex as (m & Hm & Hk & Hv & Hh).
  rewrite (index_Done _ _ _ Hm). simpl.
  rewrite Hk, Hx, (cmp_refl _ Hcmp). simpl.
  unfold setValue. rewrite (index_Done _ _ _ Hm). simpl.
  eexists. split; [done|]. simpl. split; [|split; [done|split; [done|]]].
  2: { split; [|apply length_insert]. intros a j. by apply fwd_insert_value. }
  pose proof (rep_NoDup _ _ HR) as Hnd. rewrite HL in Hnd.
  split; simpl.
  - apply (rep_header _ _ HR).
  - apply (rep_maxLevel _ _ HR).
  - destruct (rep_sentinel _ _ HR) as (k0 & v0 & H0).
    exists k0, v0. rewrite (info_insert_value _ _ _ _ _ Hm), decide_False; [done|].
    pose proof (rep_entries _ _ HR) as He. rewrite HL in He.
    apply Forall_app in He as [_ He]. apply Forall_cons in He as [(_ & ? & _) _].
    done.
  - done.
  - apply (rep_level _ _ HR).
  - pose proof (rep_entries _ _ HR) as He. rewrite HL in He.
    apply NoDup_cons in Hnd as [_ Hnd]. rewrite fmap_app, fmap_cons in Hnd.
    apply NoDup_app in Hnd as (_ & HndA & HndB). apply NoDup_cons in HndB as [HxB _].
    apply Forall_app in He as [HeA HeB]. apply Forall_cons in HeB as [Hex HeB].
    apply Forall_app. split; [|apply Forall_cons; split].
    + rewrite Forall_forall in HeA |- *. intros y Hy.
      destruct (HeA y Hy) as (Hy1 & Hy2 & Hy3). split; [|done].
      unfold hasEntry. rewrite (info_insert_value _ _ _ _ _ Hm), decide_False; [done|].
      intros Heq. apply (HndA (e_addr y)); [by apply list_elem_of_fmap_2|].
      rewrite <- Heq. by left.
    + destruct Hex as (_ & ? & ?). simpl. split; [|done].
      unfold hasEntry. simpl.
      rewrite (info_insert_value _ _ _ _ _ Hm), decide_True by done.
      by rewrite Hk, Hx, Hh.
    + rewrite Forall_forall in HeB |- *. intros y Hy.
      destruct (HeB y Hy) as (Hy1 & Hy2 & Hy3). split; [|done].
      unfold hasEntry. rewrite (info_insert_value _ _ _ _ _ Hm), decide_False; [done|].
      intros Heq. apply HxB. rewrite Heq. by apply list_elem_of_fmap_2.
  - pose proof (rep_sorted _ _ HR) as HS. rewrite HL in HS.
    by apply (sorted_replace A x).
  - intros i Hi. rewrite (tower_replace i A x) by done.
    pose proof (rep_links _ _ HR i Hi) as Hseg. rewrite HL in Hseg.
    eapply seg_frame; [|exact Hseg]. intros c _. by apply fwd_insert_value.
  - destruct (rep_top _ _ HR) as [?|Hex']; [by left|right].
    rewrite HL in Hex'. rewrite Exists_app in Hex' |- *.
    destruct Hex' as [?|Hex']; [by left|right].
    apply Exists_cons in Hex' as [?|?]; apply Exists_cons; [by left|by right].
  - rewrite (rep_length _ _ HR), HL, !length_app. done.
  - intros a k0 v0 n. rewrite (info_insert_value _ _ _ _ _ Hm).
    case_decide; [|apply (rep_nodes _ _ HR)].
    intros [= _ _ <-]. apply (rep_nodes _ _ HR (e_addr x) (e_key x) (e_val x)).
    by rewrite Hh.
Qed.

(** ** [Put] on a key that is absent *)

Lemma fwd_app_l h n a j : a < length h → fwd (h ++ [n]) a j = fwd h a j.
Proof. intros. unfold fwd. by rewrite lookup_app_l. Qed.

Lemma fwd_app_new h n j : fwd (h ++ [n]) (length h) j = Some (Node.forward n) ≫= (.!! j).
Proof. unfold fwd. by rewrite list_lookup_middle. Qed.

Lemma info_app_l h n a : a < length h → info (h ++ [n]) a = info h a.
Proof. intros. unfold info. by rewrite lookup_app_l. Qed.

Lemma info_app_new h n :
  info (h ++ [n]) (length h)
    = Some (Node.key n, Node.value n, length (Node.forward n)).
Proof. unfold info. by rewrite list_lookup_middle. Qed.

Lemma rep_addr_lt s L c :
  Rep s L → c ∈ 0 :: (e_addr <$> L) → c < length (SkipMap.heap s).
Proof.
  intros HR [->|(y & -> & Hy)%list_elem_of_fmap]%elem_of_cons.
  - destruct (rep_sentinel _ _ HR) as (k & v & Hi).
    apply info_index in Hi as (m & Hm & _). by eapply lookup_lt_Some.
  - pose proof (rep_hasEntry _ _ HR) as Hent. rewrite Forall_forall in Hent.
    destruct (hasEntry_index _ _ (Hent y Hy)) as (m & Hm & _).
    by eapply lookup_lt_Some.
Qed.

Lemma tower_addr i L c : c ∈ tower i L → c ∈ e_addr <$> L.
Proof. intros (x & ? & <- & _)%tower_elem. by apply list_elem_of_fmap_2. Qed.

Lemma rep_tower_NoDup s L i : Rep s L → NoDup (0 :: tower i L).
Proof.
  intros HR. eapply sublist_NoDup; [apply (rep_NoDup s L HR)|].
  apply sublist_skip, tower_sublist.
Qed.

Lemma frontier_mem i A : frontier i A ∈ 0 :: tower i A.
Proof.
  unfold frontier. destruct (lastOr_elem 0 (tower i A)) as [->|?]; [by left|by right].
Qed.

Lemma frontier_lt s L A B i :
  Rep s L → L = A ++ B → frontier i A < length (SkipMap.heap s).
Proof.
  intros HR HL. apply (rep_addr_lt s L); [done|].
  pose proof (frontier_mem i A) as [->|Hin]%elem_of_cons; [by left|right].
  apply tower_addr in Hin. rewrite HL, fmap_app. apply elem_of_app. by left.
Qed.

Lemma frontier_fwd s L A B i :
  Rep s L → L = A ++ B → i < DefaultMaxLevel →
  fwd (SkipMap.heap s) (frontier i A) i = Some (hdp (tower i B) None).
Proof.
  intros HR HL Hi. pose proof (rep_links _ _ HR i Hi) as Hseg.
  rewrite HL, tower_app in Hseg. apply seg_app in Hseg as [Hseg _].
  by apply seg_last in Hseg.
Qed.

Lemma sorted_insert k A x B :
  e_key x = k → Forall (below k) A → Forall (above k) B →
  StronglySorted keyLt (A ++ B) → StronglySorted keyLt (A ++ x :: B).
Proof.
  intros Hx HA HB. rewrite !StronglySorted_app, !StronglySorted_cons.
  intros (Hcross & HSA & HSB). split; [|split; [done|split; [|done]]].
  - intros x1 x2 Hx1 [->|Hx2]%elem_of_cons.
    + rewrite Forall_forall in HA. unfold keyLt. rewrite Hx. by apply HA.
    + by apply Hcross.
  - eapply Forall_impl; [exact HB|]. intros y Hy. unfold keyLt, above in *.
    rewrite Hx. by apply (cmp_antisym _ Hcmp).
Qed.

Lemma PutWith_miss s L fuel k v coins A B :
  Rep s L → length L < fuel →
  L = A ++ B → Forall (below k) A → Forall (above k) B →
  ∃ s' rl, PutWith fuel k v coins s = Done s' ∧
    randomLevel s coins = Done rl ∧ rl < DefaultMaxLevel ∧
    Rep s' (A ++ Entry (length (SkipMap.heap s)) k v (S rl) :: B) ∧
    SkipMap.level s' = SkipMap.level s `max` rl ∧
    SkipMap.length s' = (SkipMap.length s + 1)%Z.
Proof.
  intros HR Hfuel HL HA HB. unfold PutWith.
  destruct (searchUpdate_from_header s L k A B fuel)
    as (upd & -> & Hupd & Hle & _); [done|done|done|by apply above_not_below|done|].
  cbn [bind]. rewrite (getForward_fwd _ _ _ _ (frontier_next s L A B HR HL)).
  cbn [bind]. pose proof (rep_hasEntry _ _ HR) as Hent.
  assert (match hdp (e_addr <$> B) None with
          | Some c => n <- index (SkipMap.heap s) c;;
                      Done (comparator (Node.key n) k =? 0)%Z
          | None => Done false
          end = Done false) as ->.
  { destruct B as [|y B]; simpl; [done|].
    rewrite HL in Hent. apply Forall_app in Hent as [_ Hent].
    apply Forall_cons in Hent as [Hey _]. apply Forall_cons in HB as [Hy _].
    apply hasEntry_index in Hey as (m & Hm & Hk & _).
    rewrite (index_Done _ _ _ Hm). simpl. rewrite Hk. unfold above in Hy.
    destruct (Z.eqb_spec (comparator (e_key y) k) 0); [lia|done]. }
  cbn [bind]. unfold randomLevel. rewrite (rep_maxLevel _ _ HR).
  destruct (randomLevelLoop_spec coins DefaultMaxLevel (S DefaultMaxLevel) 0 0)
    as (rl & Hrl & _ & Hrl32); [unfold DefaultMaxLevel; lia..|].
  rewrite Hrl. cbn [bind]. pose proof (rep_level _ _ HR) as Hlev.
  set (new := length (SkipMap.heap s)).
  assert (∃ upd2,
    (if decide (SkipMap.level s < rl) then
       update <- raiseFrontier (rl - SkipMap.level s) (SkipMap.header s)
                   (S (SkipMap.level s)) upd;;
       Done (update, rl)
     else Done (upd, SkipMap.level s)) = Done (upd2, SkipMap.level s `max` rl) ∧
    length upd2 = DefaultMaxLevel ∧
    ∀ j, j ≤ rl → upd2 !! j = Some (Some (frontier j A)))
    as (upd2 & -> & Hupd2 & Hfront).
  { case_decide as Hd.
    - destruct (raiseFrontier_spec (SkipMap.header s) (rl - SkipMap.level s)
                  (S (SkipMap.level s)) upd) as (upd2 & -> & Hl2 & Hin & Hout);
        [lia|].
      simpl. exists upd2. replace (SkipMap.level s `max` rl) with rl by lia.
      split; [done|]. split; [congruence|]. intros j Hj.
      destruct (decide (j ≤ SkipMap.level s)) as [Hjl|Hjl].
      + rewrite Hout by lia. by apply Hle.
      + rewrite Hin by lia. rewrite (rep_header _ _ HR).
        rewrite frontier_top; [done|].
        pose proof (rep_entries _ _ HR) as He. rewrite HL in He.
        apply Forall_app in He as [He _].
        eapply Forall_impl; [exact He|]. simpl. intros x (_ & _ & ?). lia.
    - exists upd. replace (SkipMap.level s `max` rl) with (SkipMap.level s) by lia.
      split; [done|]. split; [done|]. intros j Hj. apply Hle. lia. }
  cbn [bind]. set (nn := Node.mk k v (replicate (rl + 1) None)).
  assert (0 < new) as Hnew0.
  { apply (Nat.le_lt_trans _ (length L)); [lia|]. by apply rep_fuel. }
  destruct (splice_spec upd2 new (λ j, frontier j A) (S rl) ((SkipMap.heap s) ++ [nn]) 0)
    as (h' & -> & Hlen' & Hinfo' & Hfwd').
  { intros j Hj. pose proof (frontier_lt s L A B j HR HL) as Hlt.
    split; [apply Hfront; lia|]. split; [fold new; lia|]. split.
    - rewrite fwd_app_l by done.
      rewrite (frontier_fwd s L A B j HR HL) by lia. eauto.
    - unfold new. rewrite fwd_app_new. simpl.
      rewrite lookup_replicate_2 by lia. eauto. }
  cbn [bind]. eexists _, rl. split; [done|]. split; [done|]. split; [done|].
  split; [|done].
  assert (∀ c j, c < new → c ≠ frontier j A → fwd h' c j = fwd (SkipMap.heap s) c j) as Hframe.
  { intros c j Hc Hne. rewrite Hfwd'. case_decide.
    - rewrite decide_False by lia. rewrite decide_False by done.
      by apply fwd_app_l.
    - by apply fwd_app_l. }
  split; simpl.
  - apply (rep_header _ _ HR).
  - done.
  - destruct (rep_sentinel _ _ HR) as (k0 & v0 & H0).
    exists k0, v0. rewrite Hinfo', info_app_l by done. done.
  - done.
  - lia.
  - pose proof (rep_entries _ _ HR) as He. rewrite HL in He.
    assert (∀ y, y ∈ L →
              hasEntry (SkipMap.heap s) y ∧ e_addr y ≠ 0 ∧
              1 ≤ e_height y ≤ S (SkipMap.level s) →
              hasEntry h' y ∧ e_addr y ≠ 0 ∧
              1 ≤ e_height y ≤ S (SkipMap.level s `max` rl)) as Hold.
    { intros y Hy (Hy1 & Hy2 & Hy3). split; [|split; [done|lia]].
      unfold hasEntry. rewrite Hinfo', info_app_l; [done|].
      apply (rep_addr_lt s L); [done|]. right. by apply list_elem_of_fmap_2. }
    apply Forall_app in He as [HeA HeB].
    apply Forall_app. split; [|apply Forall_cons; split].
    + rewrite Forall_forall in HeA |- *. intros y Hy. apply Hold; [|by apply HeA].
      rewrite HL. apply elem_of_app. by left.
    + simpl. split; [|split; [fold new; lia|lia]].
      unfold hasEntry. simpl. rewrite Hinfo'. rewrite info_app_new. simpl.
      rewrite length_replicate. do 3 f_equal. lia.
    + rewrite Forall_forall in HeB |- *. intros y Hy. apply Hold; [|by apply HeB].
      rewrite HL. apply elem_of_app. by right.
  - pose proof (rep_sorted _ _ HR) as HS. rewrite HL in HS.
    by apply (sorted_insert k).
  - intros j Hj. pose proof (rep_links _ _ HR j Hj) as Hseg.
    pose proof (rep_tower_NoDup s L j HR) as Hnd.
    assert (∀ c, c ∈ 0 :: tower j L → c < new) as Hlt.
    { intros c Hc. apply (rep_addr_lt s L); [done|].
      apply elem_of_cons in Hc as [->|Hc]; [by left|right]. by eapply tower_addr. }
    rewrite HL, tower_app in Hseg, Hnd, Hlt. rewrite tower_app.
    destruct (decide (j < S rl)) as [Hin|Hout].
    + rewrite tower_cons_in by (simpl; lia). simpl. fold new.
      apply (seg_insert (SkipMap.heap s)); [done|done| | |].
      * fold (frontier j A). rewrite Hfwd'. rewrite decide_True by lia.
        rewrite decide_True by done. apply fwd_app_l.
        by apply (frontier_lt s L A B).
      * fold (frontier j A). rewrite Hfwd'. rewrite decide_True by lia.
        rewrite decide_False, decide_True; [done|done|].
        pose proof (frontier_lt s L A B j HR HL) as Hfl. fold new in Hfl. lia.
      * intros c Hc Hne. apply Hframe; [by apply Hlt|done].
    + rewrite tower_cons_out by (simpl; lia).
      eapply seg_frame; [|exact Hseg]. intros c Hc.
      rewrite Hfwd'. rewrite decide_False by lia. apply fwd_app_l. by apply Hlt.
  - destruct (decide (SkipMap.level s < rl)) as [Hd|Hd].
    + right. apply Exists_app. right. apply Exists_cons. left. simpl. lia.
    + replace (SkipMap.level s `max` rl) with (SkipMap.level s) by lia.
      destruct (rep_top _ _ HR) as [?|Hex']; [by left|right].
      rewrite HL in Hex'. rewrite Exists_app in Hex' |- *.
      destruct Hex' as [?|?]; [by left|right]. apply Exists_cons. by right.
  - rewrite (rep_length _ _ HR), HL, !length_app. simpl. lia.
  - intros a k0 v0 n. rewrite Hinfo'.
    destruct (decide (a < new)) as [Ha|Ha].
    + rewrite info_app_l by done. apply (rep_nodes _ _ HR).
    + destruct (decide (a = new)) as [->|Hne].
      * unfold new. rewrite info_app_new. simpl. rewrite length_replicate.
        intros [= _ _ <-]. lia.
      * unfold info. rewrite lookup_ge_None_2; [done|].
        rewrite length_app. simpl. fold new. lia.
Qed.

(** ** [Remove] *)

Lemma Rep_cache s L upd :
  Rep s L → length upd = DefaultMaxLevel →
  Rep (SkipMap.mk (SkipMap.heap s) (SkipMap.header s) (SkipMap.maxLevel s)
         (SkipMap.level s) (SkipMap.length s) upd) L.
Proof. intros [] Hupd. by split. Qed.

Lemma RemoveWith_miss s L fuel k A B :
  Rep s L → length L < fuel →
  L = A ++ B → Forall (below k) A → Forall (above k) B →
  ∃ upd, RemoveWith fuel k s =
      Done (SkipMap.mk (SkipMap.heap s) (SkipMap.header s) (SkipMap.maxLevel s)
              (SkipMap.level s) (SkipMap.length s) upd, false) ∧
    length upd = DefaultMaxLevel.
Proof.
  intros HR Hfuel HL HA HB. unfold RemoveWith.
  destruct (searchUpdate_from_header s L k A B fuel)
    as (upd & -> & Hupd & Hle & _); [done|done|done|by apply above_not_below|done|].
  cbn [bind]. rewrite (getForward_fwd _ _ _ _ (frontier_next s L A B HR HL)).
  cbn [bind]. pose proof (rep_hasEntry _ _ HR) as Hent.
  assert (match hdp (e_addr <$> B) None with
          | Some c => n <- index (SkipMap.heap s) c;;
                      Done (comparator (Node.key n) k =? 0)%Z
          | None => Done false
          end = Done false) as ->.
  { destruct B as [|y B]; simpl; [done|].
    rewrite HL in Hent. apply Forall_app in Hent as [_ Hent].
    apply Forall_cons in Hent as [Hey _]. apply Forall_cons in HB as [Hy _].
    apply hasEntry_index in Hey as (m & Hm & Hk & _).
    rewrite (index_Done _ _ _ Hm). simpl. rewrite Hk. unfold above in Hy.
    destruct (Z.eqb_spec (comparator (e_key y) k) 0); [lia|done]. }
  cbn [bind]. by exists upd.
Qed.

Lemma sorted_delete A x B :
  StronglySorted keyLt (A ++ x :: B) → StronglySorted keyLt (A ++ B).
Proof.
  rewrite !StronglySorted_app, !StronglySorted_cons.
  intros (Hcross & HA & _ & HB). split; [|done].
  intros x1 x2 Hx1 Hx2. apply Hcross; [done|by right].
Qed.

Lemma hdp_elem l b : hdp l None = Some b → b ∈ l.
Proof. destruct l; simpl; [done|]. intros [= ->]. by left. Qed.

Lemma hdp_nil l : hdp l None = None → l = [].
Proof. by destruct l. Qed.

Lemma RemoveWith_hit s L fuel k A x B :
  Rep s L → length L < fuel →
  L = A ++ x :: B → Forall (below k) A → e_key x = k → Forall (above k) B →
  ∃ s', RemoveWith fuel k s = Done (s', true) ∧
    Rep s' (A ++ B) ∧
    SkipMap.level s' ≤ SkipMap.level s ∧
    SkipMap.length s' = (SkipMap.length s - 1)%Z.
Proof.
  intros HR Hfuel HL HA Hx HB. unfold RemoveWith.
  destruct (searchUpdate_from_header s L k A (x :: B) fuel)
    as (upd & -> & Hupd & Hle & _); [done|done|done|by apply hit_not_below|done|].
  cbn [bind]. rewrite (getForward_fwd _ _ _ _ (frontier_next s L A (x :: B) HR HL)).
  cbn [bind hdp fmap list_fmap].
  pose proof (rep_entries _ _ HR) as Hent. rewrite HL in Hent.
  apply Forall_app in Hent as [HeA HeB]. apply Forall_cons in HeB as [Hex HeB].
  destruct Hex as (Hhx & Hx0 & Hxh).
  destruct (hasEntry_index _ _ Hhx) as (m & Hm & Hk & Hv & Hh).
  rewrite (index_Done _ _ _ Hm). cbn [bind].
  rewrite Hk, Hx, (cmp_refl _ Hcmp). cbn [bind Z.eqb].
  pose proof (rep_NoDup _ _ HR) as Hnd. rewrite HL in Hnd.
  apply NoDup_cons in Hnd as [_ Hnd]. rewrite fmap_app, fmap_cons in Hnd.
  apply NoDup_app in Hnd as (_ & HndA & HndB). apply NoDup_cons in HndB as [HxB _].
  assert (∀ j, frontier j A ≠ e_addr x) as Hfx.
  { intros j Heq. pose proof (frontier_mem j A) as [H0|Hin]%elem_of_cons.
    - congruence.
    - apply tower_addr in Hin. apply (HndA _ Hin). rewrite Heq. by left. }
  pose proof (rep_level _ _ HR) as Hlev.
  destruct (unlink_spec upd (e_addr x) (λ j, frontier j A) (e_height x)
              (S (SkipMap.level s)) (SkipMap.heap s) 0)
    as (h' & -> & Hlen' & Hinfo' & Hfwd').
  { lia. }
  { intros j Hj. split; [apply Hle; lia|]. split; [done|]. split.
    - rewrite (frontier_fwd s L A (x :: B) j HR HL) by lia.
      rewrite tower_cons_in by lia. done.
    - eapply info_fwd_lt; [exact Hhx|lia]. }
  { intros Hht. split; [apply Hle; lia|]. eexists. split.
    - apply (frontier_fwd s L A (x :: B) _ HR HL). lia.
    - rewrite tower_cons_out by lia. intros Hq%hdp_elem.
      apply HxB. by eapply tower_addr. }
  cbn [bind]. rewrite (rep_header _ _ HR).
  destruct (rep_sentinel _ _ HR) as (k0 & v0 & H0).
  destruct (shrink_spec h' (SkipMap.level s)) as (l' & -> & Hl' & Hnil & Htop).
  { intros j Hj. eapply info_fwd_lt; [by rewrite Hinfo'|lia]. }
  cbn [bind]. eexists. split; [done|]. cbn [SkipMap.level SkipMap.length].
  split; [|done].
  assert (∀ j, j < DefaultMaxLevel → seg h' j 0 (tower j (A ++ B)) None) as Hlinks.
  { intros j Hj. pose proof (rep_links _ _ HR j Hj) as Hseg.
    pose proof (rep_tower_NoDup s L j HR) as Hnd.
    rewrite HL, tower_app in Hseg, Hnd. rewrite tower_app.
    destruct (decide (j < e_height x)) as [Hin|Hout].
    - rewrite tower_cons_in in Hseg, Hnd by done.
      apply (seg_delete (SkipMap.heap s) h' j (e_addr x)); [done|done| |].
      + fold (frontier j A). rewrite Hfwd'. rewrite decide_True; [done|].
        split; [lia|done].
      + intros d _ Hd. rewrite Hfwd'. rewrite decide_False; [done|].
        intros [_ ?]. done.
    - rewrite tower_cons_out in Hseg by done.
      eapply seg_frame; [|exact Hseg]. intros d _. rewrite Hfwd'.
      rewrite decide_False; [done|]. intros [? _]. lia. }
  assert (Forall (λ y, e_height y ≤ S l') (A ++ B)) as Hhigh.
  { destruct (decide (l' = SkipMap.level s)) as [->|Hne].
    - apply Forall_app. split; (eapply Forall_impl; [eassumption|]); simpl;
        intros y (_ & _ & ?); lia.
    - apply tower_empty_inv, hdp_nil.
      pose proof (seg_head _ _ _ _ _ (Hlinks (S l') ltac:(lia))) as Hh'.
      rewrite Hnil in Hh' by lia. congruence. }
  split; simpl.
  - done.
  - apply (rep_maxLevel _ _ HR).
  - exists k0, v0. by rewrite Hinfo'.
  - done.
  - lia.
  - rewrite Forall_forall in Hhigh.
    assert (∀ y, y ∈ A ++ B →
              hasEntry (SkipMap.heap s) y ∧ e_addr y ≠ 0 ∧
              1 ≤ e_height y ≤ S (SkipMap.level s) →
              hasEntry h' y ∧ e_addr y ≠ 0 ∧ 1 ≤ e_height y ≤ S l') as Hold.
    { intros y Hy (Hy1 & Hy2 & Hy3). split; [|split; [done|]].
      - unfold hasEntry. by rewrite Hinfo'.
      - split; [lia|by apply Hhigh]. }
    rewrite Forall_forall. intros y Hy. apply Hold; [done|].
    rewrite Forall_forall in HeA, HeB.
    apply elem_of_app in Hy as [?|?]; [by apply HeA|by apply HeB].
  - pose proof (rep_sorted _ _ HR) as HS. rewrite HL in HS.
    by apply (sorted_delete A x).
  - done.
  - destruct Htop as [?|[b Hb]]; [by left|right].
    pose proof (seg_head _ _ _ _ _ (Hlinks l' ltac:(lia))) as Hh'.
    rewrite Hb in Hh'. injection Hh' as Hh'. symmetry in Hh'.
    apply hdp_elem, tower_elem in Hh' as (y & Hy & _ & Hyh).
    apply Exists_exists. exists y. split; [done|].
    rewrite Forall_forall in Hhigh. pose proof (Hhigh y Hy). lia.
  - rewrite (rep_length _ _ HR), HL, !length_app. simpl. lia.
  - intros a k1 v1 n. rewrite Hinfo'. apply (rep_nodes _ _ HR).
Qed.

(** ** The operations at their own fuel, on represented states *)

Lemma Get_spec s L k :
  Rep s L →
  Get k s = Done (match findKey k L with
                  | Some x => (e_val x, true)
                  | None => (zeroV, false)
                  end).
Proof. intros HR. apply GetWith_spec; [done|by apply rep_fuel]. Qed.

Lemma Range_spec s L first last :
  Rep s L →
  Range first last s = Done (e_val <$> filter (inRange first last) L).
Proof. intros HR. apply RangeWith_spec; [done|by apply rep_fuel]. Qed.

Lemma RangeFunc_spec {St} s L first last (f : K → V → St → bool * St) st :
  Rep s L →
  RangeFunc first last f st s
    = Done (visitList f (filter (inRange first last) L) st).
Proof. intros HR. apply RangeFuncWith_spec; [done|by apply rep_fuel]. Qed.

Lemma Max_spec s L :
  Rep s L →
  Max s = Done (match last L with
                | None => (zeroK, zeroV, false)
                | Some x => (e_key x, e_val x, true)
                end).
Proof. intros HR. apply MaxWith_spec; [done|by apply rep_fuel]. Qed.

Lemma findKey_hit k A x B :
  Forall (below k) A → e_key x = k → findKey k (A ++ x :: B) = Some x.
Proof.
  intros HA Hx. rewrite findKey_app_below by done. simpl.
  rewrite decide_True; [done|]. rewrite Hx. apply (cmp_refl _ Hcmp).
Qed.

Lemma findKey_miss k A B :
  Forall (below k) A → Forall (above k) B → findKey k (A ++ B) = None.
Proof.
  intros HA HB. rewrite findKey_app_below by done. by apply findKey_above.
Qed.

Lemma findKey_skip k' A x B :
  comparator (e_key x) k' ≠ 0%Z → findKey k' (A ++ x :: B) = findKey k' (A ++ B).
Proof.
  intros Hne. induction A as [|y A IH]; simpl.
  - by rewrite decide_False.
  - case_decide; [done|apply IH].
Qed.

(** What [Put] does to a represented state: afterwards the key is held by
    an entry [x] with the new value, between the entries below and above
    the key; either [x] is a new node, or it replaces the value of the
    entry that held the key, and nothing else changes. *)
Lemma Put_Rep s L k v coins :
  Rep s L →
  ∃ s' A x B,
    Put k v coins s = Done s' ∧ Rep s' (A ++ x :: B) ∧
    Forall (below k) A ∧ Forall (above k) B ∧ e_key x = k ∧ e_val x = v ∧
    ((L = A ++ B ∧ findKey k L = None ∧
      SkipMap.length s' = (SkipMap.length s + 1)%Z ∧
      SkipMap.level s ≤ SkipMap.level s') ∨
     (∃ x0, L = A ++ x0 :: B ∧ findKey k L = Some x0 ∧
      SkipMap.length s' = SkipMap.length s ∧
      SkipMap.level s' = SkipMap.level s ∧
      length (SkipMap.heap s') = length (SkipMap.heap s) ∧
      ∀ a j, fwd (SkipMap.heap s') a j = fwd (SkipMap.heap s) a j)).
Proof.
  intros HR. pose proof (rep_fuel _ _ HR) as Hfuel. unfold Put.
  destruct (around k L (rep_sorted _ _ HR)) as [A x B HL HA Hx HB Hf|A B HL HA HB Hf].
  - destruct (PutWith_hit s L (fuelOf s) k v coins A x B)
      as (s' & Hput & HR' & Hlev & Hlen & Hfwd & Hheap); [done..|].
    exists s', A, (Entry (e_addr x) (e_key x) v (e_height x)), B.
    split; [done|]. split; [done|]. split; [done|]. split; [done|].
    split; [done|]. split; [done|]. right. exists x. done.
  - destruct (PutWith_miss s L (fuelOf s) k v coins A B)
      as (s' & rl & Hput & _ & _ & HR' & Hlev & Hlen); [done..|].
    exists s', A, (Entry (length (SkipMap.heap s)) k v (S rl)), B.
    split; [done|]. split; [done|]. split; [done|]. split; [done|].
    split; [done|]. split; [done|]. left.
    split; [done|]. split; [done|]. split; [done|]. lia.
Qed.

Lemma Remove_Rep s L k :
  Rep s L →
  ∃ s' (b : bool),
    Remove k s = Done (s', b) ∧
    if b then
      ∃ A x B, L = A ++ x :: B ∧ Forall (below k) A ∧ Forall (above k) B ∧
        e_key x = k ∧ findKey k L = Some x ∧ Rep s' (A ++ B) ∧
        SkipMap.level s' ≤ SkipMap.level s ∧
        SkipMap.length s' = (SkipMap.length s - 1)%Z
    else
      findKey k L = None ∧ Rep s' L ∧
      ∃ upd, s' = SkipMap.mk (SkipMap.heap s) (SkipMap.header s)
                    (SkipMap.maxLevel s) (SkipMap.level s) (SkipMap.length s) upd.
Proof.
  intros HR. pose proof (rep_fuel _ _ HR) as Hfuel. unfold Remove.
  destruct (around k L (rep_sorted _ _ HR)) as [A x B HL HA Hx HB Hf|A B HL HA HB Hf].
  - destruct (RemoveWith_hit s L (fuelOf s) k A x B)
      as (s' & Hrem & HR' & Hlev & Hlen); [done..|].
    exists s', true. split; [done|]. by exists A, x, B.
  - destruct (RemoveWith_miss s L (fuelOf s) k A B)
      as (upd & Hrem & Hupd); [done..|].
    eexists _, false. split; [done|]. split; [done|]. split; [|by exists upd].
    by apply Rep_cache.
Qed.

Lemma step_Rep s L op : Rep s L → ∃ s' L', step s op = Done s' ∧ Rep s' L'.
Proof.
  intros HR. destruct op as [k v coins|k]; simpl.
  - destruct (Put_Rep s L k v coins HR) as (s' & A & x & B & -> & HR' & _).
    by exists s', (A ++ x :: B).
  - destruct (Remove_Rep s L k HR) as (s' & [] & -> & Hb); simpl.
    + destruct Hb as (A & x & B & _ & _ & _ & _ & _ & HR' & _). by exists s', (A ++ B).
    + destruct Hb as (_ & HR' & _). by exists s', L.
Qed.

Lemma run_Rep ops : ∀ s L, Rep s L → ∃ s' L', run ops s = Done s' ∧ Rep s' L'.
Proof.
  induction ops as [|op ops IH]; intros s L HR; simpl.
  - by exists s, L.
  - destruct (step_Rep s L op HR) as (s1 & L1 & -> & HR1). simpl. by eapply IH.
Qed.

Lemma Reachable_Rep s : Reachable s → ∃ L, Rep s L.
Proof.
  intros [ops Hrun]. destruct (run_Rep ops _ _ Rep_New) as (s' & L & Hrun' & HR).
  exists L. congruence.
Qed.

Lemma chain_seg h i M : ∀ fuel a,
  length M < fuel → Forall (hasEntry h) M →
  seg h i a (e_addr <$> M) None →
  chain fuel h i (hdp (e_addr <$> M) None) = Done (triple <$> M).
Proof.
  induction M as [|x M IH]; intros [|fuel] a Hfuel Hent Hseg;
    try (simpl in Hfuel; lia); [done|].
  rewrite !fmap_cons in *. cbn [chain hdp seg length] in *.
  destruct Hseg as [_ Hseg]. apply Forall_cons in Hent as [Hx Hent].
  apply hasEntry_index in Hx as (m & Hm & Hk & Hv & _).
  rewrite (index_Done _ _ _ Hm). cbn [bind].
  rewrite (fwd_index _ _ _ _ _ (seg_head _ _ _ _ _ Hseg) Hm). cbn [bind].
  rewrite (IH fuel (e_addr x)); [|lia|done|done]. cbn [bind].
  unfold triple. by rewrite Hk, Hv.
Qed.

Lemma levelEntries_spec s L i :
  Rep s L → i < DefaultMaxLevel →
  levelEntries i s = Done (triple <$> filter (λ x, i < e_height x) L).
Proof.
  intros HR Hi. unfold levelEntries. rewrite (rep_header _ _ HR).
  pose proof (rep_links _ _ HR i Hi) as Hseg. unfold tower in Hseg.
  rewrite (getForward_fwd _ _ _ _ (seg_head _ _ _ _ _ Hseg)). simpl.
  apply (chain_seg _ _ _ _ 0); [|by apply Forall_filter_in, rep_hasEntry|done].
  pose proof (length_filter (λ x, i < e_height x) L).
  pose proof (rep_fuel _ _ HR). lia.
Qed.

Lemma filter_all_heights s L :
  Rep s L → filter (λ x, 0 < e_height x) L = L.
Proof.
  intros HR. pose proof (rep_entries _ _ HR) as Hent. clear HR.
  induction Hent as [|x L' (_ & _ & ?) _ IH]; [done|].
  rewrite filter_cons, decide_True by lia. by rewrite IH.
Qed.

(** ** Sorted entries as a finite map *)

Lemma sorted_filter {A} (R : relation A) (P : A → Prop) `{∀ x, Decision (P x)} l :
  StronglySorted R l → StronglySorted R (filter P l).
Proof.
  induction 1 as [|x l HS IH Hx]; [constructor|].
  rewrite filter_cons. case_decide; [|done].
  constructor; [done|]. by apply Forall_filter_in.
Qed.

Lemma sorted_keys_NoDup L : StronglySorted keyLt L → NoDup (e_key <$> L).
Proof.
  induction 1 as [|x L HS IH Hx]; simpl; [constructor|].
  apply NoDup_cons. split; [|done].
  intros (y & Hxy & Hy)%list_elem_of_fmap. rewrite Forall_forall in Hx.
  by apply (keyLt_irrefl x y (Hx y Hy)).
Qed.

Lemma findKey_iff k L x :
  StronglySorted keyLt L → findKey k L = Some x ↔ x ∈ L ∧ e_key x = k.
Proof.
  intros HS. split.
  - intros [Hin Hk]%findKey_Some. split; [done|]. by apply (cmp_total _ Hcmp).
  - intros [Hin Hk]. apply list_elem_of_split in Hin as (L1 & L2 & ->).
    apply findKey_hit; [|done].
    apply StronglySorted_app in HS as (Hcross & _ & _).
    rewrite Forall_forall. intros y Hy. unfold below. rewrite <- Hk.
    apply (Hcross y x); [done|by left].
Qed.

Lemma Get_found s L k v :
  Rep s L →
  Get k s = Done (v, true) ↔ ∃ x, x ∈ L ∧ e_key x = k ∧ e_val x = v.
Proof.
  intros HR. rewrite (Get_spec s L k HR). split.
  - destruct (findKey k L) as [x|] eqn:Hf; [|done]. intros [= <-].
    apply findKey_iff in Hf as [? ?]; [|apply (rep_sorted _ _ HR)]. by exists x.
  - intros (x & Hin & Hk & Hv).
    assert (findKey k L = Some x) as ->; [|by rewrite Hv].
    apply findKey_iff; [apply (rep_sorted _ _ HR)|done].
Qed.

Lemma visitList_pairs {St} (f : K → V → St → bool * St) l st :
  visitList f l st = visitPairs f (pairOf <$> l) st.
Proof.
  revert st. induction l as [|x l IH]; intros st; simpl; [done|].
  destruct (f (e_key x) (e_val x) st) as [[] st']; [apply IH|done].
Qed.

Lemma visitPairs_recording p l calls :
  visitPairs (recording p) l calls = calls ++ callsUntil p l.
Proof.
  revert calls. induction l as [|[k v] l IH]; intros calls; simpl.
  - by rewrite app_nil_r.
  - destruct (p k v); [|done]. rewrite IH. by rewrite <- app_assoc.
Qed.

Lemma callsUntil_all l : callsUntil (λ _ _, true) l = l.
Proof. induction l as [|[k v] l IH]; simpl; [done|]. by rewrite IH. Qed.

Lemma inRange_iff first last x :
  inRange first last x ↔
  (comparator first (e_key x) ≤ 0)%Z ∧ (comparator (e_key x) last ≤ 0)%Z.
Proof.
  unfold inRange. pose proof (cmp_antisym _ Hcmp (e_key x) first). lia.
Qed.

Lemma inRange_backwards first last L :
  (0 < comparator first last)%Z → filter (inRange first last) L = [].
Proof.
  intros Hgt. apply (cmp_antisym _ Hcmp) in Hgt.
  induction L as [|x L IH]; [done|].
  rewrite filter_cons, decide_False; [done|]. intros [Hlo Hhi].
  destruct (decide (comparator (e_key x) last = 0%Z)) as [Heq|Hne].
  - apply (cmp_total _ Hcmp) in Heq. rewrite Heq in Hlo. lia.
  - pose proof (cmp_trans _ Hcmp (e_key x) last first). lia.
Qed.

(** The pairs [Range] and [RangeFunc] traverse. *)
Lemma range_pairs s first last :
  Reachable s →
  ∃ kvs : list (K * V),
    Range first last s = Done (kvs.*2) ∧
    (∀ St (f : K → V → St → bool * St) st,
       RangeFunc first last f st s = Done (visitPairs f kvs st)) ∧
    StronglySorted pairLt kvs ∧
    (∀ k v, (k, v) ∈ kvs ↔
       Get k s = Done (v, true) ∧
       (comparator first k ≤ 0)%Z ∧ (comparator k last ≤ 0)%Z) ∧
    ((0 < comparator first last)%Z → kvs = []).
Proof.
  intros [L HR]%Reachable_Rep.
  exists (pairOf <$> filter (inRange first last) L).
  split; [|split; [|split; [|split]]].
  - rewrite (Range_spec s L first last HR). f_equal.
    rewrite <- list_fmap_compose. done.
  - intros St f st. rewrite (RangeFunc_spec s L first last f st HR).
    by rewrite visitList_pairs.
  - apply (StronglySorted_fmap _ keyLt); [done|].
    apply sorted_filter, (rep_sorted _ _ HR).
  - intros k v. rewrite (Get_found s L k v HR). split.
    + intros (x & [= -> ->] & [Hr Hin]%list_elem_of_filter)%list_elem_of_fmap.
      apply inRange_iff in Hr. split; [by exists x|done].
    + intros ((x & Hin & <- & <-) & Hr). apply list_elem_of_fmap.
      exists x. split; [done|]. apply list_elem_of_filter.
      split; [by apply inRange_iff|done].
  - intros Hgt. by rewrite inRange_backwards.
Qed.

(** ** The scratch buffer carries nothing from one call to the next

    [Put] and [Remove] overwrite every slot of the buffer they later read,
    so two states that differ only in the buffer's contents stay that way
    under any history, and are never told apart. *)

Lemma sameButCache_observations s s' : sameButCache s s' → sameObservations s s'.
Proof.
  destruct s, s'. unfold sameButCache. simpl.
  intros (-> & -> & -> & -> & -> & _). done.
Qed.

Lemma searchUpdate_above fuel h k : ∀ i c u c1 u1,
  searchUpdate fuel h k i c u = Done (c1, u1) →
  length u1 = length u ∧ ∀ j, i < j → u1 !! j = u !! j.
Proof.
  induction i as [|i IH]; intros c u c1 u1; simpl;
    destruct (advance fuel h k _ c) as [c'| |]; simpl; try discriminate;
    unfold store; case_decide; simpl; try discriminate.
  - intros [= <- <-]. split; [apply length_insert|].
    intros j Hj. apply list_lookup_insert_ne. lia.
  - intros [Hlen Hout]%IH. rewrite length_insert in Hlen. split; [done|].
    intros j Hj. rewrite Hout by lia. apply list_lookup_insert_ne. lia.
Qed.

Lemma searchUpdate_cache fuel h k : ∀ i c u u' c1 u1,
  length u' = length u →
  searchUpdate fuel h k i c u = Done (c1, u1) →
  ∃ u1', searchUpdate fuel h k i c u' = Done (c1, u1') ∧
         length u1' = length u1 ∧ ∀ j, j ≤ i → u1' !! j = u1 !! j.
Proof.
  induction i as [|i IH]; intros c u u' c1 u1 Hlen; simpl;
    destruct (advance fuel h k _ c) as [c'| |]; simpl; try discriminate;
    unfold store; rewrite Hlen; case_decide; simpl; try discriminate.
  - intros [= <- <-]. eexists. split; [reflexivity|]. rewrite !length_insert.
    split; [done|]. intros j Hj. assert (j = 0) as -> by lia.
    rewrite !list_lookup_insert_eq by lia. done.
  - intros Hs.
    assert (length (<[S i := Some c']> u') = length (<[S i := Some c']> u))
      as Hl2 by (by rewrite !length_insert).
    destruct (IH c' _ _ _ _ Hl2 Hs) as (u1' & Hs' & Hl & Hag).
    exists u1'. split; [exact Hs'|]. split; [exact Hl|]. intros j Hj.
    destruct (decide (j = S i)) as [->|Hne]; [|apply Hag; lia].
    destruct (searchUpdate_above _ _ _ _ _ _ _ _ Hs) as [_ ->]; [|lia].
    destruct (searchUpdate_above _ _ _ _ _ _ _ _ Hs') as [_ ->]; [|lia].
    rewrite !list_lookup_insert_eq by lia. done.
Qed.

Lemma raiseFrontier_cache hd : ∀ n i u u' v,
  length u' = length u → (∀ j, j < i → u' !! j = u !! j) →
  raiseFrontier n hd i u = Done v →
  ∃ v', raiseFrontier n hd i u' = Done v' ∧
        length v' = length v ∧ ∀ j, j < i + n → v' !! j = v !! j.
Proof.
  induction n as [|n IH]; intros i u u' v Hlen Hag; simpl.
  - intros [= <-]. exists u'. split; [reflexivity|]. split; [exact Hlen|].
    intros j Hj. apply Hag. lia.
  - unfold store. rewrite Hlen. case_decide; simpl; [|discriminate]. intros Hr.
    assert (length (<[i := Some hd]> u') = length (<[i := Some hd]> u))
      as Hl2 by (by rewrite !length_insert).
    assert (∀ j, j < S i → <[i := Some hd]> u' !! j = <[i := Some hd]> u !! j)
      as Hag2.
    { intros j Hj. destruct (decide (j = i)) as [->|Hne].
      - rewrite !list_lookup_insert_eq by lia. done.
      - rewrite !list_lookup_insert_ne by lia. apply Hag. lia. }
    destruct (IH (S i) _ _ _ Hl2 Hag2 Hr) as (v' & Hr' & Hl & Hag').
    exists v'. split; [exact Hr'|]. split; [exact Hl|].
    intros j Hj. apply Hag'. lia.
Qed.

Lemma splice_cache new : ∀ n h u u' i,
  (∀ j, i ≤ j < i + n → u' !! j = u !! j) →
  splice n h u' new i = splice n h u new i.
Proof.
  induction n as [|n IH]; intros h u u' i Hag; simpl; [done|].
  assert (index u' i = index u i) as ->
    by (unfold index; by rewrite Hag by lia).
  destruct (index u i) as [[ua|]| |]; simpl; try reflexivity.
  destruct (index h ua) as [un| |]; simpl; try reflexivity.
  destruct (index (Node.forward un) i) as [nx| |]; simpl; try reflexivity.
  destruct (setForward h new i nx) as [h1| |]; simpl; try reflexivity.
  destruct (setForward h1 ua i (Some new)) as [h2| |]; simpl; try reflexivity.
  apply IH. intros j Hj. apply Hag. lia.
Qed.

Lemma unlink_cache c : ∀ n h u u' i,
  (∀ j, i ≤ j < i + n → u' !! j = u !! j) →
  unlink n h u' c i = unlink n h u c i.
Proof.
  induction n as [|n IH]; intros h u u' i Hag; simpl; [done|].
  assert (index u' i = index u i) as ->
    by (unfold index; by rewrite Hag by lia).
  destruct (index u i) as [[ua|]| |]; simpl; try reflexivity.
  destruct (index h ua) as [un| |]; simpl; try reflexivity.
  destruct (index (Node.forward un) i) as [nx| |]; simpl; try reflexivity.
  case_decide; [|reflexivity].
  destruct (index h c) as [cn| |]; simpl; try reflexivity.
  destruct (index (Node.forward cn) i) as [cf| |]; simpl; try reflexivity.
  destruct (setForward h ua i cf) as [h1| |]; simpl; try reflexivity.
  apply IH. intros j Hj. apply Hag. lia.
Qed.

Ltac run_bind :=
  cbn [bind SkipMap.heap SkipMap.header SkipMap.maxLevel SkipMap.level
       SkipMap.length SkipMap.updateCache].

Lemma Put_cache s s' k v coins t :
  sameButCache s s' → Put k v coins s = Done t →
  ∃ t', Put k v coins s' = Done t' ∧ sameButCache t t'.
Proof.
  destruct s as [h hd ml lv len u], s' as [h' hd' ml' lv' len' u'].
  unfold sameButCache. run_bind. intros (-> & -> & -> & -> & -> & Hlen).
  unfold Put, fuelOf, PutWith. run_bind.
  destruct (searchUpdate (length h) h k lv hd u) as [[c1 u1]| |] eqn:Hs;
    run_bind; try discriminate.
  destruct (searchUpdate_cache _ _ _ _ _ _ u' _ _ Hlen Hs) as (u1' & -> & Hl1 & Hag1).
  run_bind. destruct (getForward h c1 0) as [cur| |]; run_bind; try discriminate.
  destruct (match cur with
            | Some c => n <- index h c;; Done (comparator (Node.key n) k =? 0)%Z
            | None => Done false
            end) as [[]| |]; run_bind; try discriminate.
  - destruct (match cur with Some c => setValue h c v | None => Panic end)
      as [h1| |]; run_bind; try discriminate.
    intros [= <-]. eexists. split; [reflexivity|]. run_bind. by repeat split.
  - unfold randomLevel. run_bind.
    destruct (randomLevelLoop (S ml) coins ml 0 0) as [rl| |]; run_bind;
      try discriminate.
    case_decide as Hd.
    + destruct (raiseFrontier (rl - lv) hd (S lv) u1) as [v1| |] eqn:Hr;
        run_bind; try discriminate.
      assert (∀ j, j < S lv → u1' !! j = u1 !! j) as Hag1'
        by (intros j Hj; apply Hag1; lia).
      destruct (raiseFrontier_cache hd _ _ _ u1' _ Hl1 Hag1' Hr)
        as (v1' & -> & Hl2 & Hag2).
      run_bind. rewrite (splice_cache _ (S rl) _ v1 v1' 0)
        by (intros j Hj; apply Hag2; lia).
      destruct (splice (S rl) _ v1 _ 0) as [h1| |]; run_bind; try discriminate.
      intros [= <-]. eexists. split; [reflexivity|]. run_bind. by repeat split.
    + run_bind. rewrite (splice_cache _ (S rl) _ u1 u1' 0)
        by (intros j Hj; apply Hag1; lia).
      destruct (splice (S rl) _ u1 _ 0) as [h1| |]; run_bind; try discriminate.
      intros [= <-]. eexists. split; [reflexivity|]. run_bind. by repeat split.
Qed.

Lemma Remove_cache s s' k t b :
  sameButCache s s' → Remove k s = Done (t, b) →
  ∃ t', Remove k s' = Done (t', b) ∧ sameButCache t t'.
Proof.
  destruct s as [h hd ml lv len u], s' as [h' hd' ml' lv' len' u'].
  unfold sameButCache. run_bind. intros (-> & -> & -> & -> & -> & Hlen).
  unfold Remove, fuelOf, RemoveWith. run_bind.
  destruct (searchUpdate (length h) h k lv hd u) as [[c1 u1]| |] eqn:Hs;
    run_bind; try discriminate.
  destruct (searchUpdate_cache _ _ _ _ _ _ u' _ _ Hlen Hs) as (u1' & -> & Hl1 & Hag1).
  run_bind. destruct (getForward h c1 0) as [cur| |]; run_bind; try discriminate.
  destruct (match cur with
            | Some c => n <- index h c;; Done (comparator (Node.key n) k =? 0)%Z
            | None => Done false
            end) as [[]| |]; run_bind; try discriminate.
  - destruct cur as [c|]; [|discriminate].
    rewrite (unlink_cache _ (S lv) _ u1 u1' 0)
      by (intros j Hj; apply Hag1; lia).
    destruct (unlink (S lv) h u1 c 0) as [h1| |]; run_bind; try discriminate.
    destruct (shrink h1 hd lv) as [l1| |]; run_bind; try discriminate.
    intros [= <- <-]. eexists. split; [reflexivity|]. run_bind. by repeat split.
  - intros [= <- <-]. eexists. split; [reflexivity|]. run_bind. by repeat split.
Qed.

Lemma run_cache ops : ∀ s s' t,
  sameButCache s s' → run ops s = Done t →
  ∃ t', run ops s' = Done t' ∧ sameButCache t t'.
Proof.
  induction ops as [|op ops IH]; intros s s' t Hsame; simpl.
  - intros [= <-]. by exists s'.
  - destruct (step s op) as [s1| |] eqn:Hstep; simpl; try discriminate.
    intros Hrun.
    assert (∃ s1', step s' op = Done s1' ∧ sameButCache s1 s1')
      as (s1' & -> & Hsame1).
    { destruct op as [k v coins|k]; simpl in *.
      - by apply (Put_cache s).
      - destruct (Remove k s) as [[t1 b]| |] eqn:Hrem; simpl in *;
          try discriminate.
        injection Hstep as <-.
        destruct (Remove_cache s s' k t1 b Hsame Hrem) as (t1' & -> & ?).
        by exists t1'. }
    simpl. by apply (IH s1).
Qed.

(** ** More fuel changes nothing

    The operations take the size of the store as fuel.  On a reachable
    state any larger amount gives the same result. *)

Lemma advance_mono h k i : ∀ fuel fuel' c r,
  fuel ≤ fuel' → advance fuel h k i c = Done r → advance fuel' h k i c = Done r.
Proof.
  induction fuel as [|fuel IH]; intros [|fuel'] c r Hle; simpl;
    try discriminate; try lia.
  destruct (getForward h c i) as [[nx|]| |]; simpl; try discriminate; [|done].
  destruct (index h nx) as [n| |]; simpl; try discriminate.
  destruct (comparator (Node.key n) k <? 0)%Z; [|done]. apply IH. lia.
Qed.

Lemma searchUpdate_mono h k fuel fuel' : ∀ i c u r,
  fuel ≤ fuel' →
  searchUpdate fuel h k i c u = Done r → searchUpdate fuel' h k i c u = Done r.
Proof.
  induction i as [|i IH]; intros c u r Hle; simpl;
    destruct (advance fuel h k _ c) as [c'| |] eqn:Ha; simpl; try discriminate;
    rewrite (advance_mono _ _ _ _ _ _ _ Hle Ha); simpl;
    destruct (store u _ (Some c')) as [u'| |]; simpl; try discriminate.
  - done.
  - by apply IH.
Qed.

Lemma fuel_enough s fuel :
  Reachable s → fuelOf s ≤ fuel →
  (∀ k v coins, PutWith fuel k v coins s = Put k v coins s) ∧
  (∀ k, GetWith fuel k s = Get k s) ∧
  (∀ k, RemoveWith fuel k s = Remove k s) ∧
  (∀ first last, RangeWith fuel first last s = Range first last s) ∧
  (∀ St first last (f : K → V → St → bool * St) st,
     RangeFuncWith fuel first last f st s = RangeFunc first last f st s) ∧
  MaxWith fuel s = Max s.
Proof.
  intros [L HR]%Reachable_Rep Hfuel. pose proof (rep_fuel _ _ HR) as Hlt.
  assert (∀ k, searchUpdate fuel (SkipMap.heap s) k (SkipMap.level s)
                 (SkipMap.header s) (SkipMap.updateCache s)
               = searchUpdate (fuelOf s) (SkipMap.heap s) k (SkipMap.level s)
                   (SkipMap.header s) (SkipMap.updateCache s)) as Hsearch.
  { intros k. destruct (split_at_key k L (rep_sorted _ _ HR)) as (A & B & HL & HA & HB).
    destruct (searchUpdate_from_header s L k A B (fuelOf s) HR HL HA HB Hlt)
      as (upd & Hs & _).
    rewrite Hs. by apply (searchUpdate_mono _ _ (fuelOf s)). }
  split; [|split; [|split; [|split; [|split]]]].
  - intros k v coins. unfold Put, PutWith. by rewrite Hsearch.
  - intros k. unfold Get.
    rewrite !(GetWith_spec s L) by (done || lia). done.
  - intros k. unfold Remove, RemoveWith. by rewrite Hsearch.
  - intros first last. unfold Range.
    rewrite !(RangeWith_spec s L) by (done || lia). done.
  - intros St first last f st. unfold RangeFunc.
    rewrite !(RangeFuncWith_spec s L) by (done || lia). done.
  - unfold Max. rewrite !(MaxWith_spec s L) by (done || lia). done.
Qed.

(** ** The skip list as a finite map *)

Lemma cmp_sym_ne a b : comparator a b ≠ 0%Z → comparator b a ≠ 0%Z.
Proof.
  intros Hne Heq. apply (cmp_total _ Hcmp) in Heq. subst b.
  by rewrite (cmp_refl _ Hcmp) in Hne.
Qed.

Lemma step_contents s L m op :
  Rep s L → (∀ k, e_val <$> findKey k L = m k) →
  ∃ s' L', step s op = Done s' ∧ Rep s' L' ∧
           ∀ k, e_val <$> findKey k L' = applyOp m op k.
Proof.
  intros HR Hm. destruct op as [k' v coins|k']; simpl.
  - destruct (Put_Rep s L k' v coins HR)
      as (s' & A & x & B & -> & HR' & HA & HB & Hx & Hv & Hcase).
    exists s', (A ++ x :: B). split; [done|]. split; [done|]. intros k.
    destruct (Z.eqb_spec (comparator k' k) 0) as [Heq|Hne].
    + apply (cmp_total _ Hcmp) in Heq. subst k.
      rewrite findKey_hit by done. simpl. by rewrite Hv.
    + rewrite findKey_skip by (by rewrite Hx). rewrite <- Hm.
      destruct Hcase as [(-> & _)|(x0 & -> & Hf0 & _)]; [done|].
      rewrite findKey_skip; [done|].
      apply findKey_Some in Hf0 as [_ Hk0].
      apply (cmp_total _ Hcmp) in Hk0. by rewrite Hk0.
  - destruct (Remove_Rep s L k' HR) as (s' & [] & -> & Hb); simpl.
    + destruct Hb as (A & x & B & HL & HA & HB & Hx & _ & HR' & _).
      exists s', (A ++ B). split; [done|]. split; [done|]. intros k.
      destruct (Z.eqb_spec (comparator k' k) 0) as [Heq|Hne].
      * apply (cmp_total _ Hcmp) in Heq. subst k.
        by rewrite findKey_miss.
      * rewrite <- Hm, HL. rewrite findKey_skip; [done|]. by rewrite Hx.
    + destruct Hb as (Hf & HR' & _). exists s', L.
      split; [done|]. split; [done|]. intros k.
      destruct (Z.eqb_spec (comparator k' k) 0) as [Heq|Hne]; [|apply Hm].
      apply (cmp_total _ Hcmp) in Heq. subst k. by rewrite Hf.
Qed.

Lemma run_contents ops : ∀ s L m,
  Rep s L → (∀ k, e_val <$> findKey k L = m k) →
  ∃ s' L', run ops s = Done s' ∧ Rep s' L' ∧
           ∀ k, e_val <$> findKey k L' = fold_left applyOp ops m k.
Proof.
  induction ops as [|op ops IH]; intros s L m HR Hm; simpl.
  - by exists s, L.
  - destruct (step_contents s L m op HR Hm) as (s1 & L1 & -> & HR1 & Hm1).
    simpl. by apply (IH s1 L1).
Qed.

(** X1. [Get] after any history returns what the history last put under
    the key, and not-found if the key was removed since or never put. *)
Theorem get_follows_history (ops : list Op) :
  ∃ s, run ops NewWithComparator = Done s ∧
       ∀ k, Get k s = Done (match contents ops k with
                            | Some v => (v, true)
                            | None => (zeroV, false)
                            end).
Proof.
  destruct (run_contents ops NewWithComparator [] (λ _, None) Rep_New)
    as (s & L & Hrun & HR & Hm); [done|].
  exists s. split; [done|]. intros k. rewrite (Get_spec s L k HR).
  unfold contents. rewrite <- Hm. by destruct (findKey k L).
Qed.

Lemma run_distinctPuts ops : ∀ s L,
  Rep s L → distinctPuts ops →
  Forall (λ k, findKey k L = None) (putKeys ops) →
  ∃ s' L', run ops s = Done s' ∧ Rep s' L' ∧
           Len s' = (Len s + Z.of_nat (length ops))%Z ∧
           ∀ k, is_Some (findKey k L) ∨ k ∈ putKeys ops →
                is_Some (findKey k L').
Proof.
  induction ops as [|[k v coins|k] ops IH]; intros s L HR Hd Hfresh; simpl in *.
  - exists s, L. split; [done|]. split; [done|]. split; [lia|].
    intros k [?|Hk]; [done|]. by apply elem_of_nil in Hk.
  - destruct Hd as [Hk Hd]. apply Forall_cons in Hfresh as [Hnone Hfresh].
    destruct (Put_Rep s L k v coins HR)
      as (s1 & A & x & B & -> & HR1 & HA & HB & Hx & Hv & Hcase).
    destruct Hcase as [(HL & _ & Hlen & _)|(x0 & _ & Hsome & _)]; [|congruence].
    simpl.
    destruct (IH s1 (A ++ x :: B) HR1 Hd) as (s' & L' & -> & HR' & Hlen' & Hin).
    { rewrite Forall_forall in Hk, Hfresh |- *. intros k' Hk'.
      rewrite findKey_skip by (rewrite Hx; by apply Hk).
      rewrite <- HL. by apply Hfresh. }
    exists s', L'. split; [done|]. split; [done|]. split.
    + rewrite Hlen'. unfold Len. rewrite Hlen. lia.
    + intros k' Hk'. apply Hin.
      destruct (decide (comparator k k' = 0%Z)) as [Heq|Hne].
      * apply (cmp_total _ Hcmp) in Heq. subst k'. left.
        rewrite findKey_hit by done. eauto.
      * destruct Hk' as [Hs|[->|Hk']%elem_of_cons].
        -- left. rewrite findKey_skip by (by rewrite Hx). by rewrite <- HL.
        -- by rewrite (cmp_refl _ Hcmp) in Hne.
        -- by right.
  - done.
Qed.

(** X2. Any number of [Put]s on pairwise different keys, in whatever
    order they reach the map, leave [Len] equal to their number, and every
    one of the keys is found. *)
Theorem distinct_puts_all_found (ops : list Op) :
  distinctPuts ops →
  ∃ s, run ops NewWithComparator = Done s ∧
       Len s = Z.of_nat (length ops) ∧
       ∀ k, k ∈ putKeys ops → ∃ v, Get k s = Done (v, true).
Proof.
  intros Hd.
  destruct (run_distinctPuts ops NewWithComparator [] Rep_New Hd)
    as (s & L & Hrun & HR & Hlen & Hin).
  { by apply Forall_forall. }
  exists s. split; [done|]. split; [by rewrite Hlen|].
  intros k Hk. rewrite (Get_spec s L k HR).
  destruct (Hin k (or_intror Hk)) as [x ->]. by exists (e_val x).
Qed.

(** ** [Put] on a key that is present, seen from outside *)

Lemma revalue_other k v (Q : entry → Prop) `{∀ x, Decision (Q x)}
    (M : list entry) :
  Forall (λ x, comparator (e_key x) k ≠ 0%Z) M →
  revalue k v <$> (triple <$> filter Q M) = triple <$> filter Q M.
Proof.
  intros HM. rewrite <- (list_fmap_id (triple <$> filter Q M)) at 2.
  apply Forall_fmap_ext_1.
  apply (Forall_fmap triple
           (λ t, revalue k v t = id t) (filter Q M)).
  apply Forall_filter_in. eapply Forall_impl; [exact HM|].
  intros x Hx. unfold revalue, keyOf, triple, compose. simpl.
  by destruct (Z.eqb_spec (comparator (e_key x) k) 0).
Qed.

Lemma Get_absent s L k : Rep s L → Get k s = Done (zeroV, false) → findKey k L = None.
Proof.
  intros HR. rewrite (Get_spec s L k HR). by destruct (findKey k L).
Qed.

Lemma Get_present s L k v :
  Rep s L → Get k s = Done (v, true) → ∃ x, findKey k L = Some x ∧ e_val x = v.
Proof.
  intros HR. rewrite (Get_spec s L k HR).
  destruct (findKey k L) as [x|]; [|done]. intros [= <-]. by exists x.
Qed.

Lemma split_absent k L :
  StronglySorted keyLt L → findKey k L = None →
  ∃ A B, L = A ++ B ∧ Forall (below k) A ∧ Forall (above k) B.
Proof.
  intros HS Hf. destruct (around k L HS) as [A x B _ _ _ _ Hhit|A B HL HA HB _].
  - congruence.
  - by exists A, B.
Qed.

Lemma split_present k L x :
  StronglySorted keyLt L → findKey k L = Some x →
  ∃ A B, L = A ++ x :: B ∧ Forall (below k) A ∧ e_key x = k ∧ Forall (above k) B.
Proof.
  intros HS Hf. destruct (around k L HS) as [A y B HL HA Hy HB Hhit|A B _ _ _ Hmiss].
  - assert (y = x) as -> by congruence. by exists A, B.
  - congruence.
Qed.

Lemma Put_hit s L k v coins x :
  Rep s L → findKey k L = Some x →
  ∃ s' L', Put k v coins s = Done s' ∧ Rep s' L' ∧
    findKey k L' = Some (Entry (e_addr x) k v (e_height x)) ∧
    overwritten k v s s'.
Proof.
  intros HR Hf.
  destruct (split_present k L x (rep_sorted _ _ HR) Hf)
    as (A & B & HL & HA & Hx & HB).
  destruct (PutWith_hit s L (fuelOf s) k v coins A x B HR (rep_fuel s L HR)
              HL HA Hx HB)
    as (s' & Hput & HR' & Hlev & Hlen & Hfwd & Hheap).
  rewrite Hx in HR'. set (y := Entry (e_addr x) k v (e_height x)) in *.
  exists s', (A ++ y :: B). split; [exact Hput|]. split; [exact HR'|].
  split; [by apply findKey_hit|].
  assert (∀ M, Forall (below k) M → Forall (λ z, comparator (e_key z) k ≠ 0%Z) M)
    as Hbelow.
  { intros M HM. eapply Forall_impl; [exact HM|]. unfold below. intros z ?. lia. }
  assert (∀ M, Forall (above k) M → Forall (λ z, comparator (e_key z) k ≠ 0%Z) M)
    as Habove.
  { intros M HM. eapply Forall_impl; [exact HM|]. unfold above. intros z ?. lia. }
  split; [exact Hlen|]. split; [exact Hlev|]. split; [exact Hheap|].
  split; [intros a i; by rewrite !getForward_as_fwd, Hfwd|]. split; [|split].
  - intros i Hi. rewrite (rep_maxLevel _ _ HR) in Hi.
    eexists. split; [apply (levelEntries_spec s L i HR Hi)|].
    rewrite (levelEntries_spec s' _ i HR' Hi). f_equal.
    rewrite HL, !filter_app, !filter_cons, !fmap_app.
    rewrite (revalue_other k v _ A (Hbelow A HA)). f_equal.
    unfold y at 1. simpl. destruct (decide (i < e_height x)); simpl.
    + rewrite (revalue_other k v _ B (Habove B HB)). f_equal.
      unfold revalue, keyOf, triple, y. simpl.
      by rewrite Hx, (cmp_refl _ Hcmp).
    + apply symmetry, (revalue_other k v _ B (Habove B HB)).
  - rewrite (Get_spec s' _ k HR'), findKey_hit by done. done.
  - intros k' Hk'. rewrite (Get_spec s' _ k' HR'), (Get_spec s L k' HR), HL.
    assert (∀ z, e_key z = k → comparator (e_key z) k' ≠ 0%Z) as Hne.
    { intros z Hz Heq. apply (cmp_total _ Hcmp) in Heq. subst k'.
      by rewrite Hz, (cmp_refl _ Hcmp) in Hk'. }
    by rewrite !(findKey_skip k' A) by (by apply Hne).
Qed.

(** ** The keys a history leaves in the map *)

Lemma existsb_key k ks :
  existsb (λ k', (comparator k k' =? 0)%Z) ks = true ↔ k ∈ ks.
Proof.
  rewrite existsb_exists. split.
  - intros (k' & Hin & Heq%Z.eqb_eq). apply (cmp_total _ Hcmp) in Heq. subst k'.
    by apply list_elem_of_In.
  - intros Hin. exists k. split; [by apply list_elem_of_In|].
    apply Z.eqb_eq, (cmp_refl _ Hcmp).
Qed.

Lemma elem_of_distinctKeys k ks : k ∈ distinctKeys ks ↔ k ∈ ks.
Proof.
  induction ks as [|k0 ks IH]; simpl; [done|].
  destruct (existsb _ ks) eqn:E.
  - rewrite IH, elem_of_cons. split; [by right|].
    intros [->|Hin]; [by apply existsb_key|done].
  - by rewrite !elem_of_cons, IH.
Qed.

Lemma NoDup_distinctKeys ks : NoDup (distinctKeys ks).
Proof.
  induction ks as [|k0 ks IH]; simpl; [constructor|].
  destruct (existsb _ ks) eqn:E; [done|].
  apply NoDup_cons. split; [|done].
  rewrite elem_of_distinctKeys. intros Hin%existsb_key. congruence.
Qed.

Lemma contents_put ops : ∀ (m : K → option V) k,
  is_Some (fold_left applyOp ops m k) → is_Some (m k) ∨ k ∈ putKeys ops.
Proof.
  induction ops as [|op ops IH]; intros m k Hk; simpl in *; [by left|].
  apply IH in Hk as [Hk|Hk].
  - destruct op as [key v coins|key]; simpl in Hk;
      destruct (Z.eqb_spec (comparator key k) 0) as [Heq|Hne].
    + apply (cmp_total _ Hcmp) in Heq. subst key. right. by left.
    + by left.
    + by destruct Hk.
    + by left.
  - right. destruct op; [by right|done].
Qed.

Lemma live_keys_length ops s L :
  Rep s L → (∀ k, e_val <$> findKey k L = contents ops k) →
  length L = length (filter (λ k, is_Some (contents ops k))
                       (distinctKeys (putKeys ops))).
Proof.
  intros HR Hm. pose proof (rep_sorted _ _ HR) as HS.
  rewrite <- (length_fmap e_key L). apply Permutation_length, NoDup_Permutation.
  - by apply sorted_keys_NoDup.
  - apply NoDup_filter, NoDup_distinctKeys.
  - intros k. rewrite list_elem_of_filter, elem_of_distinctKeys.
    rewrite <- Hm. split.
    + intros (x & -> & Hx)%list_elem_of_fmap.
      assert (findKey (e_key x) L = Some x) as Hf by (by apply findKey_iff).
      assert (is_Some (e_val <$> findKey (e_key x) L)) as Hsome
        by (rewrite Hf; simpl; eauto).
      split; [exact Hsome|]. rewrite Hm in Hsome. unfold contents in Hsome.
      apply contents_put in Hsome as [[? [=]]|Hin]. exact Hin.
    + intros [[v Hv] _]. destruct (findKey k L) as [x|] eqn:Hf; [|done].
      apply findKey_iff in Hf as [Hin Hk]; [|done].
      apply list_elem_of_fmap. by exists x.
Qed.


(** ** The properties of the specification *)

Lemma triple_sorted L :
  StronglySorted keyLt L → StronglySorted tripleLt (triple <$> L).
Proof. by apply StronglySorted_fmap. Qed.

(** C1. After every sequence of [Put] and [Remove] operations (the
    comparator being a strict total order), the level-0 chain from the
    header carries strictly increasing keys, hence no duplicates, and for
    every level up to the current one the level-[i] chain is a subsequence
    of the level-0 chain. *)
Theorem ordering_invariant (ops : list Op) :
  ∃ s c0,
    run ops NewWithComparator = Done s ∧
    levelEntries 0 s = Done c0 ∧
    StronglySorted tripleLt c0 ∧
    NoDup (keyOf <$> c0) ∧
    ∀ i, i ≤ SkipMap.level s →
      ∃ ci, levelEntries i s = Done ci ∧ ci `sublist_of` c0 ∧
            StronglySorted tripleLt ci.
Proof.
  destruct (run_Rep ops _ _ Rep_New) as (s & L & Hrun & HR).
  pose proof (rep_level _ _ HR) as Hlev.
  exists s, (triple <$> L). split; [done|].
  split; [|split; [|split]].
  - rewrite (levelEntries_spec s L 0 HR) by (unfold DefaultMaxLevel; lia).
    by rewrite (filter_all_heights s L HR).
  - apply triple_sorted, (rep_sorted _ _ HR).
  - rewrite <- list_fmap_compose. apply sorted_keys_NoDup, (rep_sorted _ _ HR).
  - intros i Hi. eexists. split; [apply (levelEntries_spec s L i HR); lia|].
    split; [apply fmap_sublist, sublist_filter|].
    apply triple_sorted, sorted_filter, (rep_sorted _ _ HR).
Qed.

(** C2. [Put] on a key that is present overwrites the value in place.
    After any history, [Put k v1] then [Put k v2] complete and [Get k]
    returns [(v2, true)]; the second [Put] changes nothing but the value
    under [k]: [Len], the level, the nodes, every forward pointer and the
    order of every level chain are as the first [Put] left them.  The same
    holds of the first [Put] whenever the history has left [k] in the map
    (its last operation on [k] is a [Put]). *)
Theorem put_overwrite (ops : list Op) k v1 v2 coins1 coins2 :
  ∃ s s1 s2,
    run ops NewWithComparator = Done s ∧
    Put k v1 coins1 s = Done s1 ∧ Put k v2 coins2 s1 = Done s2 ∧
    Get k s2 = Done (v2, true) ∧
    Len s2 = Len s1 ∧
    overwritten k v2 s1 s2 ∧
    (is_Some (contents ops k) → overwritten k v1 s s1).
Proof.
  destruct (run_contents ops NewWithComparator [] (λ _, None) Rep_New)
    as (s & L & Hrun & HR & Hm); [done|].
  assert (∃ s1 L1 x1, Put k v1 coins1 s = Done s1 ∧ Rep s1 L1 ∧
            findKey k L1 = Some x1 ∧
            (is_Some (contents ops k) → overwritten k v1 s s1))
    as (s1 & L1 & x1 & Hput1 & HR1 & Hf1 & Hpresent).
  { destruct (findKey k L) as [x|] eqn:Hf.
    - destruct (Put_hit s L k v1 coins1 x HR Hf) as (s1 & L1 & Hput & HR1 & Hf1 & Hov).
      by exists s1, L1, (Entry (e_addr x) k v1 (e_height x)).
    - destruct (split_absent k L (rep_sorted _ _ HR) Hf) as (A & B & HL & HA & HB).
      destruct (PutWith_miss s L (fuelOf s) k v1 coins1 A B HR (rep_fuel s L HR)
                  HL HA HB) as (s1 & rl & Hput & _ & _ & HR1 & _).
      eexists s1, _, _. split; [exact Hput|]. split; [exact HR1|].
      split; [by apply findKey_hit|].
      intros Hsome. unfold contents in Hsome. rewrite <- Hm, Hf in Hsome.
      by destruct Hsome. }
  destruct (Put_hit s1 L1 k v2 coins2 x1 HR1 Hf1) as (s2 & L2 & Hput2 & _ & _ & Hov).
  exists s, s1, s2. split; [exact Hrun|]. split; [exact Hput1|].
  split; [exact Hput2|].
  pose proof Hov as (Hlen & _ & _ & _ & _ & Hget & _).
  split; [exact Hget|]. split; [exact Hlen|]. split; [exact Hov|exact Hpresent].
Qed.

(** C3. [Remove k] returns [true] exactly when [k] is present.  On an
    absent key it changes nothing that can be observed: [Len], [IsEmpty]
    and the results of [Get], [Range], [RangeFunc], [Min], [Max] and of a
    traversal of any level are as before, and they stay equal after any
    further history of operations (only the scratch buffer was written).
    On a present key it decrements [Len], [Get k] then reports not-found,
    and [Get] on every other key is unchanged. *)
Theorem remove_correct s k :
  Reachable s →
  ∃ s' (b : bool) v,
    Remove k s = Done (s', b) ∧ Get k s = Done (v, b) ∧
    if b then
      Len s' = (Len s - 1)%Z ∧
      Get k s' = Done (zeroV, false) ∧
      ∀ k', comparator k' k ≠ 0%Z → Get k' s' = Get k' s
    else
      sameObservations s s' ∧
      ∀ ops, ∃ t t',
        run ops s = Done t ∧ run ops s' = Done t' ∧ sameObservations t t'.
Proof.
  intros [L HR]%Reachable_Rep.
  destruct (Remove_Rep s L k HR) as (s' & [] & Hrem & Hb).
  - destruct Hb as (A & x & B & HL & HA & HB & Hx & Hf & HR' & _ & Hlen).
    exists s', true, (e_val x). split; [done|].
    split; [by rewrite (Get_spec s L k HR), Hf|].
    split; [done|]. split.
    + rewrite (Get_spec s' _ k HR'), findKey_miss by done. done.
    + intros k' Hne. rewrite (Get_spec s' _ k' HR'), (Get_spec s L k' HR), HL.
      rewrite findKey_skip; [done|]. rewrite Hx. intros Heq.
      apply (cmp_total _ Hcmp) in Heq. subst k'.
      by rewrite (cmp_refl _ Hcmp) in Hne.
  - destruct Hb as (Hf & HR' & upd & Hs').
    exists s', false, zeroV. split; [done|].
    split; [by rewrite (Get_spec s L k HR), Hf|].
    assert (sameButCache s s') as Hsame.
    { pose proof (rep_cache _ _ HR) as Hc. pose proof (rep_cache _ _ HR') as Hc'.
      rewrite Hs' in Hc' |- *. unfold sameButCache. simpl in *.
      by rewrite Hc, Hc'. }
    split; [by apply sameButCache_observations|].
    intros ops. destruct (run_Rep ops s L HR) as (t & _ & Hrun & _).
    destruct (run_cache ops s s' t Hsame Hrun) as (t' & Hrun' & Hsame').
    exists t, t'. split; [done|]. split; [done|].
    by apply sameButCache_observations.
Qed.

(** C4. [Range first last] returns the values of exactly the keys [k]
    present with [first ≤ k ≤ last], in ascending key order; in
    particular the result is empty when no key is in range, and when
    [first > last]. *)
Theorem range_correct s first last :
  Reachable s →
  ∃ kvs : list (K * V),
    Range first last s = Done (kvs.*2) ∧
    StronglySorted pairLt kvs ∧
    (∀ k v, (k, v) ∈ kvs ↔
       Get k s = Done (v, true) ∧
       (comparator first k ≤ 0)%Z ∧ (comparator k last ≤ 0)%Z) ∧
    ((0 < comparator first last)%Z → Range first last s = Done []).
Proof.
  intros Hs. destruct (range_pairs s first last Hs)
    as (kvs & Hrange & _ & Hsorted & Hmem & Hback).
  exists kvs. split; [done|]. split; [done|]. split; [done|].
  intros Hgt. by rewrite Hrange, (Hback Hgt).
Qed.

(** C5. [RangeFunc first last f] traverses the pairs of [Range first last]:
    it visits them in ascending order and stops after the first visit that
    returns [false].  A visitor that always returns [true] is invoked
    exactly once per in-range pair; one that returns [false] on some pair is
    invoked on the in-range pairs up to and including that one. *)
Theorem rangeFunc_traversal s first last :
  Reachable s →
  ∃ kvs : list (K * V),
    Range first last s = Done (kvs.*2) ∧
    (∀ k v, (k, v) ∈ kvs ↔
       Get k s = Done (v, true) ∧
       (comparator first k ≤ 0)%Z ∧ (comparator k last ≤ 0)%Z) ∧
    StronglySorted pairLt kvs ∧
    (∀ St (f : K → V → St → bool * St) st,
       RangeFunc first last f st s = Done (visitPairs f kvs st)) ∧
    (∀ p, RangeFunc first last (recording p) [] s = Done (callsUntil p kvs)) ∧
    RangeFunc first last (recording (λ _ _, true)) [] s = Done kvs.
Proof.
  intros Hs. destruct (range_pairs s first last Hs)
    as (kvs & Hrange & Hvisit & Hsorted & Hmem & _).
  exists kvs. split; [done|]. split; [done|]. split; [done|]. split; [done|].
  split.
  - intros p. by rewrite Hvisit, visitPairs_recording.
  - by rewrite Hvisit, visitPairs_recording, callsUntil_all.
Qed.

(** C6. [Min] and [Max] report not-found exactly when the map is empty
    ([Len] is zero).  On a non-empty map [Min] returns the first node of
    the level-0 chain (the header's level-0 forward target), whose key is
    least, and [Max] returns the last node of that chain, whose key is
    greatest. *)
Theorem min_max_correct s :
  Reachable s →
  ∃ c0,
    levelEntries 0 s = Done c0 ∧
    (∀ k v, Get k s = Done (v, true) ↔ ∃ a, (a, k, v) ∈ c0) ∧
    (Len s = 0%Z ↔ c0 = []) ∧
    Min s = Done (match head c0 with
                  | Some (_, k, v) => (k, v, true)
                  | None => (zeroK, zeroV, false)
                  end) ∧
    Max s = Done (match last c0 with
                  | Some (_, k, v) => (k, v, true)
                  | None => (zeroK, zeroV, false)
                  end) ∧
    (∀ t m, t ∈ c0 → head c0 = Some m →
            (comparator (keyOf m) (keyOf t) ≤ 0)%Z) ∧
    (∀ t m, t ∈ c0 → last c0 = Some m →
            (comparator (keyOf t) (keyOf m) ≤ 0)%Z).
Proof.
  intros [L HR]%Reachable_Rep. exists (triple <$> L).
  pose proof (rep_sorted _ _ HR) as HS.
  split; [|split; [|split; [|split; [|split; [|split]]]]].
  - rewrite (levelEntries_spec s L 0 HR) by (unfold DefaultMaxLevel; lia).
    by rewrite (filter_all_heights s L HR).
  - intros k v. rewrite (Get_found s L k v HR). split.
    + intros (x & Hin & <- & <-). exists (e_addr x).
      by apply (list_elem_of_fmap_2 triple).
    + intros (a & (x & [= -> -> ->] & Hin)%list_elem_of_fmap). by exists x.
  - unfold Len. rewrite (rep_length _ _ HR). destruct L; simpl; [done|].
    split; [lia|done].
  - rewrite (Min_spec s L HR). by destruct L.
  - rewrite (Max_spec s L HR), fmap_last. by destruct (last L).
  - intros t m (y & -> & Hy)%list_elem_of_fmap Hm. destruct L as [|x L']; [done|].
    injection Hm as <-. unfold keyOf, triple. simpl.
    apply StronglySorted_cons in HS as [Hx _]. rewrite Forall_forall in Hx.
    apply elem_of_cons in Hy as [->|Hy].
    + rewrite (cmp_refl _ Hcmp). lia.
    + pose proof (Hx y Hy) as Hlt. unfold keyLt in Hlt. lia.
  - intros t m (y & -> & Hy)%list_elem_of_fmap Hm.
    rewrite fmap_last in Hm. destruct (last L) as [z|] eqn:Hlast; [|done].
    injection Hm as <-. unfold keyOf, triple. simpl.
    apply last_Some in Hlast as [L' ->].
    apply StronglySorted_app in HS as (Hcross & _ & _).
    apply elem_of_app in Hy as [Hy|Hy].
    + pose proof (Hcross y z Hy ltac:(by left)) as Hlt. unfold keyLt in Hlt. lia.
    + apply list_elem_of_singleton in Hy as ->. rewrite (cmp_refl _ Hcmp). lia.
Qed.

(** *** Counting *)



Lemma run_app ops1 ops2 s :
  run (ops1 ++ ops2) s = (s' <- run ops1 s;; run ops2 s').
Proof.
  revert s. induction ops1 as [|op ops1 IH]; intros s; simpl; [done|].
  destruct (step s op); simpl; [apply IH|done..].
Qed.

Lemma Reachable_step s op s' : Reachable s → step s op = Done s' → Reachable s'.
Proof.
  intros [ops Hrun] Hstep. exists (ops ++ [op]).
  rewrite run_app, Hrun. simpl. by rewrite Hstep.
Qed.

(** *** The level field *)

Lemma rep_header_nil s L j :
  Rep s L → SkipMap.level s < j < SkipMap.maxLevel s →
  headerForward j s = Done None.
Proof.
  intros HR Hj. rewrite (rep_maxLevel _ _ HR) in Hj. unfold headerForward.
  rewrite (rep_header _ _ HR). apply getForward_fwd.
  pose proof (rep_links _ _ HR j ltac:(lia)) as Hseg. apply seg_head in Hseg.
  rewrite Hseg, tower_empty; [done|].
  pose proof (rep_entries _ _ HR) as Hent.
  eapply Forall_impl; [exact Hent|]. simpl. intros x (_ & _ & ?). lia.
Qed.

Lemma rep_header_top s L :
  Rep s L → L ≠ [] → ∃ b, headerForward (SkipMap.level s) s = Done (Some b).
Proof.
  intros HR HL. unfold headerForward. rewrite (rep_header _ _ HR).
  pose proof (rep_links _ _ HR _ (rep_level _ _ HR)) as Hseg. apply seg_head in Hseg.
  assert (∃ x, x ∈ L ∧ SkipMap.level s < e_height x) as (x & Hx & Hh).
  { destruct (rep_top _ _ HR) as [H0|Hex].
    - destruct L as [|x L']; [done|]. exists x. split; [by left|].
      pose proof (rep_entries _ _ HR) as Hent.
      apply Forall_cons in Hent as [(_ & _ & ?) _]. lia.
    - apply Exists_exists in Hex as (x & Hx & Hh). exists x. split; [done|lia]. }
  destruct (tower (SkipMap.level s) L) as [|b l] eqn:Ht.
  - apply tower_empty_inv in Ht. rewrite Forall_forall in Ht.
    pose proof (Ht x Hx). lia.
  - exists b. by apply getForward_fwd.
Qed.

(** C8, as amended.  In every reachable state the header's forward
    references above [level] are null; when the map is non-empty the one at
    [level] is non-null, and when it is empty [level] is 0 and the header
    points nowhere.  [Put] never lowers [level]; [Remove] lowers it only
    past levels it has just emptied, and, as the state it leaves is
    reachable too, no further than the first level still populated. *)
Theorem level_tracks_top s op :
  Reachable s →
  (∀ j, SkipMap.level s < j < SkipMap.maxLevel s → headerForward j s = Done None) ∧
  (if (Len s =? 0)%Z
   then SkipMap.level s = 0 ∧ headerForward 0 s = Done None
   else ∃ b, headerForward (SkipMap.level s) s = Done (Some b)) ∧
  ∃ s', step s op = Done s' ∧ Reachable s' ∧
    match op with
    | OpPut _ _ _ => SkipMap.level s ≤ SkipMap.level s'
    | OpRemove _ =>
        SkipMap.level s' ≤ SkipMap.level s ∧
        ∀ j, SkipMap.level s' < j ≤ SkipMap.level s →
             headerForward j s' = Done None
    end.
Proof.
  intros Hs. destruct (Reachable_Rep s Hs) as [L HR].
  split; [intros j Hj; by apply (rep_header_nil s L)|]. split.
  - unfold Len. rewrite (rep_length _ _ HR).
    destruct L as [|x L'] eqn:HL; simpl.
    + destruct (rep_top _ _ HR) as [H0|Hex]; [|by apply Exists_nil in Hex].
      split; [done|]. unfold headerForward. rewrite (rep_header _ _ HR).
      apply getForward_fwd. apply (seg_head _ _ _ _ _ (rep_links _ _ HR 0 ltac:(unfold DefaultMaxLevel; lia))).
    + by apply (rep_header_top s (x :: L')).
  - pose proof (λ s', Reachable_step s op s' Hs) as Hreach.
    destruct op as [k v coins|k]; simpl in *.
    + destruct (Put_Rep s L k v coins HR)
        as (s' & A & x & B & Hput & _ & _ & _ & _ & _ & Hcase).
      exists s'. split; [done|]. split; [by apply Hreach|].
      destruct Hcase as [(_ & _ & _ & ?)|(x0 & _ & _ & _ & -> & _)]; lia.
    + destruct (Remove_Rep s L k HR) as (s' & b & Hrem & Hb).
      rewrite Hrem in Hreach |- *. simpl in *.
      exists s'. split; [done|]. split; [by apply Hreach|].
      destruct b.
      * destruct Hb as (A & x & B & _ & _ & _ & _ & _ & HR' & Hlev & _).
        split; [done|]. intros j Hj. apply (rep_header_nil s' _ j HR').
        rewrite (rep_maxLevel _ _ HR'). pose proof (rep_level _ _ HR). lia.
      * destruct Hb as (_ & _ & upd & ->). simpl. split; [done|]. lia.
Qed.

(** C9.  Whatever the coin flips, [randomLevel] returns a level in
    [[0, maxLevel - 1]], [maxLevel] being 32.  The header and the scratch
    buffer have [maxLevel] slots and every node ever allocated between 1
    and [maxLevel].  Every operation runs to completion on every reachable
    state: no index into a forward slice or into the scratch buffer is out
    of range and no nil pointer is dereferenced. *)
Theorem operations_safe s :
  Reachable s →
  SkipMap.maxLevel s = 32 ∧
  (∀ coins, ∃ rl, randomLevel s coins = Done rl ∧
                  (0 ≤ Z.of_nat rl ≤ Z.of_nat (SkipMap.maxLevel s) - 1)%Z) ∧
  (∃ hd, index (SkipMap.heap s) (SkipMap.header s) = Done hd ∧
         length (Node.forward hd) = SkipMap.maxLevel s) ∧
  length (SkipMap.updateCache s) = SkipMap.maxLevel s ∧
  (∀ a n, index (SkipMap.heap s) a = Done n →
          1 ≤ length (Node.forward n) ≤ SkipMap.maxLevel s) ∧
  (∀ k v coins, ∃ s', Put k v coins s = Done s') ∧
  (∀ k, ∃ r, Get k s = Done r) ∧
  (∀ k, ∃ r, Remove k s = Done r) ∧
  (∀ first last, ∃ r, Range first last s = Done r) ∧
  (∀ St first last (f : K → V → St → bool * St) st,
     ∃ r, RangeFunc first last f st s = Done r) ∧
  (∃ r, Min s = Done r) ∧
  (∃ r, Max s = Done r).
Proof.
  intros [L HR]%Reachable_Rep.
  pose proof (rep_maxLevel _ _ HR) as Hmax.
  split; [done|]. split; [|split; [|split; [|split]]].
  - intros coins. unfold randomLevel. rewrite Hmax.
    destruct (randomLevelLoop_spec coins DefaultMaxLevel (S DefaultMaxLevel) 0 0)
      as (rl & -> & _ & Hrl); [unfold DefaultMaxLevel; lia..|].
    exists rl. split; [done|]. lia.
  - destruct (rep_sentinel _ _ HR) as (k0 & v0 & H0).
    apply info_index in H0 as (m & Hm & _ & _ & Hlen).
    exists m. rewrite (rep_header _ _ HR), Hmax. by rewrite (index_Done _ _ _ Hm).
  - by rewrite (rep_cache _ _ HR).
  - intros a n Hn%index_inv. rewrite Hmax.
    apply (rep_nodes _ _ HR a (Node.key n) (Node.value n)).
    unfold info. by rewrite Hn.
  - split; [|split; [|split; [|split; [|split; [|split]]]]].
    + intros k v coins.
      destruct (Put_Rep s L k v coins HR) as (s' & _ & _ & _ & -> & _). by exists s'.
    + intros k. rewrite (Get_spec s L k HR). eauto.
    + intros k. destruct (Remove_Rep s L k HR) as (s' & b & -> & _). eauto.
    + intros first last. rewrite (Range_spec s L first last HR). eauto.
    + intros St first last f st. rewrite (RangeFunc_spec s L first last f st HR).
      eauto.
    + rewrite (Min_spec s L HR). eauto.
    + rewrite (Max_spec s L HR). eauto.
Qed.

(** ** Further properties of the operations *)

(** *** The answers depend on the keys and values only *)

Lemma sorted_pairs_eq L : ∀ L',
  StronglySorted keyLt L → StronglySorted keyLt L' →
  (∀ k, e_val <$> findKey k L = e_val <$> findKey k L') →
  pairOf <$> L = pairOf <$> L'.
Proof.
  induction L as [|x L IH]; intros [|y L'] HS HS' Hf.
  - done.
  - specialize (Hf (e_key y)). simpl in Hf.
    rewrite decide_True in Hf by apply (cmp_refl _ Hcmp). done.
  - specialize (Hf (e_key x)). simpl in Hf.
    rewrite decide_True in Hf by apply (cmp_refl _ Hcmp). done.
  - apply StronglySorted_cons in HS as [Hx HS].
    apply StronglySorted_cons in HS' as [Hy HS'].
    assert (∀ z M, Forall (keyLt z) M → findKey (e_key z) M = None) as Hnone.
    { intros z M HM. apply findKey_above. eapply Forall_impl; [exact HM|].
      intros w Hw. unfold above. by apply (cmp_antisym _ Hcmp). }
    assert (e_key x = e_key y) as Hk.
    { pose proof (Hf (e_key x)) as Hfx. pose proof (Hf (e_key y)) as Hfy.
      simpl in Hfx, Hfy.
      rewrite decide_True in Hfx by apply (cmp_refl _ Hcmp).
      rewrite (decide_True (P := comparator (e_key y) (e_key y) = 0%Z)) in Hfy
        by apply (cmp_refl _ Hcmp).
      destruct (decide (comparator (e_key y) (e_key x) = 0%Z)) as [Heq|Hne];
        [symmetry; by apply (cmp_total _ Hcmp)|].
      destruct (decide (comparator (e_key x) (e_key y) = 0%Z)) as [Heq'|Hne'];
        [by apply (cmp_total _ Hcmp)|].
      destruct (Z.lt_trichotomy (comparator (e_key x) (e_key y)) 0)
        as [Hlt|[?|Hgt]]; [|done|].
      - assert (findKey (e_key x) L' = None) as Hn; [|by rewrite Hn in Hfx].
        apply findKey_above. eapply Forall_impl; [exact Hy|].
        intros w Hw. unfold above, keyLt in *.
        apply (cmp_antisym _ Hcmp).
        by apply (cmp_trans _ Hcmp _ (e_key y)).
      - assert (findKey (e_key y) L = None) as Hn; [|by rewrite Hn in Hfy].
        apply findKey_above. eapply Forall_impl; [exact Hx|].
        intros w Hw. unfold above, keyLt in *.
        apply (cmp_antisym _ Hcmp). apply (cmp_antisym _ Hcmp) in Hgt.
        by apply (cmp_trans _ Hcmp _ (e_key x)). }
    rewrite !fmap_cons. f_equal.
    + unfold pairOf. rewrite Hk. f_equal.
      specialize (Hf (e_key x)). simpl in Hf.
      rewrite decide_True in Hf by apply (cmp_refl _ Hcmp).
      rewrite decide_True in Hf by (rewrite Hk; apply (cmp_refl _ Hcmp)).
      by injection Hf.
    + apply IH; [done..|]. intros k. specialize (Hf k). simpl in Hf.
      rewrite <- Hk in Hf.
      destruct (decide (comparator (e_key x) k = 0%Z)) as [Heq|Hne]; [|done].
      apply (cmp_total _ Hcmp) in Heq. subst k.
      rewrite (Hnone x L Hx). rewrite Hk. by rewrite (Hnone y L' Hy).
Qed.

Lemma pairs_Forall2 L : ∀ L',
  pairOf <$> L = pairOf <$> L' → Forall2 (λ x y, pairOf x = pairOf y) L L'.
Proof.
  induction L as [|x L IH]; intros [|y L'] Heq; try done.
  rewrite !fmap_cons in Heq.
  constructor; [congruence|apply IH; congruence].
Qed.

Lemma findKey_pairs k L L' :
  pairOf <$> L = pairOf <$> L' → e_val <$> findKey k L = e_val <$> findKey k L'.
Proof.
  intros HF%pairs_Forall2. induction HF as [|x y L L' [= Hk Hv] _ IH]; [done|].
  simpl. rewrite Hk. case_decide; [simpl; by rewrite Hv|done].
Qed.

Lemma filter_pairs first last (L L' : list entry) :
  pairOf <$> L = pairOf <$> L' →
  pairOf <$> filter (inRange first last) L
  = pairOf <$> filter (inRange first last) L'.
Proof.
  intros HF%pairs_Forall2. induction HF as [|x y L L' Hxy _ IH]; [done|].
  assert (inRange first last x ↔ inRange first last y) as Hiff.
  { pose proof Hxy as [= Hk Hv]. unfold inRange. by rewrite Hk. }
  rewrite !filter_cons.
  destruct (decide (inRange first last x)), (decide (inRange first last y));
    [|tauto..|done].
  rewrite !fmap_cons. by rewrite Hxy, IH.
Qed.

Lemma Rep_answers s s' L L' :
  Rep s L → Rep s' L' → pairOf <$> L = pairOf <$> L' → sameAnswers s s'.
Proof.
  intros HR HR' Hp.
  assert (length L = length L') as Hlen.
  { by rewrite <- (length_fmap pairOf L), Hp, length_fmap. }
  assert (∀ l : list entry, e_val <$> l = (pairOf <$> l).*2) as Hval.
  { intros l. by rewrite <- list_fmap_compose. }
  unfold sameAnswers, Len, IsEmpty.
  rewrite (rep_length _ _ HR), (rep_length _ _ HR'), Hlen.
  split; [done|]. split; [done|]. split; [|split; [|split; [|split]]].
  - intros k. rewrite (Get_spec s' L' k HR'), (Get_spec s L k HR).
    pose proof (findKey_pairs k L L' Hp) as Hf.
    destruct (findKey k L), (findKey k L'); simpl in Hf; try done.
    by injection Hf as ->.
  - intros first last.
    rewrite (Range_spec s' L' first last HR'), (Range_spec s L first last HR).
    by rewrite !Hval, (filter_pairs first last L L' Hp).
  - intros St first last f st.
    rewrite (RangeFunc_spec s' L' first last f st HR').
    rewrite (RangeFunc_spec s L first last f st HR).
    by rewrite !visitList_pairs, (filter_pairs first last L L' Hp).
  - rewrite (Min_spec s' L' HR'), (Min_spec s L HR).
    destruct L as [|x L], L' as [|y L']; try done.
    rewrite !fmap_cons in Hp. by injection Hp as -> ->.
  - rewrite (Max_spec s' L' HR'), (Max_spec s L HR).
    assert (pairOf <$> last L = pairOf <$> last L') as Hl
      by (by rewrite <- !fmap_last, Hp).
    destruct (last L), (last L'); simpl in Hl; try done.
    by injection Hl as -> ->.
Qed.

Lemma Rep_level_eq s s' L : Rep s L → Rep s' L → SkipMap.level s' = SkipMap.level s.
Proof.
  intros HR HR'.
  pose proof (rep_entries _ _ HR) as He. pose proof (rep_entries _ _ HR') as He'.
  rewrite Forall_forall in He, He'.
  destruct (rep_top _ _ HR) as [H0|(x & Hx & Hh)%Exists_exists],
    (rep_top _ _ HR') as [H0'|(y & Hy & Hh')%Exists_exists].
  - lia.
  - pose proof (He y Hy). lia.
  - pose proof (He' x Hx). lia.
  - pose proof (He y Hy). pose proof (He' x Hx). lia.
Qed.

Lemma Rep_observations s s' L : Rep s L → Rep s' L → sameObservations s s'.
Proof.
  intros HR HR'.
  destruct (Rep_answers s s' L L HR HR' eq_refl)
    as (Hlen & Hemp & Hget & Hrange & Hfunc & Hmin & Hmax).
  do 7 (split; [done|]). intros i.
  destruct (decide (i < DefaultMaxLevel)) as [Hi|Hi].
  - by rewrite (levelEntries_spec s' L i HR'), (levelEntries_spec s L i HR).
  - assert (∀ t M, Rep t M → levelEntries i t = Panic) as Hpanic.
    { intros t M Ht. unfold levelEntries. rewrite (rep_header _ _ Ht).
      destruct (rep_sentinel _ _ Ht) as (k0 & v0 & H0).
      apply info_index in H0 as (m & Hm & _ & _ & Hl).
      unfold getForward. rewrite (index_Done _ _ _ Hm). cbn [bind].
      unfold index. rewrite lookup_ge_None_2 by lia. done. }
    by rewrite (Hpanic s L HR), (Hpanic s' L HR').
Qed.

Lemma Rep_answers_find s s' L L' :
  Rep s L → Rep s' L' →
  (∀ k, e_val <$> findKey k L = e_val <$> findKey k L') → sameAnswers s s'.
Proof.
  intros HR HR' Hf. apply (Rep_answers s s' L L' HR HR').
  apply sorted_pairs_eq; [apply (rep_sorted _ _ HR)|apply (rep_sorted _ _ HR')|done].
Qed.

(** X3. The answers of the queries depend on the keys and values in the
    map only: two reachable states in which [Get] answers alike for every
    key, whatever histories and coin flips led to them, answer [Len],
    [IsEmpty], [Range], [RangeFunc], [Min] and [Max] alike. *)
Theorem answers_follow_contents s s' :
  Reachable s → Reachable s' → (∀ k, Get k s' = Get k s) → sameAnswers s s'.
Proof.
  intros [L HR]%Reachable_Rep [L' HR']%Reachable_Rep Hget.
  apply (Rep_answers_find s s' L L' HR HR'). intros k.
  specialize (Hget k).
  rewrite (Get_spec s' L' k HR'), (Get_spec s L k HR) in Hget.
  destruct (findKey k L), (findKey k L'); simpl; congruence.
Qed.

(** *** How the operations compose *)

(** X4. [Put] then [Get]: on every reachable state [Put k v] completes,
    in a reachable state where [Get k] returns [(v, true)] and [Get] on
    every other key answers as before; [Len] grows by one when [k] was
    absent and stays when it was present. *)
Theorem put_then_get s k v coins :
  Reachable s →
  ∃ s' (present : bool) v0,
    Put k v coins s = Done s' ∧ Reachable s' ∧
    Get k s = Done (v0, present) ∧
    Get k s' = Done (v, true) ∧
    (∀ k', comparator k' k ≠ 0%Z → Get k' s' = Get k' s) ∧
    Len s' = (Len s + if present then 0 else 1)%Z.
Proof.
  intros Hs. destruct (Reachable_Rep s Hs) as [L HR].
  destruct (Put_Rep s L k v coins HR)
    as (s' & A & x & B & Hput & HR' & HA & HB & Hx & Hv & Hcase).
  assert (Reachable s') as Hs'
    by (apply (Reachable_step s (OpPut k v coins) s' Hs); exact Hput).
  assert (Get k s' = Done (v, true)) as Hget'.
  { rewrite (Get_spec s' _ k HR'), findKey_hit by done. by rewrite Hv. }
  assert (∀ y k', e_key y = k → comparator k' k ≠ 0%Z →
                  comparator (e_key y) k' ≠ 0%Z) as Hne.
  { intros y k' -> Hk' Heq. apply (cmp_total _ Hcmp) in Heq. subst k'.
    by rewrite (cmp_refl _ Hcmp) in Hk'. }
  destruct Hcase as [(HL & Hnone & Hlen & _)|(x0 & HL & Hsome & Hlen & _)].
  - exists s', false, zeroV. split; [done|]. split; [done|].
    split; [by rewrite (Get_spec s L k HR), Hnone|]. split; [done|]. split.
    + intros k' Hk'. rewrite (Get_spec s' _ k' HR'), (Get_spec s L k' HR), HL.
      by rewrite findKey_skip by (by apply Hne).
    + unfold Len. lia.
  - exists s', true, (e_val x0). split; [done|]. split; [done|].
    split; [by rewrite (Get_spec s L k HR), Hsome|]. split; [done|]. split.
    + intros k' Hk'. rewrite (Get_spec s' _ k' HR'), (Get_spec s L k' HR), HL.
      apply findKey_Some in Hsome as [_ Hx0]. apply (cmp_total _ Hcmp) in Hx0.
      by rewrite !(findKey_skip k' A) by (by apply Hne).
    + unfold Len. lia.
Qed.

(** X5. [Put] of an absent key followed by [Remove] of that key undoes
    it: [Remove] returns [true], and the state it leaves answers every
    query and shows every level chain as the state before the [Put] did,
    at the same [level], whatever level the node had drawn. *)
Theorem put_then_remove s k v coins :
  Reachable s → Get k s = Done (zeroV, false) →
  ∃ s1 s2,
    Put k v coins s = Done s1 ∧ Remove k s1 = Done (s2, true) ∧
    sameObservations s s2 ∧ SkipMap.level s2 = SkipMap.level s.
Proof.
  intros [L HR]%Reachable_Rep Hget.
  pose proof (Get_absent s L k HR Hget) as Hnone.
  destruct (split_absent k L (rep_sorted _ _ HR) Hnone) as (A & B & HL & HA & HB).
  destruct (PutWith_miss s L (fuelOf s) k v coins A B HR (rep_fuel s L HR) HL HA HB)
    as (s1 & rl & Hput & _ & _ & HR1 & _).
  set (x := Entry (length (SkipMap.heap s)) k v (S rl)) in HR1.
  destruct (RemoveWith_hit s1 (A ++ x :: B) (fuelOf s1) k A x B HR1
              (rep_fuel s1 _ HR1) eq_refl HA eq_refl HB)
    as (s2 & Hrem & HR2 & _).
  rewrite <- HL in HR2.
  exists s1, s2. split; [exact Hput|]. split; [exact Hrem|].
  split; [by apply (Rep_observations s s2 L)|by apply (Rep_level_eq s s2 L)].
Qed.

(** X6. [Remove] of a present key followed by [Put] of that key with the
    value it had restores every answer: [Len], [IsEmpty], [Get], [Range],
    [RangeFunc], [Min] and [Max] are as before the [Remove]. *)
Theorem remove_then_put s k v coins :
  Reachable s → Get k s = Done (v, true) →
  ∃ s1 s2,
    Remove k s = Done (s1, true) ∧ Put k v coins s1 = Done s2 ∧
    sameAnswers s s2.
Proof.
  intros [L HR]%Reachable_Rep Hget.
  destruct (Get_present s L k v HR Hget) as (x & Hsome & Hv).
  destruct (split_present k L x (rep_sorted _ _ HR) Hsome)
    as (A & B & HL & HA & Hx & HB).
  destruct (RemoveWith_hit s L (fuelOf s) k A x B HR (rep_fuel s L HR) HL HA Hx HB)
    as (s1 & Hrem & HR1 & _).
  destruct (PutWith_miss s1 (A ++ B) (fuelOf s1) k v coins A B HR1
              (rep_fuel s1 _ HR1) eq_refl HA HB)
    as (s2 & rl & Hput & _ & _ & HR2 & _).
  exists s1, s2. split; [exact Hrem|]. split; [exact Hput|].
  apply (Rep_answers s s2 _ _ HR HR2). rewrite HL.
  rewrite !fmap_app, !fmap_cons. unfold pairOf at 2 5. simpl.
  by rewrite Hx, Hv.
Qed.

Lemma applyOp_commute m op1 op2 k :
  comparator (opKey op1) (opKey op2) ≠ 0%Z →
  applyOp (applyOp m op1) op2 k = applyOp (applyOp m op2) op1 k.
Proof.
  intros Hne.
  assert (∀ k1 k2, comparator k1 k2 ≠ 0%Z →
            (comparator k1 k =? 0)%Z = true → (comparator k2 k =? 0)%Z = true →
            False) as Hboth.
  { intros k1 k2 Hk E1%Z.eqb_eq E2%Z.eqb_eq.
    apply (cmp_total _ Hcmp) in E1, E2. subst k1 k2.
    by rewrite (cmp_refl _ Hcmp) in Hk. }
  destruct op1 as [k1 v1 c1|k1], op2 as [k2 v2 c2|k2]; simpl in *;
    destruct (comparator k1 k =? 0)%Z eqn:E1, (comparator k2 k =? 0)%Z eqn:E2;
    try reflexivity; exfalso; by apply (Hboth k1 k2).
Qed.

(** X7. Operations on different keys commute: from a reachable state,
    two [Put]s or [Remove]s on different keys applied in either order
    leave states that answer every query alike. *)
Theorem independent_ops_commute s op1 op2 :
  Reachable s → comparator (opKey op1) (opKey op2) ≠ 0%Z →
  ∃ t t',
    run [op1; op2] s = Done t ∧ run [op2; op1] s = Done t' ∧ sameAnswers t t'.
Proof.
  intros [L HR]%Reachable_Rep Hne.
  destruct (run_contents [op1; op2] s L (λ k, e_val <$> findKey k L) HR)
    as (t & Lt & Hrun & HRt & Hm); [done|].
  destruct (run_contents [op2; op1] s L (λ k, e_val <$> findKey k L) HR)
    as (t' & Lt' & Hrun' & HRt' & Hm'); [done|].
  exists t, t'. split; [exact Hrun|]. split; [exact Hrun'|].
  apply (Rep_answers_find t t' Lt Lt' HRt HRt'). intros k.
  rewrite Hm, Hm'. simpl. by apply applyOp_commute.
Qed.

(** X8. The scratch buffer is scratch: what [Put] and [Remove] find in it
    from earlier calls never shows.  From a reachable state and from one
    that differs from it in the buffer's contents only, every history of
    operations runs to completion with the same answers and the same
    level chains. *)
Theorem scratch_buffer_irrelevant s s' ops :
  Reachable s → sameButCache s s' →
  ∃ t t', run ops s = Done t ∧ run ops s' = Done t' ∧ sameObservations t t'.
Proof.
  intros [L HR]%Reachable_Rep Hsame.
  destruct (run_Rep ops s L HR) as (t & _ & Hrun & _).
  destruct (run_cache ops s s' t Hsame Hrun) as (t' & Hrun' & Hsame').
  exists t, t'. split; [exact Hrun|]. split; [exact Hrun'|].
  by apply sameButCache_observations.
Qed.

(** *** The whole map *)

Lemma filter_Forall_id {A} (P : A → Prop) `{∀ x, Decision (P x)} (l : list A) :
  Forall P l → filter P l = l.
Proof.
  induction 1 as [|x l Hx _ IH]; [done|].
  rewrite filter_cons, decide_True by done. by rewrite IH.
Qed.

(** X9. On a non-empty map, [Range] from the key of [Min] to the key of
    [Max] returns every value: [Len] of them, the value of [Min] first and
    the value of [Max] last.  The result of every other [Range] is a
    subsequence of it. *)
Theorem range_of_everything s kmin vmin kmax vmax :
  Reachable s →
  Min s = Done (kmin, vmin, true) → Max s = Done (kmax, vmax, true) →
  ∃ vs,
    Range kmin kmax s = Done vs ∧ Z.of_nat (length vs) = Len s ∧
    head vs = Some vmin ∧ last vs = Some vmax ∧
    ∀ first last, ∃ r, Range first last s = Done r ∧ r `sublist_of` vs.
Proof.
  intros [L HR]%Reachable_Rep Hmin Hmax.
  pose proof (rep_sorted _ _ HR) as HS.
  rewrite (Min_spec s L HR) in Hmin. rewrite (Max_spec s L HR) in Hmax.
  destruct L as [|x L0] eqn:HL; [done|]. rewrite <- HL in *.
  injection Hmin as <- <-.
  destruct (last L) as [y|] eqn:Hlast; [|done]. injection Hmax as <- <-.
  assert (filter (inRange (e_key x) (e_key y)) L = L) as Hall.
  { apply filter_Forall_id. rewrite Forall_forall. intros z Hz. split.
    - rewrite HL in Hz, HS. apply StronglySorted_cons in HS as [Hx _].
      rewrite Forall_forall in Hx.
      apply elem_of_cons in Hz as [->|Hz]; [by rewrite (cmp_refl _ Hcmp)|].
      pose proof (Hx z Hz) as Hlt. unfold keyLt in Hlt.
      apply (cmp_antisym _ Hcmp) in Hlt. lia.
    - apply last_Some in Hlast as [L1 HL1]. rewrite HL1 in Hz, HS.
      apply StronglySorted_app in HS as (Hcross & _ & _).
      apply elem_of_app in Hz as [Hz|Hz].
      + pose proof (Hcross z y Hz ltac:(by left)) as Hlt. unfold keyLt in Hlt. lia.
      + apply list_elem_of_singleton in Hz as ->. by rewrite (cmp_refl _ Hcmp). }
  exists (e_val <$> L). split; [by rewrite (Range_spec s L _ _ HR), Hall|].
  split; [unfold Len; by rewrite (rep_length _ _ HR), length_fmap|].
  split; [by rewrite HL|]. split; [by rewrite fmap_last, Hlast|].
  intros first last. eexists. split; [apply (Range_spec s L first last HR)|].
  apply fmap_sublist, sublist_filter.
Qed.

(** X10. [Len] is never negative, and [IsEmpty] answers [true] exactly
    when [Len] is zero, which is exactly when [Get] finds no key at all;
    it answers [false] exactly when some key is found. *)
Theorem empty_iff_no_key s :
  Reachable s →
  (0 ≤ Len s)%Z ∧
  (IsEmpty s = true ↔ Len s = 0%Z) ∧
  (IsEmpty s = true ↔ ∀ k, Get k s = Done (zeroV, false)) ∧
  (IsEmpty s = false ↔ ∃ k v, Get k s = Done (v, true)).
Proof.
  intros [L HR]%Reachable_Rep. unfold IsEmpty, Len.
  rewrite (rep_length _ _ HR).
  split; [lia|]. split; [apply Z.eqb_eq|].
  destruct L as [|x L0] eqn:HL; simpl.
  - split.
    + split; [|done]. intros _ k. by rewrite (Get_spec s [] k HR).
    + split; [done|]. intros (k & v & Hget).
      by rewrite (Get_spec s [] k HR) in Hget.
  - assert (Get (e_key x) s = Done (e_val x, true)) as Hget.
    { apply (Get_found s (x :: L0) _ _ HR). exists x. split; [by left|done]. }
    split.
    + split; [done|]. intros Hno. by rewrite Hno in Hget.
    + split; [|done]. intros _. by exists (e_key x), (e_val x).
Qed.

Lemma filter_upTo_above k B : Forall (above k) B → filter (upTo k) B = [].
Proof.
  induction 1 as [|y B Hy _ IH]; [done|].
  rewrite filter_cons, decide_False; [done|]. unfold upTo, above in *. lia.
Qed.

(** X11. A [Range] from a key to itself is a point query: it returns the
    one value [Get] finds under the key, and nothing when [Get] finds
    none. *)
Theorem range_point s k :
  Reachable s →
  ∃ v (b : bool),
    Get k s = Done (v, b) ∧ Range k k s = Done (if b then [v] else []).
Proof.
  intros [L HR]%Reachable_Rep.
  rewrite (Get_spec s L k HR), (Range_spec s L k k HR).
  destruct (around k L (rep_sorted _ _ HR)) as [A x B HL HA Hx HB Hf|A B HL HA HB Hf];
    rewrite Hf, HL.
  - exists (e_val x), true. split; [done|]. f_equal.
    rewrite (filter_inRange k k A (x :: B) HA (hit_not_below k x B Hx HB)).
    rewrite filter_cons, decide_True, (filter_upTo_above k B HB); [done|].
    unfold upTo. rewrite Hx, (cmp_refl _ Hcmp). lia.
  - exists zeroV, false. split; [done|]. f_equal.
    rewrite (filter_inRange k k A B HA (above_not_below k B HB)).
    by rewrite (filter_upTo_above k B HB).
Qed.

(** *** What [Put] and [Remove] do to the level chains *)

Lemma levelEntries_app s i A B :
  Rep s (A ++ B) → i < DefaultMaxLevel →
  levelEntries i s
  = Done ((triple <$> filter (λ x, i < e_height x) A)
          ++ (triple <$> filter (λ x, i < e_height x) B)).
Proof.
  intros HR Hi. by rewrite (levelEntries_spec s _ i HR Hi), filter_app, fmap_app.
Qed.

Lemma Forall_triples (P : K → Prop) (Q : entry → Prop) `{∀ x, Decision (Q x)}
    (M : list entry) :
  Forall (λ x, P (e_key x)) M →
  Forall (λ t, P (keyOf t)) (triple <$> filter Q M).
Proof.
  intros HM. apply Forall_fmap. apply Forall_filter_in.
  eapply Forall_impl; [exact HM|]. done.
Qed.

(** X12. [Put] of an absent key links one new node into the level chains
    0 to [rl], [rl] being the level [randomLevel] draws, each time between
    the nodes with smaller keys and the nodes with greater keys, and
    leaves the chains above [rl] as they were; [level] becomes the greater
    of its old value and [rl]. *)
Theorem put_links_tower s k v coins :
  Reachable s → Get k s = Done (zeroV, false) →
  ∃ s' rl,
    Put k v coins s = Done s' ∧ randomLevel s coins = Done rl ∧
    SkipMap.level s' = SkipMap.level s `max` rl ∧
    ∀ i, i < SkipMap.maxLevel s →
      ∃ lo hi,
        levelEntries i s = Done (lo ++ hi) ∧
        Forall (λ t, (comparator (keyOf t) k < 0)%Z) lo ∧
        Forall (λ t, (0 < comparator (keyOf t) k)%Z) hi ∧
        levelEntries i s' =
          Done (if decide (i ≤ rl)
                then lo ++ (length (SkipMap.heap s), k, v) :: hi
                else lo ++ hi).
Proof.
  intros [L HR]%Reachable_Rep Hget.
  pose proof (Get_absent s L k HR Hget) as Hnone.
  destruct (split_absent k L (rep_sorted _ _ HR) Hnone) as (A & B & HL & HA & HB).
  destruct (PutWith_miss s L (fuelOf s) k v coins A B HR (rep_fuel s L HR) HL HA HB)
    as (s' & rl & Hput & Hrl & _ & HR' & Hlev & _).
  exists s', rl. split; [exact Hput|]. split; [exact Hrl|]. split; [exact Hlev|].
  intros i Hi. rewrite (rep_maxLevel _ _ HR) in Hi. rewrite HL in HR.
  exists (triple <$> filter (λ x, i < e_height x) A),
         (triple <$> filter (λ x, i < e_height x) B).
  split; [by apply levelEntries_app|].
  split; [by apply (Forall_triples (λ k', (comparator k' k < 0)%Z))|].
  split; [by apply (Forall_triples (λ k', (0 < comparator k' k)%Z))|].
  rewrite (levelEntries_spec s' _ i HR' Hi), filter_app, filter_cons, fmap_app.
  simpl. destruct (decide (i < S rl)), (decide (i ≤ rl)); try lia; done.
Qed.

Lemma filter_other_keys k (Q : entry → Prop) `{∀ x, Decision (Q x)}
    (M : list entry) :
  Forall (λ x, comparator (e_key x) k ≠ 0%Z) M →
  filter (λ t, comparator (keyOf t) k ≠ 0%Z) (triple <$> filter Q M)
  = triple <$> filter Q M.
Proof.
  intros HM. apply filter_Forall_id.
  by apply (Forall_triples (λ k', comparator k' k ≠ 0%Z)).
Qed.

Lemma below_ne k M : Forall (below k) M → Forall (λ x, comparator (e_key x) k ≠ 0%Z) M.
Proof. intros HM. eapply Forall_impl; [exact HM|]. unfold below. intros x ?. lia. Qed.

Lemma above_ne k M : Forall (above k) M → Forall (λ x, comparator (e_key x) k ≠ 0%Z) M.
Proof. intros HM. eapply Forall_impl; [exact HM|]. unfold above. intros x ?. lia. Qed.

(** X13. [Remove] unlinks the node holding the key from every level chain
    it is on and touches nothing else: at every level the chain afterwards
    is the chain before without the entry of that key (and the same chain
    when the key is absent). *)
Theorem remove_unlinks_tower s k :
  Reachable s →
  ∃ s' b,
    Remove k s = Done (s', b) ∧
    ∀ i, i < SkipMap.maxLevel s →
      ∃ ci, levelEntries i s = Done ci ∧
        levelEntries i s'
        = Done (filter (λ t, comparator (keyOf t) k ≠ 0%Z) ci).
Proof.
  intros [L HR]%Reachable_Rep.
  destruct (Remove_Rep s L k HR) as (s' & b & Hrem & Hb).
  exists s', b. split; [exact Hrem|]. intros i Hi.
  rewrite (rep_maxLevel _ _ HR) in Hi.
  eexists. split; [apply (levelEntries_spec s L i HR Hi)|].
  destruct b.
  - destruct Hb as (A & x & B & HL & HA & HB & Hx & _ & HR' & _).
    rewrite (levelEntries_app s' i A B HR' Hi). f_equal.
    rewrite HL, filter_app, filter_cons, fmap_app, filter_app.
    rewrite (filter_other_keys k _ A (below_ne k A HA)). f_equal. symmetry.
    case_decide.
    + rewrite fmap_cons, filter_cons, decide_False.
      * apply (filter_other_keys k _ B (above_ne k B HB)).
      * unfold keyOf, triple. simpl. rewrite Hx, (cmp_refl _ Hcmp). by intros [].
    + apply (filter_other_keys k _ B (above_ne k B HB)).
  - destruct Hb as (Hnone & HR' & _).
    rewrite (levelEntries_spec s' L i HR' Hi). f_equal. symmetry.
    apply filter_other_keys. rewrite Forall_forall. intros x Hx.
    by apply (findKey_None k L).
Qed.

(** *** The level a new node draws *)

Lemma randomLevelLoop_closed coins m : ∀ fuel flips level,
  m - 1 - level < fuel →
  randomLevelLoop fuel coins m flips level
  = Done (level + leadingFlips coins flips (m - 1 - level)).
Proof.
  induction fuel as [|fuel IH]; intros flips level Hfuel; [lia|].
  simpl. destruct (m - 1 - level) as [|n] eqn:Hn.
  - replace (Z.of_nat level <? Z.of_nat m - 1)%Z with false
      by (symmetry; apply Z.ltb_ge; lia).
    rewrite andb_false_r. simpl. f_equal. lia.
  - replace (Z.of_nat level <? Z.of_nat m - 1)%Z with true
      by (symmetry; apply Z.ltb_lt; lia).
    rewrite andb_true_r. simpl. destruct (coins flips).
    + rewrite IH by lia. replace (m - 1 - S level) with n by lia. f_equal. lia.
    + f_equal. lia.
Qed.

(** X14. [randomLevel] returns the number of coin flips that succeed
    before the first one that fails, and [maxLevel - 1] when that many
    succeed in a row. *)
Theorem randomLevel_counts_flips (s : SkipMap) coins :
  randomLevel s coins
  = Done (leadingFlips coins 0 (SkipMap.maxLevel s - 1)).
Proof.
  unfold randomLevel. rewrite randomLevelLoop_closed by lia.
  by rewrite Nat.sub_0_r.
Qed.

(** *** What [Len] counts *)

(** X15. After every history [Len] is the number of keys the history
    leaves in the map: the distinct keys passed to [Put] whose last
    operation is a [Put], not a [Remove]. *)
Theorem len_counts_live_keys (ops : list Op) :
  ∃ s,
    run ops NewWithComparator = Done s ∧
    Len s = Z.of_nat (length (filter (λ k, is_Some (contents ops k))
                                (distinctKeys (putKeys ops)))).
Proof.
  destruct (run_contents ops NewWithComparator [] (λ _, None) Rep_New)
    as (s & L & Hrun & HR & Hm); [done|].
  exists s. split; [exact Hrun|]. unfold Len. rewrite (rep_length _ _ HR). f_equal.
  by apply (live_keys_length ops s L).
Qed.

End skipmap.

(** ** The package at integer keys

    [New] builds the map with the natural order of the key type; here the
    keys and values are integers. *)

Lemma defaultComparator_strict : StrictTotal defaultComparator.
Proof.
  split; unfold defaultComparator; intros;
    repeat match goal with
           | |- context [(?a <? ?b)%Z] => destruct (Z.ltb_spec a b)
           | |- context [(?a >? ?b)%Z] => rewrite (Z.gtb_ltb a b)
           | H : context [(?a <? ?b)%Z] |- _ => destruct (Z.ltb_spec a b)
           | H : context [(?a >? ?b)%Z] |- _ => rewrite (Z.gtb_ltb a b) in H
           end; lia.
Qed.

(** X16. [defaultComparator] orders the integers: it returns -1, 0 or 1
    as the first key is below, equal to or above the second, and swapping
    the arguments negates the result. *)
Theorem defaultComparator_order (a b : Z) :
  (defaultComparator a b = -1 ↔ a < b)%Z ∧
  (defaultComparator a b = 0 ↔ a = b)%Z ∧
  (defaultComparator a b = 1 ↔ b < a)%Z ∧
  (defaultComparator b a = - defaultComparator a b)%Z.
Proof.
  unfold defaultComparator. rewrite !Z.gtb_ltb.
  destruct (Z.ltb_spec a b), (Z.ltb_spec b a); lia.
Qed.

Definition New : SkipMap.t Z Z := NewWithComparator 0%Z 0%Z.

(** Coin flips given by a list; the flips after its end fail. *)
Definition coinsOf (l : list bool) : nat → bool := λ n, nth n l false.

(** A history with towers of several heights, an overwrite and removals. *)
Definition demoOps : list (@Op Z Z) :=
  [ OpPut 5 50 (coinsOf [true]);
    OpPut 1 10 (coinsOf []);
    OpPut 10 100 (coinsOf [true; true; true]);
    OpPut 7 70 (coinsOf [true; true]);
    OpPut 3 30 (coinsOf []);
    OpRemove 10;
    OpPut 5 51 (coinsOf [true; true; true; true]);
    OpRemove 4;
    OpPut 8 80 (coinsOf [true]) ]%Z.

Definition demoState : SkipMap.t Z Z :=
  match run defaultComparator demoOps New with
  | Done s => s
  | _ => New
  end.

(** The map of the package's tests: keys 0 to 9. *)
Definition tenOps : list (@Op Z Z) :=
  (λ i : nat, OpPut (Z.of_nat i) (Z.of_nat (10 * i))
                (coinsOf (replicate (i mod 4) true))) <$> seq 0 10.

Definition tenState : SkipMap.t Z Z :=
  match run defaultComparator tenOps New with
  | Done s => s
  | _ => New
  end.

(** A key is put, removed and put again. *)
Definition reputOps : list (@Op Z Z) :=
  [ OpPut 1 10 (coinsOf []); OpRemove 1; OpPut 1 11 (coinsOf []) ]%Z.

(** *** The package's tests, run on the embedding *)

Example test_Range :
  Range defaultComparator 2%Z 5%Z tenState = Done [20; 30; 40; 50]%Z.
Proof. vm_compute. reflexivity. Qed.

Example test_Range_none :
  Range defaultComparator 15%Z 20%Z tenState = Done [].
Proof. vm_compute. reflexivity. Qed.

Example test_RangeFunc_stop :
  RangeFunc defaultComparator 2%Z 8%Z
    (recording (λ k _, negb (k =? 5)%Z)) [] tenState
  = Done [(2, 20); (3, 30); (4, 40); (5, 50)]%Z.
Proof. vm_compute. reflexivity. Qed.

Example test_MinMax :
  Min 0%Z 0%Z New = Done (0, 0, false)%Z ∧
  Max 0%Z 0%Z New = Done (0, 0, false)%Z ∧
  Min 0%Z 0%Z demoState = Done (1, 10, true)%Z ∧
  Max 0%Z 0%Z demoState = Done (8, 80, true)%Z.
Proof. vm_compute. done. Qed.

Example test_Remove :
  (r <- Remove defaultComparator 4%Z demoState;; Done r.2) = Done false ∧
  (r <- Remove defaultComparator 7%Z demoState;;
   Get 0%Z defaultComparator 7%Z r.1) = Done (0%Z, false).
Proof. vm_compute. done. Qed.

(** *** Instances of the theorems *)

Lemma ordering_invariant_demo :
  ∃ s c0,
    run defaultComparator demoOps New = Done s ∧
    levelEntries 0 s = Done c0 ∧
    StronglySorted (tripleLt defaultComparator) c0 ∧
    ∀ i, i ≤ SkipMap.level s →
      ∃ ci, levelEntries i s = Done ci ∧ ci `sublist_of` c0.
Proof.
  destruct (ordering_invariant 0%Z 0%Z defaultComparator
              defaultComparator_strict demoOps)
    as (s & c0 & Hrun & Hc0 & Hsorted & _ & Hlevels).
  exists s, c0. split; [exact Hrun|]. split; [exact Hc0|]. split; [exact Hsorted|].
  intros i Hi. destruct (Hlevels i Hi) as (ci & Hci & Hsub & _).
  exists ci. split; [exact Hci|exact Hsub].
Defined.

Lemma put_overwrite_demo :
  ∃ s s1 s2,
    run defaultComparator demoOps New = Done s ∧
    Put defaultComparator 5%Z 52%Z (coinsOf [true]) s = Done s1 ∧
    Put defaultComparator 5%Z 53%Z (coinsOf [true; true]) s1 = Done s2 ∧
    Get 0%Z defaultComparator 5%Z s2 = Done (53%Z, true) ∧
    Len s2 = Len s1 ∧ Len s1 = Len s ∧
    length (SkipMap.heap s1) = length (SkipMap.heap s).
Proof.
  destruct (put_overwrite 0%Z 0%Z defaultComparator defaultComparator_strict
              demoOps 5%Z 52%Z 53%Z (coinsOf [true]) (coinsOf [true; true]))
    as (s & s1 & s2 & Hrun & H1 & H2 & Hget & Hlen & _ & Hpresent).
  assert (is_Some (contents defaultComparator demoOps 5%Z)) as Hsome
    by (vm_compute; eexists; reflexivity).
  destruct (Hpresent Hsome) as (Hlen1 & _ & Hheap & _).
  exists s, s1, s2.
  exact (conj Hrun (conj H1 (conj H2 (conj Hget (conj Hlen (conj Hlen1 Hheap)))))).
Defined.

Lemma remove_correct_demo :
  ∃ s' v,
    Remove defaultComparator 7%Z demoState = Done (s', true) ∧
    Get 0%Z defaultComparator 7%Z demoState = Done (v, true) ∧
    Len s' = (Len demoState - 1)%Z ∧
    Get 0%Z defaultComparator 7%Z s' = Done (0%Z, false).
Proof.
  assert (Reachable 0%Z 0%Z defaultComparator demoState) as Hr
    by (exists demoOps; vm_compute; reflexivity).
  destruct (remove_correct 0%Z 0%Z defaultComparator defaultComparator_strict
              demoState 7%Z Hr) as (s' & b & v & Hrem & Hget & Hb).
  assert (b = true) as -> by (vm_compute in Hget; congruence).
  destruct Hb as (Hlen & Hgone & _).
  exists s', v. exact (conj Hrem (conj Hget (conj Hlen Hgone))).
Defined.

Lemma range_correct_demo :
  ∃ kvs : list (Z * Z),
    Range defaultComparator 2%Z 5%Z tenState = Done (kvs.*2) ∧
    StronglySorted (pairLt defaultComparator) kvs ∧
    Range defaultComparator 5%Z 2%Z tenState = Done [].
Proof.
  assert (Reachable 0%Z 0%Z defaultComparator tenState) as Hr
    by (exists tenOps; vm_compute; reflexivity).
  destruct (range_correct 0%Z 0%Z defaultComparator defaultComparator_strict
              tenState 2%Z 5%Z Hr) as (kvs & Hrange & Hsorted & _).
  destruct (range_correct 0%Z 0%Z defaultComparator defaultComparator_strict
              tenState 5%Z 2%Z Hr) as (_ & _ & _ & _ & Hback).
  exists kvs. split; [exact Hrange|]. split; [exact Hsorted|].
  apply Hback. vm_compute. reflexivity.
Defined.

Lemma rangeFunc_traversal_demo :
  ∃ kvs : list (Z * Z),
    Range defaultComparator 2%Z 8%Z tenState = Done (kvs.*2) ∧
    RangeFunc defaultComparator 2%Z 8%Z
      (recording (λ k _, negb (k =? 5)%Z)) [] tenState
    = Done (callsUntil (λ k _, negb (k =? 5)%Z) kvs) ∧
    RangeFunc defaultComparator 2%Z 8%Z (recording (λ _ _, true)) [] tenState
    = Done kvs.
Proof.
  assert (Reachable 0%Z 0%Z defaultComparator tenState) as Hr
    by (exists tenOps; vm_compute; reflexivity).
  destruct (rangeFunc_traversal 0%Z 0%Z defaultComparator
              defaultComparator_strict tenState 2%Z 8%Z Hr)
    as (kvs & Hrange & _ & _ & _ & Hcalls & Hall).
  exists kvs. split; [exact Hrange|]. split; [apply Hcalls|exact Hall].
Defined.

Lemma min_max_correct_demo :
  ∃ c0,
    levelEntries 0 demoState = Done c0 ∧
    Min 0%Z 0%Z demoState
      = Done (match head c0 with
              | Some (_, k, v) => (k, v, true)
              | None => (0%Z, 0%Z, false)
              end) ∧
    Max 0%Z 0%Z demoState
      = Done (match last c0 with
              | Some (_, k, v) => (k, v, true)
              | None => (0%Z, 0%Z, false)
              end).
Proof.
  assert (Reachable 0%Z 0%Z defaultComparator demoState) as Hr
    by (exists demoOps; vm_compute; reflexivity).
  destruct (min_max_correct 0%Z 0%Z defaultComparator defaultComparator_strict
              demoState Hr) as (c0 & Hc0 & _ & _ & Hmin & Hmax & _).
  exists c0. exact (conj Hc0 (conj Hmin Hmax)).
Defined.


Lemma level_tracks_top_demo :
  (∃ b, headerForward (SkipMap.level demoState) demoState = Done (Some b)) ∧
  ∃ s', step defaultComparator demoState (OpRemove 7%Z) = Done s' ∧
        SkipMap.level s' ≤ SkipMap.level demoState.
Proof.
  assert (Reachable 0%Z 0%Z defaultComparator demoState) as Hr
    by (exists demoOps; vm_compute; reflexivity).
  destruct (level_tracks_top 0%Z 0%Z defaultComparator defaultComparator_strict
              demoState (OpRemove 7%Z) Hr)
    as (_ & Htop & s' & Hstep & _ & Hle & _).
  split; [exact Htop|]. exists s'. exact (conj Hstep Hle).
Defined.

Lemma operations_safe_demo :
  (∀ coins, ∃ rl, randomLevel demoState coins = Done rl ∧
                  (0 ≤ Z.of_nat rl ≤ 31)%Z) ∧
  (∀ k v coins, ∃ s', Put defaultComparator k v coins demoState = Done s') ∧
  (∀ k, ∃ r, Remove defaultComparator k demoState = Done r).
Proof.
  assert (Reachable 0%Z 0%Z defaultComparator demoState) as Hr
    by (exists demoOps; vm_compute; reflexivity).
  destruct (operations_safe 0%Z 0%Z defaultComparator defaultComparator_strict
              demoState Hr)
    as (Hmax & Hrl & _ & _ & _ & Hput & _ & Hrem & _).
  split; [|exact (conj Hput Hrem)].
  intros coins. destruct (Hrl coins) as (rl & Hdone & Hrange).
  exists rl. split; [exact Hdone|]. rewrite Hmax in Hrange. lia.
Defined.

(** *** Where the specification's wording and the code part *)


(** C8 as worded makes [level] an index at which the header's forward
    reference is non-null, the empty map included.  In the freshly
    constructed map [level] is 0 and the header's reference there is null:
    no index qualifies. *)
Lemma level_top_counterexample :
  SkipMap.level New = 0 ∧
  headerForward (SkipMap.level New) New = Done None ∧
  Len New = 0%Z.
Proof. vm_compute. done. Qed.

Lemma New_not_levelIsTop : ¬ levelIsTop New.
Proof. intros [[b Hb] _]. vm_compute in Hb. discriminate. Qed.

(** *** Instances of the further properties *)

(** The keys and values of [demoOps], put in another order and with other
    coin flips. *)
Definition demoOps2 : list (@Op Z Z) :=
  [ OpPut 8 80 (coinsOf [true; true]);
    OpPut 7 70 (coinsOf []);
    OpPut 3 30 (coinsOf [true]);
    OpPut 5 51 (coinsOf []);
    OpPut 1 10 (coinsOf [true; true; true]) ]%Z.

Definition demoState2 : SkipMap.t Z Z :=
  match run defaultComparator demoOps2 New with
  | Done s => s
  | _ => New
  end.

(** [demoState] with other contents in the scratch buffer. *)
Definition staleState : SkipMap.t Z Z :=
  SkipMap.mk (SkipMap.heap demoState) (SkipMap.header demoState)
    (SkipMap.maxLevel demoState) (SkipMap.level demoState)
    (SkipMap.length demoState) (replicate 32 (Some 3)).

Lemma demoState_Reachable : Reachable 0%Z 0%Z defaultComparator demoState.
Proof. exists demoOps. vm_compute. reflexivity. Qed.

Lemma demoState2_Reachable : Reachable 0%Z 0%Z defaultComparator demoState2.
Proof. exists demoOps2. vm_compute. reflexivity. Qed.

Lemma demo_contents k :
  contents defaultComparator demoOps2 k = contents defaultComparator demoOps k.
Proof.
  unfold contents, demoOps, demoOps2. cbn [fold_left applyOp].
  unfold defaultComparator. rewrite !Z.gtb_ltb.
  repeat match goal with
         | |- context [(?a <? ?b)%Z] =>
             destruct (Z.ltb_spec a b); try (exfalso; lia)
         end; reflexivity.
Qed.

Lemma demo_Get k :
  Get 0%Z defaultComparator k demoState2 = Get 0%Z defaultComparator k demoState.
Proof.
  destruct (run_contents defaultComparator defaultComparator_strict demoOps
              New [] (λ _, None) (Rep_New 0%Z 0%Z defaultComparator))
    as (s & L & Hrun & HR & Hm); [reflexivity|].
  destruct (run_contents defaultComparator defaultComparator_strict demoOps2
              New [] (λ _, None) (Rep_New 0%Z 0%Z defaultComparator))
    as (s2 & L2 & Hrun2 & HR2 & Hm2); [reflexivity|].
  assert (demoState = s) as -> by (unfold demoState; by rewrite Hrun).
  assert (demoState2 = s2) as -> by (unfold demoState2; by rewrite Hrun2).
  rewrite (Get_spec 0%Z defaultComparator defaultComparator_strict s L k HR).
  rewrite (Get_spec 0%Z defaultComparator defaultComparator_strict s2 L2 k HR2).
  pose proof (Hm k) as H1. pose proof (Hm2 k) as H2.
  fold (contents defaultComparator demoOps k) in H1.
  fold (contents defaultComparator demoOps2 k) in H2.
  rewrite demo_contents in H2. rewrite <- H1 in H2.
  destruct (findKey defaultComparator k L), (findKey defaultComparator k L2);
    simpl in H2; congruence.
Qed.

Lemma get_follows_history_demo :
  ∃ s,
    run defaultComparator demoOps New = Done s ∧
    Get 0%Z defaultComparator 5%Z s = Done (51%Z, true) ∧
    Get 0%Z defaultComparator 10%Z s = Done (0%Z, false).
Proof.
  destruct (get_follows_history 0%Z 0%Z defaultComparator
              defaultComparator_strict demoOps) as (s & Hrun & Hget).
  exists s. split; [exact Hrun|]. split; [exact (Hget 5%Z)|exact (Hget 10%Z)].
Defined.

Lemma distinct_puts_all_found_demo :
  ∃ s,
    run defaultComparator tenOps New = Done s ∧ Len s = 10%Z ∧
    ∃ v, Get 0%Z defaultComparator 7%Z s = Done (v, true).
Proof.
  assert (distinctPuts defaultComparator tenOps) as Hd.
  { vm_compute. repeat split; repeat constructor; discriminate. }
  destruct (distinct_puts_all_found 0%Z 0%Z defaultComparator
              defaultComparator_strict tenOps Hd) as (s & Hrun & Hlen & Hget).
  exists s. split; [exact Hrun|]. split; [exact Hlen|].
  apply Hget. vm_compute. repeat constructor.
Defined.

Lemma answers_follow_contents_demo :
  sameAnswers 0%Z 0%Z defaultComparator demoState demoState2.
Proof.
  exact (answers_follow_contents 0%Z 0%Z defaultComparator
           defaultComparator_strict demoState demoState2
           demoState_Reachable demoState2_Reachable demo_Get).
Defined.

Lemma put_then_get_demo :
  ∃ s',
    Put defaultComparator 6%Z 60%Z (coinsOf [true]) demoState = Done s' ∧
    Get 0%Z defaultComparator 6%Z s' = Done (60%Z, true) ∧
    Get 0%Z defaultComparator 5%Z s' = Get 0%Z defaultComparator 5%Z demoState ∧
    Len s' = (Len demoState + 1)%Z.
Proof.
  destruct (put_then_get 0%Z 0%Z defaultComparator defaultComparator_strict
              demoState 6%Z 60%Z (coinsOf [true]) demoState_Reachable)
    as (s' & present & v0 & Hput & _ & Hget & Hget' & Hother & Hlen).
  assert (present = false) as -> by (vm_compute in Hget; congruence).
  exists s'. split; [exact Hput|]. split; [exact Hget'|].
  split; [|exact Hlen]. apply Hother. vm_compute. discriminate.
Defined.

Lemma put_then_remove_demo :
  ∃ s1 s2,
    Put defaultComparator 6%Z 60%Z (coinsOf [true; true; true; true; true])
      demoState = Done s1 ∧
    Remove defaultComparator 6%Z s1 = Done (s2, true) ∧
    SkipMap.level s2 = SkipMap.level demoState.
Proof.
  assert (Get 0%Z defaultComparator 6%Z demoState = Done (0%Z, false)) as Hget
    by (vm_compute; reflexivity).
  destruct (put_then_remove 0%Z 0%Z defaultComparator defaultComparator_strict
              demoState 6%Z 60%Z (coinsOf [true; true; true; true; true])
              demoState_Reachable Hget)
    as (s1 & s2 & Hput & Hrem & _ & Hlev).
  exists s1, s2. exact (conj Hput (conj Hrem Hlev)).
Defined.

Lemma remove_then_put_demo :
  ∃ s1 s2,
    Remove defaultComparator 7%Z demoState = Done (s1, true) ∧
    Put defaultComparator 7%Z 70%Z (coinsOf []) s1 = Done s2 ∧
    sameAnswers 0%Z 0%Z defaultComparator demoState s2.
Proof.
  assert (Get 0%Z defaultComparator 7%Z demoState = Done (70%Z, true)) as Hget
    by (vm_compute; reflexivity).
  exact (remove_then_put 0%Z 0%Z defaultComparator defaultComparator_strict
           demoState 7%Z 70%Z (coinsOf []) demoState_Reachable Hget).
Defined.

Lemma independent_ops_commute_demo :
  ∃ t t',
    run defaultComparator [OpPut 6%Z 60%Z (coinsOf [true]); OpRemove 7%Z]
      demoState = Done t ∧
    run defaultComparator [OpRemove 7%Z; OpPut 6%Z 60%Z (coinsOf [true])]
      demoState = Done t' ∧
    sameAnswers 0%Z 0%Z defaultComparator t t'.
Proof.
  assert (defaultComparator
            (opKey (OpPut 6%Z 60%Z (coinsOf [true]))) (opKey (@OpRemove Z Z 7%Z))
          ≠ 0%Z) as Hne by (vm_compute; discriminate).
  exact (independent_ops_commute 0%Z 0%Z defaultComparator
           defaultComparator_strict demoState
           (OpPut 6%Z 60%Z (coinsOf [true])) (OpRemove 7%Z)
           demoState_Reachable Hne).
Defined.

Lemma scratch_buffer_irrelevant_demo :
  ∃ t t',
    run defaultComparator [OpPut 6%Z 60%Z (coinsOf [true]); OpRemove 3%Z]
      demoState = Done t ∧
    run defaultComparator [OpPut 6%Z 60%Z (coinsOf [true]); OpRemove 3%Z]
      staleState = Done t' ∧
    sameObservations 0%Z 0%Z defaultComparator t t'.
Proof.
  assert (sameButCache demoState staleState) as Hsame
    by (vm_compute; repeat split).
  exact (scratch_buffer_irrelevant 0%Z 0%Z defaultComparator
           defaultComparator_strict demoState staleState
           [OpPut 6%Z 60%Z (coinsOf [true]); OpRemove 3%Z]
           demoState_Reachable Hsame).
Defined.

Lemma range_of_everything_demo :
  ∃ vs,
    Range defaultComparator 1%Z 8%Z demoState = Done vs ∧
    Z.of_nat (length vs) = Len demoState ∧
    head vs = Some 10%Z ∧ last vs = Some 80%Z.
Proof.
  assert (Min 0%Z 0%Z demoState = Done (1, 10, true)%Z) as Hmin
    by (vm_compute; reflexivity).
  assert (Max 0%Z 0%Z demoState = Done (8, 80, true)%Z) as Hmax
    by (vm_compute; reflexivity).
  destruct (range_of_everything 0%Z 0%Z defaultComparator
              defaultComparator_strict demoState 1%Z 10%Z 8%Z 80%Z
              demoState_Reachable Hmin Hmax)
    as (vs & Hrange & Hlen & Hhead & Hlast & _).
  exists vs. exact (conj Hrange (conj Hlen (conj Hhead Hlast))).
Defined.

Lemma empty_iff_no_key_demo :
  (0 ≤ Len demoState)%Z ∧
  (IsEmpty demoState = false ↔
   ∃ k v, Get 0%Z defaultComparator k demoState = Done (v, true)).
Proof.
  destruct (empty_iff_no_key 0%Z 0%Z defaultComparator defaultComparator_strict
              demoState demoState_Reachable) as (Hlen & _ & _ & Hsome).
  exact (conj Hlen Hsome).
Defined.

Lemma put_links_tower_demo :
  ∃ s' rl,
    Put defaultComparator 6%Z 60%Z (coinsOf [true]) demoState = Done s' ∧
    randomLevel demoState (coinsOf [true]) = Done rl ∧
    SkipMap.level s' = SkipMap.level demoState `max` rl.
Proof.
  assert (Get 0%Z defaultComparator 6%Z demoState = Done (0%Z, false)) as Hget
    by (vm_compute; reflexivity).
  destruct (put_links_tower 0%Z 0%Z defaultComparator defaultComparator_strict
              demoState 6%Z 60%Z (coinsOf [true]) demoState_Reachable Hget)
    as (s' & rl & Hput & Hrl & Hlev & _).
  exists s', rl. exact (conj Hput (conj Hrl Hlev)).
Defined.

Lemma remove_unlinks_tower_demo :
  ∃ s' b c0,
    Remove defaultComparator 7%Z demoState = Done (s', b) ∧
    levelEntries 0 demoState = Done c0 ∧
    levelEntries 0 s'
    = Done (filter (λ t, defaultComparator (keyOf t) 7%Z ≠ 0%Z) c0).
Proof.
  destruct (remove_unlinks_tower 0%Z 0%Z defaultComparator
              defaultComparator_strict demoState 7%Z demoState_Reachable)
    as (s' & b & Hrem & Hlevels).
  destruct (Hlevels 0) as (c0 & Hc0 & Hc0'); [vm_compute; lia|].
  exists s', b, c0. exact (conj Hrem (conj Hc0 Hc0')).
Defined.

Lemma len_counts_live_keys_demo :
  ∃ s,
    run defaultComparator reputOps New = Done s ∧
    Len s = Z.of_nat (length (filter (λ k, is_Some (contents defaultComparator reputOps k))
                                (distinctKeys defaultComparator (putKeys reputOps)))).
Proof.
  exact (len_counts_live_keys 0%Z 0%Z defaultComparator defaultComparator_strict
           reputOps).
Defined.

Lemma range_point_demo :
  ∃ v (b : bool),
    Get 0%Z defaultComparator 5%Z demoState = Done (v, b) ∧
    Range defaultComparator 5%Z 5%Z demoState = Done (if b then [v] else []).
Proof.
  exact (range_point 0%Z 0%Z defaultComparator defaultComparator_strict
           demoState 5%Z demoState_Reachable).
Defined.
